(** * A shallow embedding of [src/enhanced_indexer.py]

    The sharded, compressed inverted index of the on-chain search prototype:
    the varint codec, the delta-compressed postings lists, the per-shard
    bloom filter, [build_index], [postings_for] and [boolean_query];
    with them the linear scan [naive_boolean] of [src/demo_boolean.py], which
    the demo runs beside [boolean_query], and the [/query] handler of
    [src/fastapi_server.py].

    Conventions of the embedding.
    - A Python [int] is a [Z]; [&], [|], [<<], [>>] are [Z.land], [Z.lor],
      [Z.shiftl], [Z.shiftr] (both sides use the infinite two's complement
      reading of negative numbers).
    - [bytes] and [bytearray] are [list byte].
    - A [str] key is a [string]: its characters are the bytes of its UTF-8
      encoding, so [key.encode('utf-8')] is [list_byte_of_string].
    - A [dict] is a [gmap]; a table of the SQLite store is a [gmap] from its
      primary key to the rest of the row, holding integers of any size
      (the 64-bit range of SQLite's integer columns is not modelled).
    - A [dict] and a table are enumerated in the order of [map_to_list];
      Python enumerates a [dict] in insertion order and SQLite a table in
      an order of its own. What [postings_for] does is the same for every
      order of the rows ([postings_for_rows_Permutation_eq]); which of
      several failing steps of a build is met first depends on the order.
    - A Python call either returns, raises, or does not return: see [outcome].
    - The store a query reads exists and has its two tables; a missing
      database file is not modelled.
    - A loop that only appends to an output list is written as a function
      that builds that list front to back. *)

From Stdlib Require Import ZArith Lia.
From Stdlib Require Import Strings.String Strings.Byte.
From stdpp Require Import base tactics option list numbers strings gmap sorting.

Local Open Scope Z_scope.

(** ** Outcomes of a call *)

Inductive exn : Set :=
  | IndexError          (* b[i] past the end of a buffer *)
  | ZeroDivisionError   (* [//] or [%] by zero *)
  | ValueError          (* negative shift count, negative length *)
  | OverflowError       (* int.to_bytes: the integer does not fit *)
  | StructError         (* struct.unpack_from outside the buffer *)
  | KeyError            (* dict[key] on a missing key *)
  | IntegrityError.     (* INSERT of an existing primary key *)

Inductive outcome (A : Type) : Type :=
  | Ret (a : A)
  | Raise (e : exn)
  | Diverge.            (* the call does not return *)
Arguments Ret {A} a.
Arguments Raise {A} e.
Arguments Diverge {A}.

Global Instance outcome_ret : MRet outcome := @Ret.
Global Instance outcome_bind : MBind outcome := λ A B f m,
  match m with
  | Ret a => f a
  | Raise e => Raise e
  | Diverge => Diverge
  end.

Global Instance exn_eq_dec : EqDecision exn.
Proof. solve_decision. Defined.
Global Instance outcome_eq_dec `{EqDecision A} : EqDecision (outcome A).
Proof. solve_decision. Defined.

Fixpoint foldlM {A B} (f : B → A → outcome B) (b : B) (l : list A) : outcome B :=
  match l with
  | [] => Ret b
  | x :: l => b' ← f b x; foldlM f b' l
  end.

Definition returns {A} (m : outcome A) : Prop := ∃ a, m = Ret a.

(** ** Python integer operators that can raise *)

Definition py_floordiv (a b : Z) : outcome Z :=
  if b =? 0 then Raise ZeroDivisionError else Ret (a `div` b).

Definition py_mod (a b : Z) : outcome Z :=
  if b =? 0 then Raise ZeroDivisionError else Ret (a `mod` b).

Definition py_lshift (a n : Z) : outcome Z :=
  if n <? 0 then Raise ValueError else Ret (Z.shiftl a n).

Definition py_rshift (a n : Z) : outcome Z :=
  if n <? 0 then Raise ValueError else Ret (Z.shiftr a n).

(** ** Bytes *)

Definition byte_to_Z (b : byte) : Z := Z.of_N (Byte.to_N b).

(** [bytearray.append(z)]: every [z] the code appends is in [0, 256)
    (see [byte_to_of_Z]); outside of it Python raises and [byte_of_Z] is
    not meant. *)
Definition byte_of_Z (z : Z) : byte :=
  default "000"%byte (Byte.of_N (Z.to_N z)).

(** [int.from_bytes(b, 'big')] *)
Definition int_from_bytes (b : list byte) : Z :=
  foldl (λ acc x, acc * 256 + byte_to_Z x) 0 b.

(** The [len] low-order base-256 digits of [n], most significant first. *)
Fixpoint be_digits (len : nat) (n : Z) : list byte :=
  match len with
  | O => []
  | S len' => be_digits len' (n `div` 256) ++ [byte_of_Z (n `mod` 256)]
  end.

(** [n.to_bytes(length, 'big')] *)
Definition int_to_bytes (n length : Z) : outcome (list byte) :=
  if length <? 0 then Raise ValueError
  else if n <? 0 then Raise OverflowError
  else if 256 ^ length <=? n then Raise OverflowError
  else Ret (be_digits (Z.to_nat length) n).

(** ** VarintCodec *)

(** The [while True] loop of [varint_encode]; [fuel] bounds the number of
    iterations and running out of it is [Diverge] (a run that never leaves
    the loop ends only when memory is exhausted). *)
Fixpoint varint_encode_loop (fuel : nat) (n : Z) : outcome (list byte) :=
  match fuel with
  | O => Diverge
  | S fuel' =>
      let towrite := Z.land n 0x7F in
      let n := Z.shiftr n 7 in
      if negb (n =? 0) then
        rest ← varint_encode_loop fuel' n;
        Ret (byte_of_Z (Z.lor towrite 0x80) :: rest)
      else Ret [byte_of_Z towrite]
  end.

(** Enough iterations for every [n] on which the loop stops
    (see [varint_encode_loop_fuel] and [varint_encode_loop_negative]). *)
Definition varint_fuel (n : Z) : nat := S (Z.to_nat (Z.log2 n)).

Definition varint_encode (n : Z) : outcome (list byte) :=
  varint_encode_loop (varint_fuel n) n.

(** How a generator ends: it is exhausted, or an exception leaves it. *)
Inductive gen_end : Set :=
  | StopIteration
  | GenRaise (e : exn).

(** [varint_decode_stream] from position [i] on, [b] being [b[i:]].
    [mid] tells the program point: [false] at the head of the outer loop
    ([while i < L], where [shift] and [val] are reset), [true] inside the
    inner loop after a byte with the continuation bit. The result is the
    list of the values yielded and how the generator ends. *)
Fixpoint varint_decode_from (b : list byte) (mid : bool) (shift val : Z)
    : list Z * gen_end :=
  match b with
  | [] => ([], if mid then GenRaise IndexError else StopIteration)
  | byte :: b' =>
      let byte := byte_to_Z byte in
      let val := Z.lor val (Z.shiftl (Z.land byte 0x7F) shift) in
      if negb (Z.land byte 0x80 =? 0) then
        varint_decode_from b' true (shift + 7) val
      else
        let '(vals, e) := varint_decode_from b' false 0 0 in
        (val :: vals, e)
  end.

Definition varint_decode_stream (b : list byte) : list Z * gen_end :=
  varint_decode_from b false 0 0.

(** ** PostingsCodec *)

Fixpoint compress_loop (prev : Z) (block_numbers : list Z) : outcome (list byte) :=
  match block_numbers with
  | [] => Ret []
  | b :: rest =>
      let delta := b - prev in
      enc ← varint_encode delta;
      out ← compress_loop b rest;
      Ret (enc ++ out)
  end.

Definition compress_postings (block_numbers : list Z) : outcome (list byte) :=
  match block_numbers with
  | [] => Ret []
  | _ => compress_loop 0 block_numbers
  end.

Fixpoint running_sum (prev : Z) (deltas : list Z) : list Z :=
  match deltas with
  | [] => []
  | delta :: rest => let val := prev + delta in val :: running_sum val rest
  end.

Definition decompress_postings (b : list byte) : outcome (list Z) :=
  let '(deltas, e) := varint_decode_stream b in
  match e with
  | StopIteration => Ret (running_sum 0 deltas)
  | GenRaise e => Raise e
  end.

(** ** BloomFilter *)

(** [hashlib.sha256(key).digest()]: the digest function is a parameter of
    the development. *)
Class Digest := sha256 : list byte → list byte.

(** [struct.unpack_from(">Q", h, offset)[0]]: a negative offset counts from
    the end of the buffer; the eight bytes must lie inside it. *)
Definition unpack_from_Q (h : list byte) (offset : Z) : outcome Z :=
  let len := Z.of_nat (length h) in
  let offset := if offset <? 0 then offset + len else offset in
  if (offset <? 0) || (len - offset <? 8) then Raise StructError
  else Ret (int_from_bytes (take 8 (drop (Z.to_nat offset) h))).

Module BloomFilter.

Record t : Type := Build { m : Z; k : Z; bitarr : Z }.

(** [__init__] *)
Definition init (m_bits k : Z) : t := {| m := m_bits; k := k; bitarr := 0 |}.

(** The body of the loop of [_hashes] for round [i]. *)
Definition hash_round (self : t) (h : list byte) (i : Z) : outcome Z :=
  start ← py_mod (i * 8) (Z.of_nat (length h) - 7);
  val ← unpack_from_Q h start;
  py_mod val self.(m).

(** [_hashes] is a generator: the list of its rounds, each computed (and
    possibly raising) when the consumer asks for it. *)
Definition _hashes `{Digest} (self : t) (key : list byte) : list (outcome Z) :=
  let h := sha256 key in
  hash_round self h <$> seqZ 0 self.(k).

Definition add_loop (bitarr : Z) (hashes : list (outcome Z)) : outcome Z :=
  foldlM (λ bitarr p, pos ← p; bit ← py_lshift 1 pos; Ret (Z.lor bitarr bit))
         bitarr hashes.

Definition add `{Digest} (self : t) (key : string) : outcome t :=
  bitarr ← add_loop self.(bitarr) (_hashes self (list_byte_of_string key));
  Ret {| m := self.(m); k := self.(k); bitarr := bitarr |}.

Fixpoint contains_loop (bitarr : Z) (hashes : list (outcome Z)) : outcome bool :=
  match hashes with
  | [] => Ret true
  | p :: hashes =>
      pos ← p;
      shifted ← py_rshift bitarr pos;
      if Z.land shifted 1 =? 0 then Ret false
      else contains_loop bitarr hashes
  end.

(** [__contains__] *)
Definition contains `{Digest} (self : t) (key : string) : outcome bool :=
  contains_loop self.(bitarr) (_hashes self (list_byte_of_string key)).

Definition to_bytes (self : t) : outcome (list byte) :=
  let num_bytes := (self.(m) + 7) `div` 8 in
  int_to_bytes self.(bitarr) num_bytes.

Definition from_bytes (b : list byte) (m_bits k : Z) : t :=
  {| m := m_bits; k := k; bitarr := int_from_bytes b |}.

End BloomFilter.

(** ** The input batch *)

Record tx : Type := {
  tx_from : string;
  tx_to : string;
  tx_topics : option (list string)     (* [tx.get("topics", [])] *)
}.

Record block : Type := {
  block_number : Z;
  transactions : list tx
}.

(** The keys one transaction is indexed under, in the order of the code. *)
Definition tx_keys (t : tx) : list string :=
  [t.(tx_from); t.(tx_to)]
    ++ ((λ topic, "topic:" +:+ topic) <$> default [] t.(tx_topics)).

(** ** The store *)

(** The two tables, each a map from its primary key:
    [shards(shard_id, start_block, end_block, bloom)] and
    [postings(address, shard_id, postings)]. *)
Record Store : Type := {
  shards : gmap Z (Z * Z * list byte);
  postings : gmap (string * Z) (list byte)
}.

Definition empty_store : Store := {| shards := ∅; postings := ∅ |}.

Definition insert_shard (st : Store) (shard_id : Z) (row : Z * Z * list byte) : outcome Store :=
  match st.(shards) !! shard_id with
  | Some _ => Raise IntegrityError
  | None => Ret {| shards := <[shard_id := row]> st.(shards); postings := st.(postings) |}
  end.

Definition insert_postings (st : Store) (addr : string) (shard_id : Z) (comp : list byte)
    : outcome Store :=
  match st.(postings) !! (addr, shard_id) with
  | Some _ => Raise IntegrityError
  | None => Ret {| shards := st.(shards); postings := <[(addr, shard_id) := comp]> st.(postings) |}
  end.

(** [SELECT shard_id, bloom FROM shards]: the rows, in the order of the
    store's enumeration. *)
Definition shard_rows (st : Store) : list (Z * list byte) :=
  (λ row, (row.1, row.2.2)) <$> map_to_list st.(shards).

(** ** Built-ins *)

(** [sorted] on integers: the ascending rearrangement of what it is given
    (a list, or the elements of a set in whatever order the set yields them). *)
Definition sorted (l : list Z) : list Z := merge_sort Z.le l.

(** [set(l)] *)
Definition set_of (l : list Z) : gset Z := list_to_set l.

(** ** EnhancedIndexer *)

Module EnhancedIndexer.

(** The configuration of an instance; its [db_path] names the store, which
    the functions below take and return. *)
Record t : Type := Build { shard_size : Z; bloom_m : Z; bloom_k : Z }.

(** The defaults of [__init__]. *)
Definition defaults : t := {| shard_size := 100; bloom_m := 8192; bloom_k := 6 |}.

Section Build.
Context `{Digest}.
Variable self : t.

(** [shard_postings] and [shard_blooms] *)
Definition build_state : Type :=
  gmap Z (gmap string (list Z)) * gmap Z BloomFilter.t.

(** [shard_postings[shard_id][key].append(blknum)] followed by
    [shard_blooms[shard_id].add(key)]. *)
Definition index_key (shard_id blknum : Z) (st : build_state) (key : string)
    : outcome build_state :=
  let '(shard_postings, shard_blooms) := st in
  let postings := default ∅ (shard_postings !! shard_id) in
  let blocks := default [] (postings !! key) in
  let shard_postings :=
    <[shard_id := <[key := blocks ++ [blknum]]> postings]> shard_postings in
  match shard_blooms !! shard_id with
  | None => Raise KeyError
  | Some bf =>
      bf ← BloomFilter.add bf key;
      Ret (shard_postings, <[shard_id := bf]> shard_blooms)
  end.

Definition index_tx (shard_id blknum : Z) (st : build_state) (t : tx)
    : outcome build_state :=
  foldlM (index_key shard_id blknum) st (tx_keys t).

(** The body of [for blk in chain]. *)
Definition index_block (st : build_state) (blk : block) : outcome build_state :=
  let '(shard_postings, shard_blooms) := st in
  let blknum := blk.(block_number) in
  shard_id ← py_floordiv blknum self.(shard_size);
  let shard_blooms :=
    match shard_blooms !! shard_id with
    | None => <[shard_id := BloomFilter.init self.(bloom_m) self.(bloom_k)]> shard_blooms
    | Some _ => shard_blooms
    end in
  foldlM (index_tx shard_id blknum) (shard_postings, shard_blooms) blk.(transactions).

(** The body of [for addr, blocks in postings.items()]. *)
Definition flush_postings (shard_id : Z) (st : Store) (entry : string * list Z)
    : outcome Store :=
  let '(addr, blocks) := entry in
  let blocks_sorted := sorted (elements (set_of blocks)) in
  comp ← compress_postings blocks_sorted;
  insert_postings st addr shard_id comp.

(** The body of [for shard_id, postings in shard_postings.items()]. *)
Definition flush_shard (shard_blooms : gmap Z BloomFilter.t) (st : Store)
    (entry : Z * gmap string (list Z)) : outcome Store :=
  let '(shard_id, postings) := entry in
  let start_block := shard_id * self.(shard_size) in
  let end_block := start_block + self.(shard_size) - 1 in
  match shard_blooms !! shard_id with
  | None => Raise KeyError
  | Some bf =>
      bloom_bytes ← BloomFilter.to_bytes bf;
      st ← insert_shard st shard_id (start_block, end_block, bloom_bytes);
      foldlM (flush_postings shard_id) st (map_to_list postings)
  end.

(** [build_index]: the database file is removed and recreated, so the
    build starts from the empty store. *)
Definition build_index (chain : list block) : outcome Store :=
  st ← foldlM index_block (∅, ∅) chain;
  let '(shard_postings, shard_blooms) := st in
  foldlM (flush_shard shard_blooms) empty_store (map_to_list shard_postings).

(** The first loop of [postings_for], over the rows fetched. *)
Definition candidates_of (key : string) (rows : list (Z * list byte))
    : outcome (list Z) :=
  foldlM (λ candidates row,
            let '(shard_id, bloom_blob) := row in
            let bf := BloomFilter.from_bytes bloom_blob self.(bloom_m) self.(bloom_k) in
            c ← BloomFilter.contains bf key;
            Ret (if c : bool then candidates ++ [shard_id] else candidates))
         [] rows.

(** The second loop of [postings_for]. *)
Definition fetch_postings (table : gmap (string * Z) (list byte)) (key : string)
    (candidates : list Z) : outcome (list Z) :=
  foldlM (λ res sid,
            match table !! (key, sid) with
            | Some r => l ← decompress_postings r; Ret (res ++ l)
            | None => Ret res
            end)
         [] candidates.

(** [postings_for], given the rows that [fetchall] returned. *)
Definition postings_for_rows (rows : list (Z * list byte))
    (table : gmap (string * Z) (list byte)) (key : string) : outcome (list Z) :=
  candidates ← candidates_of key rows;
  res ← fetch_postings table key candidates;
  Ret (sorted res).

Definition postings_for (st : Store) (key : string) : outcome (list Z) :=
  postings_for_rows (shard_rows st) st.(postings) key.
End Build.

Fixpoint intersect_sorted (a : list Z) : list Z → list Z :=
  fix walk (b : list Z) : list Z :=
    match a, b with
    | x :: a', y :: b' =>
        if x =? y then x :: intersect_sorted a' b'
        else if x <? y then intersect_sorted a' b
        else walk b'
    | _, _ => []
    end.

(** The three [while] loops of [merge_sorted]. *)
Fixpoint merge_loop (a : list Z) : list Z → list Z :=
  fix walk (b : list Z) : list Z :=
    match a, b with
    | x :: a', y :: b' =>
        if x =? y then x :: merge_loop a' b'
        else if x <? y then x :: merge_loop a' b
        else y :: walk b'
    | _ :: _, [] => a
    | [], _ => b
    end.

(** The final loop of [merge_sorted]: [prev] starts as [None]. *)
Fixpoint drop_repeats (prev : option Z) (out : list Z) : list Z :=
  match out with
  | [] => []
  | x :: out =>
      if decide (Some x = prev) then drop_repeats prev out
      else x :: drop_repeats (Some x) out
  end.

Definition merge_sorted (a b : list Z) : list Z :=
  drop_repeats None (merge_loop a b).

Section Query.
Context `{Digest}.
Variable self : t.

Definition boolean_query (st : Store) (must_have any_of : list string)
    : outcome (list Z) :=
  lists ← mapM (postings_for self st) must_have;
  let required :=
    match lists with
    | cur :: rest => Some (foldl intersect_sorted cur rest)
    | [] => None
    end in
  any_list ← foldlM (λ any_list k,
                        p ← postings_for self st k;
                        Ret (merge_sorted any_list p))
                     [] any_of;
  match required, any_list with
  | None, _ :: _ => Ret any_list
  | None, [] => Ret []
  | Some required, [] => Ret required
  | Some required, _ :: _ => Ret (intersect_sorted required any_list)
  end.
End Query.

End EnhancedIndexer.

(** ** Definitions used to state the properties *)

(** The arguments [compress_postings] passes to [varint_encode]. *)
Fixpoint deltas (prev : Z) (block_numbers : list Z) : list Z :=
  match block_numbers with
  | [] => []
  | b :: rest => (b - prev) :: deltas b rest
  end.

(** A stand-in for SHA-256 in the worked examples: the key repeated up to
    32 bytes (and zeros for the empty key). Like SHA-256 it yields 32
    bytes. *)
Definition example_digest : Digest :=
  λ key, take 32 (mjoin (replicate 32 key) ++ replicate 32 "000"%byte).

(** SHA-256 digests are 32 bytes long. *)
Class DigestLength `{Digest} : Prop :=
  digest_length : ∀ key, length (sha256 key) = 32%nat.

(** The keys a block is indexed under. *)
Definition block_keys (blk : block) : list string :=
  blk.(transactions) ≫= tx_keys.

(** The block numbers of the batch that [key] is indexed under. *)
Definition blocks_with (chain : list block) (key : string) : list Z :=
  block_number <$> filter (λ blk, key ∈ block_keys blk) chain.

(** What the bloom filter of a fetched row answers for [key]. *)
Definition row_test `{Digest} (self : EnhancedIndexer.t) (key : string)
    (row : Z * list byte) : outcome bool :=
  BloomFilter.contains
    (BloomFilter.from_bytes row.2 self.(EnhancedIndexer.bloom_m) self.(EnhancedIndexer.bloom_k))
    key.

Definition is_candidate `{Digest} (self : EnhancedIndexer.t) (key : string)
    (row : Z * list byte) : Prop :=
  row_test self key row = Ret true.

Global Instance is_candidate_dec `{Digest} (self : EnhancedIndexer.t) (key : string)
    (row : Z * list byte) : Decision (is_candidate self key row).
Proof. unfold is_candidate. apply _. Defined.

(** What the second loop of [postings_for] fetches for one shard. *)
Definition shard_fetch (table : gmap (string * Z) (list byte)) (key : string)
    (sid : Z) : outcome (list Z) :=
  match table !! (key, sid) with
  | Some r => decompress_postings r
  | None => Ret []
  end.

(** The list a returning outcome holds, and [[]] otherwise. *)
Definition returned (m : outcome (list Z)) : list Z :=
  match m with
  | Ret l => l
  | _ => []
  end.

(** Every block number pending for a key of a shard lies in that shard and
    comes from a block of the batch that has the key. *)
Definition postings_sound (self : EnhancedIndexer.t) (chain : list block)
    (shard_postings : gmap Z (gmap string (list Z))) : Prop :=
  ∀ sid pm key blocks,
    shard_postings !! sid = Some pm → pm !! key = Some blocks →
    blocks ≠ []
    ∧ Forall (λ b, b `div` self.(EnhancedIndexer.shard_size) = sid
                   ∧ b ∈ blocks_with chain key) blocks.

(** Every row of the postings table is the compressed pending list of its
    key and shard. *)
Definition table_sound (shard_postings : gmap Z (gmap string (list Z)))
    (table : gmap (string * Z) (list byte)) : Prop :=
  ∀ key sid blob,
    table !! (key, sid) = Some blob →
    ∃ pm blocks,
      shard_postings !! sid = Some pm ∧ pm !! key = Some blocks
      ∧ compress_postings (sorted (elements (set_of blocks))) = Ret blob.

(** The list [postings_for] sorts, when its loops return. *)
Definition fetched `{Digest} (self : EnhancedIndexer.t) (st : Store) (key : string)
    : list Z :=
  (filter (is_candidate self key) (shard_rows st)).*1
    ≫= λ sid, returned (shard_fetch (postings st) key sid).

(** ** Worked examples *)

(** The three blocks of the end-to-end example of the specification. *)
Definition example_chain : list block := [
  {| block_number := 0;
     transactions := [ {| tx_from := "A"; tx_to := "B"; tx_topics := None |} ] |};
  {| block_number := 1;
     transactions := [ {| tx_from := "X"; tx_to := "Y"; tx_topics := Some ["5"%string] |} ] |};
  {| block_number := 2;
     transactions := [ {| tx_from := "A"; tx_to := "C"; tx_topics := Some ["5"%string] |} ] |}
].

(** An instance with two blocks per shard and a small bloom filter. *)
Definition example_indexer : EnhancedIndexer.t :=
  {| EnhancedIndexer.shard_size := 2;
     EnhancedIndexer.bloom_m := 64;
     EnhancedIndexer.bloom_k := 3 |}.

(** During a build: block number [b] is pending for [key] in shard [sid]
    and the bloom filter of the shard answers for [key]. *)
Definition recorded `{Digest} (st : EnhancedIndexer.build_state)
    (sid : Z) (key : string) (b : Z) : Prop :=
  ∃ pm blocks bf,
    st.1 !! sid = Some pm ∧ pm !! key = Some blocks ∧ b ∈ blocks
    ∧ st.2 !! sid = Some bf ∧ BloomFilter.contains bf key = Ret true.

(** Every bloom filter of a build has the parameters of the instance. *)
Definition blooms_configured (self : EnhancedIndexer.t)
    (shard_blooms : gmap Z BloomFilter.t) : Prop :=
  ∀ sid bf,
    shard_blooms !! sid = Some bf →
    BloomFilter.m bf = self.(EnhancedIndexer.bloom_m)
    ∧ BloomFilter.k bf = self.(EnhancedIndexer.bloom_k).

(** The store holds the rows of shard [sid] of a build. *)
Definition shard_flushed (st : Store) (shard_blooms : gmap Z BloomFilter.t)
    (sid : Z) (pm : gmap string (list Z)) : Prop :=
  (∃ bf bloom_bytes start_block end_block,
     shard_blooms !! sid = Some bf
     ∧ BloomFilter.to_bytes bf = Ret bloom_bytes
     ∧ shards st !! sid = Some (start_block, end_block, bloom_bytes))
  ∧ ∀ key blocks,
      pm !! key = Some blocks →
      ∃ blob, compress_postings (sorted (elements (set_of blocks))) = Ret blob
              ∧ postings st !! (key, sid) = Some blob.

(** What a bloom filter of a running build satisfies: the parameters of
    the instance, and no bit at or above [bloom_m]. *)
Definition bloom_ok (self : EnhancedIndexer.t) (bf : BloomFilter.t) : Prop :=
  BloomFilter.m bf = self.(EnhancedIndexer.bloom_m)
  ∧ BloomFilter.k bf = self.(EnhancedIndexer.bloom_k)
  ∧ 0 ≤ BloomFilter.bitarr bf < 2 ^ self.(EnhancedIndexer.bloom_m).

(** The build state from which every step returns: a shard with pending
    postings has a bloom filter, and the bloom filters are well formed. *)
Definition build_ok (self : EnhancedIndexer.t) (st : EnhancedIndexer.build_state) : Prop :=
  (∀ sid, is_Some (st.1 !! sid) → is_Some (st.2 !! sid))
  ∧ ∀ sid bf, st.2 !! sid = Some bf → bloom_ok self bf.

(** ** The reference the demo compares [boolean_query] with *)

(** [naive_boolean] of [demo_boolean.py]: whether a block is kept. *)
Definition naive_keep (must_have any_of : list string) (blk : block) : bool :=
  let present : gset string :=
    list_to_set (filter (λ key, key ∈ must_have ∨ key ∈ any_of) (block_keys blk)) in
  if bool_decide (must_have ≠ [])
     && negb (forallb (λ k, bool_decide (k ∈ present)) must_have) then false
  else if bool_decide (any_of ≠ [])
          && negb (existsb (λ k, bool_decide (k ∈ present)) any_of) then false
  else if bool_decide (must_have = []) && bool_decide (any_of = []) then false
  else true.

Definition naive_boolean (chain : list block) (must_have any_of : list string) : list Z :=
  block_number <$> filter (λ blk, naive_keep must_have any_of blk = true) chain.

(** ** The combination of constraints as the specification words it *)

(** [required] is the left-to-right intersection over [must_have],
    [optional] the union over [any_of]; which of them the result is depends
    on which of the two key lists are empty. *)
Definition boolean_query_spec `{Digest} (self : EnhancedIndexer.t) (st : Store)
    (must_have any_of : list string) : outcome (list Z) :=
  lists ← mapM (EnhancedIndexer.postings_for self st) must_have;
  unions ← mapM (EnhancedIndexer.postings_for self st) any_of;
  let required :=
    match lists with
    | cur :: rest => foldl EnhancedIndexer.intersect_sorted cur rest
    | [] => []
    end in
  let optional := foldl EnhancedIndexer.merge_sorted [] unions in
  Ret (match must_have, any_of with
       | [], [] => []
       | _ :: _, [] => required
       | [], _ :: _ => optional
       | _ :: _, _ :: _ => EnhancedIndexer.intersect_sorted required optional
       end).

(** ** Definitions used to state further properties *)

(** The byte has the continuation bit: [byte & 0x80] is not zero. *)
Definition continues (x : byte) : Prop := Z.land (byte_to_Z x) 0x80 ≠ 0.

Global Instance continues_dec (x : byte) : Decision (continues x).
Proof. unfold continues. apply _. Defined.

(** The block numbers of the batch that every key of [must_have] is
    indexed under, and those that some key of [any_of] is indexed under. *)
Definition required_blocks (chain : list block) (must_have : list string) : list Z :=
  match must_have with
  | [] => []
  | k :: rest =>
      filter (λ b, Forall (λ k', b ∈ blocks_with chain k') rest) (blocks_with chain k)
  end.

Definition optional_blocks (chain : list block) (any_of : list string) : list Z :=
  any_of ≫= blocks_with chain.

(** The block numbers [boolean_query] selects, read off its last four
    lines: an empty union over [any_of] is taken for no constraint when
    [must_have] has keys. *)
Definition query_blocks (chain : list block) (must_have any_of : list string) : list Z :=
  match must_have with
  | [] => optional_blocks chain any_of
  | _ :: _ =>
      if decide (optional_blocks chain any_of = []) then required_blocks chain must_have
      else filter (λ b, b ∈ optional_blocks chain any_of) (required_blocks chain must_have)
  end.

(** ** The HTTP endpoint ([fastapi_server.py]) *)

Module FastapiServer.

Record QueryRequest : Type := { must_have : list string; any_of : list string }.

(** The JSON object the handler returns. *)
Record QueryResult : Type := { count : Z; blocks : list Z }.

(** What a call of the handler ends with: the returned object, or the
    [HTTPException] it raises, whose detail is the text of the exception
    caught. *)
Inductive reply : Type :=
  | Body (r : QueryResult)
  | HTTPException (status_code : Z) (detail : exn)
  | NoReply.

Definition INDEX : EnhancedIndexer.t :=
  {| EnhancedIndexer.shard_size := 100;
     EnhancedIndexer.bloom_m := 8192;
     EnhancedIndexer.bloom_k := 6 |}.

(** [query], on the store that [db_path] names. *)
Definition query `{Digest} (db : Store) (req : QueryRequest) : reply :=
  match EnhancedIndexer.boolean_query INDEX db req.(must_have) req.(any_of) with
  | Ret res => Body {| count := Z.of_nat (length res); blocks := take 200 res |}
  | Raise e => HTTPException 500 e
  | Diverge => NoReply
  end.

End FastapiServer.


(** * Properties *)

(** ** The outcome monad *)

Lemma bind_Ret {A B} (f : A → outcome B) (a : A) : (Ret a ≫= f) = f a.
Proof. reflexivity. Qed.

Lemma bind_Ret_inv {A B} (f : A → outcome B) (m : outcome A) (b : B) :
  m ≫= f = Ret b → ∃ a, m = Ret a ∧ f a = Ret b.
Proof. destruct m; simpl; intros; [eauto | discriminate..]. Qed.

Lemma returns_Ret {A} (a : A) : returns (Ret a).
Proof. by exists a. Qed.
#[global] Hint Resolve returns_Ret : core.

Lemma returns_bind {A B} (f : A → outcome B) (m : outcome A) :
  returns m → (∀ a, m = Ret a → returns (f a)) → returns (m ≫= f).
Proof. intros [a ->] Hf. by apply Hf. Qed.

(** Splits a hypothesis [x ← m; k = Ret b] into [m = Ret a] and [k a = Ret b]. *)
Tactic Notation "inv_bind" hyp(H) "as" ident(a) ident(Ha) :=
  apply bind_Ret_inv in H as (a & Ha & H).
Tactic Notation "inv_bind" hyp(H) :=
  let a := fresh "a" in
  let Ha := fresh "Ha" in
  inv_bind H as a Ha.

Lemma foldlM_cons {A B} (f : B → A → outcome B) (b : B) (x : A) (l : list A) :
  foldlM f b (x :: l) = f b x ≫= λ b', foldlM f b' l.
Proof. reflexivity. Qed.

Lemma foldlM_app {A B} (f : B → A → outcome B) (b : B) (l1 l2 : list A) :
  foldlM f b (l1 ++ l2) = foldlM f b l1 ≫= λ b', foldlM f b' l2.
Proof.
  revert b. induction l1 as [|x l1 IH]; intros b; simpl; [done|].
  destruct (f b x); simpl; auto.
Qed.

(** An invariant of the accumulator of a returning fold. *)
Lemma foldlM_ind {A B} (P : B → Prop) (f : B → A → outcome B) (l : list A) :
  (∀ b x b', x ∈ l → P b → f b x = Ret b' → P b') →
  ∀ b b', P b → foldlM f b l = Ret b' → P b'.
Proof.
  induction l as [|x l IH]; intros Hstep b b' Hb Hfold; simpl in Hfold.
  - by simplify_eq.
  - inv_bind Hfold. eapply IH; [|eapply Hstep|]; eauto; [|set_solver].
    intros ??? Hin. apply Hstep. set_solver.
Qed.

(** ** Bytes *)

Lemma byte_to_Z_range (b : byte) : 0 ≤ byte_to_Z b < 256.
Proof. unfold byte_to_Z. pose proof (Byte.to_N_bounded b). lia. Qed.

Lemma byte_to_of_Z (z : Z) : 0 ≤ z < 256 → byte_to_Z (byte_of_Z z) = z.
Proof.
  intros Hz. unfold byte_to_Z, byte_of_Z.
  destruct (Byte.of_N (Z.to_N z)) as [b|] eqn:Hb; simpl.
  - apply Byte.to_of_N in Hb. lia.
  - apply Byte.of_N_None_iff in Hb. lia.
Qed.

Lemma byte_of_to_Z (b : byte) : byte_of_Z (byte_to_Z b) = b.
Proof.
  unfold byte_to_Z, byte_of_Z. by rewrite N2Z.id, Byte.of_to_N.
Qed.

(** ** Bits of the seven-bit groups *)

Lemma testbit_127 (i : Z) : 0 ≤ i → Z.testbit 0x7F i = bool_decide (i < 7).
Proof.
  intros Hi. change 0x7F with (Z.ones 7).
  rewrite Z.testbit_ones_nonneg by lia.
  case_bool_decide; lia.
Qed.

Lemma testbit_128 (i : Z) : 0 ≤ i → Z.testbit 0x80 i = bool_decide (i = 7).
Proof.
  intros Hi. change 0x80 with (2 ^ 7).
  rewrite Z.pow2_bits_eqb by lia.
  case_bool_decide; lia.
Qed.

Ltac bitwise :=
  apply Z.bits_inj'; intros i Hi;
  repeat first
    [ rewrite Z.lor_spec | rewrite Z.land_spec
    | rewrite Z.shiftl_spec by lia | rewrite Z.shiftr_spec by lia
    | rewrite testbit_127 by lia | rewrite testbit_128 by lia
    | rewrite Z.bits_0 ].

Lemma low7_range (n : Z) : 0 ≤ Z.land n 0x7F < 128.
Proof.
  change 0x7F with (Z.ones 7). rewrite Z.land_ones by lia.
  apply Z.mod_pos_bound. lia.
Qed.

Lemma low7_high_bits (t i : Z) : 0 ≤ t < 128 → 7 ≤ i → Z.testbit t i = false.
Proof.
  intros Ht Hi. destruct (decide (t = 0)) as [->|]; [apply Z.bits_0|].
  apply Z.bits_above_log2; [lia|].
  assert (Z.log2 t < 7) by (apply Z.log2_lt_pow2; lia). lia.
Qed.

Ltac low7 t :=
  bitwise;
  repeat case_bool_decide; subst; try lia;
  rewrite ?(low7_high_bits t) by lia;
  try (destruct (Z.testbit t _)); try done.

Lemma low7_continue (t : Z) : 0 ≤ t < 128 → Z.lor t 0x80 = t + 128.
Proof.
  intros Ht. rewrite <- Z.add_nocarry_lor; [lia|]. low7 t.
Qed.

Lemma continue_low7 (t : Z) : 0 ≤ t < 128 → Z.land (Z.lor t 0x80) 0x7F = t.
Proof. intros Ht. low7 t. Qed.

Lemma continue_flag (t : Z) : 0 ≤ t < 128 → Z.land (Z.lor t 0x80) 0x80 = 128.
Proof.
  intros Ht. apply Z.bits_inj'; intros i Hi.
  rewrite Z.land_spec, Z.lor_spec, !testbit_128 by lia.
  case_bool_decide; subst; [by rewrite orb_true_r|by rewrite andb_false_r].
Qed.

Lemma last_low7 (t : Z) : 0 ≤ t < 128 → Z.land t 0x7F = t.
Proof. intros Ht. low7 t. Qed.

Lemma last_flag (t : Z) : 0 ≤ t < 128 → Z.land t 0x80 = 0.
Proof. intros Ht. low7 t. Qed.

(** [n] is its low seven bits below the rest. *)
Lemma split_low7 (n shift : Z) :
  0 ≤ shift →
  Z.lor (Z.shiftl (Z.land n 0x7F) shift) (Z.shiftl (Z.shiftr n 7) (shift + 7))
  = Z.shiftl n shift.
Proof.
  intros Hs. apply Z.bits_inj'; intros i Hi.
  rewrite Z.lor_spec, !Z.shiftl_spec by lia.
  destruct (decide (i < shift)) as [Hlt|Hge].
  - by rewrite !Z.testbit_neg_r by lia.
  - rewrite Z.land_spec, testbit_127 by lia.
    case_bool_decide.
    + rewrite (Z.testbit_neg_r _ (i - (shift + 7))) by lia.
      by rewrite andb_true_r, orb_false_r.
    + rewrite andb_false_r, Z.shiftr_spec by lia. simpl. f_equal. lia.
Qed.


(** ** VarintCodec *)

Lemma varint_encode_loop_S (fuel : nat) (n : Z) :
  varint_encode_loop (S fuel) n =
    if negb (Z.shiftr n 7 =? 0) then
      rest ← varint_encode_loop fuel (Z.shiftr n 7);
      Ret (byte_of_Z (Z.lor (Z.land n 0x7F) 0x80) :: rest)
    else Ret [byte_of_Z (Z.land n 0x7F)].
Proof. reflexivity. Qed.

Lemma varint_decode_from_cons (x : byte) (b : list byte) (mid : bool) (shift val : Z) :
  varint_decode_from (x :: b) mid shift val =
    let val' := Z.lor val (Z.shiftl (Z.land (byte_to_Z x) 0x7F) shift) in
    if negb (Z.land (byte_to_Z x) 0x80 =? 0) then
      varint_decode_from b true (shift + 7) val'
    else
      let '(vals, e) := varint_decode_from b false 0 0 in (val' :: vals, e).
Proof. reflexivity. Qed.

(** Each iteration replaces a positive [n] by the smaller [n >> 7]. *)
Lemma shiftr7_decreases (n : Z) : 0 < n → 0 ≤ Z.shiftr n 7 < n.
Proof.
  intros Hn. rewrite Z.shiftr_div_pow2 by lia. split.
  - apply Z.div_pos; lia.
  - apply Z.div_lt; lia.
Qed.

Lemma log2_shiftr7 (n : Z) :
  0 ≤ n → Z.shiftr n 7 ≠ 0 → Z.log2 (Z.shiftr n 7) < Z.log2 n.
Proof.
  intros Hn Hne.
  assert (128 ≤ n) as Hbig.
  { destruct (decide (n < 128)) as [Hlt|]; [|lia]. exfalso. apply Hne.
    rewrite Z.shiftr_div_pow2 by lia. apply Z.div_small. change (2 ^ 7) with 128. lia. }
  assert (7 ≤ Z.log2 n) by (apply Z.log2_le_pow2; [lia|]; change (2 ^ 7) with 128; lia).
  rewrite Z.log2_shiftr by lia. lia.
Qed.

(** On a negative [n] the loop never reaches [n = 0]. *)
Lemma varint_encode_loop_negative (fuel : nat) (n : Z) :
  n < 0 → varint_encode_loop fuel n = Diverge.
Proof.
  revert n. induction fuel as [|fuel IH]; intros n Hn; [done|].
  rewrite varint_encode_loop_S.
  assert (Z.shiftr n 7 < 0) as Hs by (apply Z.shiftr_neg; lia).
  destruct (Z.eqb_spec (Z.shiftr n 7) 0) as [|_]; [lia|].
  simpl. by rewrite IH.
Qed.

Lemma varint_encode_loop_returns (fuel : nat) (n : Z) :
  0 ≤ n → (Z.to_nat (Z.log2 n) < fuel)%nat → returns (varint_encode_loop fuel n).
Proof.
  revert n. induction fuel as [|fuel IH]; intros n Hn Hfuel; [lia|].
  rewrite varint_encode_loop_S.
  destruct (Z.eqb_spec (Z.shiftr n 7) 0) as [|Hne]; simpl; [done|].
  apply returns_bind; [|done].
  apply IH.
  - apply Z.shiftr_nonneg. lia.
  - pose proof (log2_shiftr7 n Hn Hne). pose proof (Z.log2_nonneg (Z.shiftr n 7)). lia.
Qed.

(** More fuel does not change a result. *)
Lemma varint_encode_loop_fuel (fuel fuel' : nat) (n : Z) (bs : list byte) :
  varint_encode_loop fuel n = Ret bs → (fuel ≤ fuel')%nat →
  varint_encode_loop fuel' n = Ret bs.
Proof.
  revert fuel' n bs. induction fuel as [|fuel IH]; intros fuel' n bs Hrun Hle; [done|].
  destruct fuel' as [|fuel']; [lia|].
  rewrite varint_encode_loop_S in *.
  destruct (negb (Z.shiftr n 7 =? 0)); [|done].
  inv_bind Hrun. erewrite IH; [done..|lia].
Qed.

Lemma varint_encode_returns (n : Z) : 0 ≤ n → returns (varint_encode n).
Proof. intros Hn. apply varint_encode_loop_returns; [done|]. unfold varint_fuel. lia. Qed.

Lemma varint_encode_negative (n : Z) : n < 0 → varint_encode n = Diverge.
Proof. apply varint_encode_loop_negative. Qed.

(** Decoding what the loop wrote for [n], from inside a value whose low
    [shift] bits are [val]. *)
Lemma varint_decode_encode_loop (fuel : nat) (n : Z) (bs : list byte) :
  0 ≤ n → varint_encode_loop fuel n = Ret bs →
  ∀ (rest : list byte) (mid : bool) (shift val : Z), 0 ≤ shift →
    varint_decode_from (bs ++ rest) mid shift val =
      let '(vals, e) := varint_decode_stream rest in
      (Z.lor val (Z.shiftl n shift) :: vals, e).
Proof.
  revert n bs. induction fuel as [|fuel IH]; intros n bs Hn Hrun rest mid shift val Hs; [done|].
  rewrite varint_encode_loop_S in Hrun.
  pose proof (low7_range n) as Hlow.
  pose proof (split_low7 n shift Hs) as Hsplit.
  destruct (Z.eqb_spec (Z.shiftr n 7) 0) as [Hz|Hne]; simpl in Hrun.
  - simplify_eq. simpl app. rewrite varint_decode_from_cons.
    rewrite byte_to_of_Z by lia. rewrite last_flag, last_low7 by done. simpl.
    rewrite Hz, Z.shiftl_0_l, Z.lor_0_r in Hsplit. by rewrite Hsplit.
  - inv_bind Hrun. simplify_eq. simpl app. rewrite varint_decode_from_cons.
    rewrite byte_to_of_Z by (rewrite low7_continue by done; lia).
    rewrite continue_flag, continue_low7 by done. simpl.
    rewrite (IH _ _ (proj2 (Z.shiftr_nonneg n 7) Hn) Ha) by lia.
    by rewrite <- Z.lor_assoc, Hsplit.
Qed.

Lemma varint_decode_encode_app (n : Z) (bs rest : list byte) :
  0 ≤ n → varint_encode n = Ret bs →
  varint_decode_stream (bs ++ rest) =
    let '(vals, e) := varint_decode_stream rest in (n :: vals, e).
Proof.
  intros Hn Hrun. unfold varint_decode_stream at 1.
  rewrite (varint_decode_encode_loop _ _ _ Hn Hrun) by done.
  by rewrite Z.shiftl_0_r, Z.lor_0_l.
Qed.

Lemma varint_decode_encode_stream (ns : list Z) :
  Forall (λ n, 0 ≤ n) ns →
  ∃ bss, mapM varint_encode ns = Ret bss
         ∧ varint_decode_stream (concat bss) = (ns, StopIteration).
Proof.
  induction 1 as [|n ns Hn _ (bss & Hbss & Hdec)]; [by exists []|].
  destruct (varint_encode_returns n Hn) as [bs Hbs].
  exists (bs :: bss). split.
  - simpl. rewrite Hbs. simpl. by rewrite Hbss.
  - simpl. by rewrite (varint_decode_encode_app _ _ _ Hn Hbs), Hdec.
Qed.

(** A buffer whose last byte has the continuation bit: the generator ends
    in [IndexError], from whichever program point it is entered. *)
Lemma varint_decode_from_truncated (b : list byte) (x : byte) :
  last b = Some x → Z.land (byte_to_Z x) 0x80 ≠ 0 →
  ∀ (mid : bool) (shift val : Z),
    (varint_decode_from b mid shift val).2 = GenRaise IndexError.
Proof.
  intros Hlast Hx. induction b as [|y b IH]; intros mid shift val; [done|].
  rewrite varint_decode_from_cons.
  destruct b as [|z b].
  - simpl in Hlast. simplify_eq.
    destruct (Z.eqb_spec (Z.land (byte_to_Z x) 0x80) 0); [done|]. done.
  - specialize (IH Hlast).
    destruct (negb _); [apply IH|].
    specialize (IH false 0 0).
    destruct (varint_decode_from (z :: b) false 0 0). done.
Qed.

(** ** PostingsCodec *)

Lemma compress_loop_deltas (prev : Z) (l : list Z) :
  compress_loop prev l = bss ← mapM varint_encode (deltas prev l); Ret (concat bss).
Proof.
  revert prev. induction l as [|b l IH]; intros prev; [done|].
  simpl. destruct (varint_encode (b - prev)); simpl; [|done..].
  rewrite IH. destruct (mapM varint_encode (deltas b l)); done.
Qed.

Lemma compress_postings_deltas (l : list Z) :
  compress_postings l = bss ← mapM varint_encode (deltas 0 l); Ret (concat bss).
Proof. destruct l; [done|]. apply compress_loop_deltas. Qed.

Lemma running_sum_deltas (prev : Z) (l : list Z) : running_sum prev (deltas prev l) = l.
Proof.
  revert prev. induction l as [|b l IH]; intros prev; [done|].
  simpl. replace (prev + (b - prev)) with b by lia. by rewrite IH.
Qed.

Lemma deltas_nonneg (prev : Z) (l : list Z) :
  Sorted Z.le (prev :: l) → Forall (λ d, 0 ≤ d) (deltas prev l).
Proof.
  revert prev. induction l as [|b l IH]; intros prev Hs; [constructor|].
  apply Sorted_inv in Hs as [Hs Hhd]. apply HdRel_inv in Hhd.
  simpl. constructor; [lia|]. by apply IH.
Qed.

Lemma Sorted_le_from_0 (l : list Z) :
  Sorted Z.le l → Forall (λ b, 0 ≤ b) l → Sorted Z.le (0 :: l).
Proof.
  intros Hs Hpos. constructor; [done|].
  destruct Hpos; constructor. done.
Qed.

Lemma compress_postings_returns (l : list Z) :
  Sorted Z.le l → Forall (λ b, 0 ≤ b) l → returns (compress_postings l).
Proof.
  intros Hs Hpos. rewrite compress_postings_deltas.
  destruct (varint_decode_encode_stream (deltas 0 l)) as (bss & -> & _).
  { by apply deltas_nonneg, Sorted_le_from_0. }
  simpl. done.
Qed.

Lemma decompress_compress (l : list Z) (bs : list byte) :
  Sorted Z.le l → Forall (λ b, 0 ≤ b) l →
  compress_postings l = Ret bs → decompress_postings bs = Ret l.
Proof.
  intros Hs Hpos. rewrite compress_postings_deltas.
  destruct (varint_decode_encode_stream (deltas 0 l)) as (bss & -> & Hdec).
  { by apply deltas_nonneg, Sorted_le_from_0. }
  simpl. intros [= <-]. unfold decompress_postings.
  by rewrite Hdec, running_sum_deltas.
Qed.

(** A returning [compress_postings] was given non-negative block numbers
    when they ascend: a negative first delta would not return. *)
Lemma compress_postings_Ret_nonneg (l : list Z) (bs : list byte) :
  Sorted Z.le l → compress_postings l = Ret bs → Forall (λ b, 0 ≤ b) l.
Proof.
  intros Hs Hrun. destruct l as [|b l]; [constructor|].
  assert (0 ≤ b) as Hb.
  { destruct (decide (0 ≤ b)) as [|Hneg]; [done|]. exfalso.
    simpl in Hrun. rewrite Z.sub_0_r, varint_encode_negative in Hrun by lia. done. }
  apply Sorted_StronglySorted in Hs; [|apply _].
  apply StronglySorted_inv in Hs as [_ Hall].
  constructor; [done|]. eapply Forall_impl; [done|]. simpl. lia.
Qed.


(** ** BloomFilter *)

Section Bloom.
Context `{Digest}.

Lemma py_lshift_Ret (a n r : Z) : py_lshift a n = Ret r → 0 ≤ n ∧ r = Z.shiftl a n.
Proof. unfold py_lshift. destruct (Z.ltb_spec n 0); intros; simplify_eq. done. Qed.

Lemma py_rshift_nonneg (a n : Z) : 0 ≤ n → py_rshift a n = Ret (Z.shiftr a n).
Proof. intros Hn. unfold py_rshift. destruct (Z.ltb_spec n 0); [lia|done]. Qed.

(** [(bitarr >> pos) & 1] reads bit [pos]. *)
Lemma bit_test (bitarr pos : Z) :
  0 ≤ pos → Z.land (Z.shiftr bitarr pos) 1 = Z.b2z (Z.testbit bitarr pos).
Proof.
  intros Hpos. change 1 with (Z.ones 1). rewrite Z.land_ones by lia.
  rewrite <- Z.bit0_mod, Z.shiftr_spec by lia. by rewrite Z.add_0_l.
Qed.

Lemma bit_set (bitarr pos q : Z) :
  0 ≤ pos →
  Z.testbit (Z.lor bitarr (Z.shiftl 1 pos)) q = Z.testbit bitarr q || bool_decide (q = pos).
Proof.
  intros Hpos. rewrite Z.lor_spec. f_equal.
  rewrite Z.shiftl_1_l, Z.pow2_bits_eqb by done.
  case_bool_decide; subst; [by rewrite Z.eqb_refl|]. apply Z.eqb_neq. lia.
Qed.

(** [add] only sets bits, and it sets those of every round. *)
Lemma add_loop_Ret (hashes : list (outcome Z)) (bitarr bitarr' : Z) :
  BloomFilter.add_loop bitarr hashes = Ret bitarr' →
  (∀ q, Z.testbit bitarr q = true → Z.testbit bitarr' q = true)
  ∧ Forall (λ p, ∃ pos, p = Ret pos ∧ 0 ≤ pos ∧ Z.testbit bitarr' pos = true) hashes.
Proof.
  unfold BloomFilter.add_loop. revert bitarr.
  induction hashes as [|p hashes IH]; intros bitarr Hrun; simpl in Hrun.
  - by simplify_eq.
  - inv_bind Hrun as bitarr1 Hstep. inv_bind Hstep as pos Hp.
    inv_bind Hstep as bit Hbit. simplify_eq.
    apply py_lshift_Ret in Hbit as [Hpos ->].
    destruct (IH _ Hrun) as [Hmono Hset]. split.
    + intros q Hq. apply Hmono. rewrite bit_set by done. by rewrite Hq.
    + constructor; [|done]. exists pos. split_and!; [done..|].
      apply Hmono. rewrite bit_set by done. rewrite bool_decide_eq_true_2 by done.
      apply orb_true_r.
Qed.

Lemma contains_loop_set (bitarr : Z) (hashes : list (outcome Z)) :
  Forall (λ p, ∃ pos, p = Ret pos ∧ 0 ≤ pos ∧ Z.testbit bitarr pos = true) hashes →
  BloomFilter.contains_loop bitarr hashes = Ret true.
Proof.
  induction 1 as [|p hashes (pos & -> & Hpos & Hbit) _ IH]; [done|].
  simpl. rewrite py_rshift_nonneg by done. simpl.
  by rewrite bit_test, Hbit.
Qed.

(** The rounds depend on the filter through [m] and [k] only. *)
Lemma hashes_same_params (self self' : BloomFilter.t) (key : list byte) :
  BloomFilter.m self' = BloomFilter.m self →
  BloomFilter.k self' = BloomFilter.k self →
  BloomFilter._hashes self' key = BloomFilter._hashes self key.
Proof.
  intros Hm Hk. unfold BloomFilter._hashes, BloomFilter.hash_round.
  by rewrite Hm, Hk.
Qed.

Lemma add_Ret (self self' : BloomFilter.t) (key : string) :
  BloomFilter.add self key = Ret self' →
  BloomFilter.m self' = BloomFilter.m self
  ∧ BloomFilter.k self' = BloomFilter.k self
  ∧ (∀ q, Z.testbit (BloomFilter.bitarr self) q = true →
          Z.testbit (BloomFilter.bitarr self') q = true)
  ∧ BloomFilter.contains self' key = Ret true.
Proof.
  unfold BloomFilter.add, BloomFilter.contains. intros Hrun.
  inv_bind Hrun. simplify_eq. simpl.
  apply add_loop_Ret in Ha as [Hmono Hset]. split_and!; [done..|].
  rewrite (hashes_same_params self) by done. by apply contains_loop_set.
Qed.

(** Membership is kept by whatever sets more bits. *)
Lemma contains_loop_mono (bitarr bitarr' : Z) (hashes : list (outcome Z)) :
  (∀ q, Z.testbit bitarr q = true → Z.testbit bitarr' q = true) →
  BloomFilter.contains_loop bitarr hashes = Ret true →
  BloomFilter.contains_loop bitarr' hashes = Ret true.
Proof.
  intros Hmono. induction hashes as [|p hashes IH]; [done|].
  simpl. intros Hrun. inv_bind Hrun. inv_bind Hrun. subst p. simpl.
  unfold py_rshift in *. destruct (Z.ltb_spec a 0); [done|]. simplify_eq. simpl.
  rewrite bit_test in * by done.
  destruct (Z.testbit bitarr a) eqn:Hbit; [|done].
  rewrite (Hmono _ Hbit). simpl in *. auto.
Qed.

Lemma add_keeps_contains (self self' : BloomFilter.t) (key key' : string) :
  BloomFilter.add self key' = Ret self' →
  BloomFilter.contains self key = Ret true →
  BloomFilter.contains self' key = Ret true.
Proof.
  intros Hadd Hin. apply add_Ret in Hadd as (Hm & Hk & Hmono & _).
  unfold BloomFilter.contains in *.
  rewrite (hashes_same_params self) by done.
  by eapply contains_loop_mono.
Qed.

Lemma add_all_contains (keys : list string) (self self' : BloomFilter.t) (key : string) :
  foldlM BloomFilter.add self keys = Ret self' →
  key ∈ keys ∨ BloomFilter.contains self key = Ret true →
  BloomFilter.contains self' key = Ret true.
Proof.
  revert self. induction keys as [|key' keys IH]; intros self Hrun Hin; simpl in Hrun.
  - simplify_eq. destruct Hin as [Hin|]; [|done]. by apply elem_of_nil in Hin.
  - inv_bind Hrun as self1 Hadd. apply (IH _ Hrun).
    destruct Hin as [[->|Hin]%elem_of_cons|Hin].
    + right. by apply add_Ret in Hadd as (_ & _ & _ & ?).
    + by left.
    + right. by apply (add_keeps_contains self _ _ key').
Qed.

End Bloom.


(** ** Sorted lists of integers *)

Lemma sorted_Sorted (l : list Z) : Sorted Z.le (sorted l).
Proof. apply (Sorted_merge_sort Z.le). Qed.

Lemma sorted_Permutation (l : list Z) : sorted l ≡ₚ l.
Proof. apply (merge_sort_Permutation Z.le). Qed.

Lemma sorted_elem_of (l : list Z) (x : Z) : x ∈ sorted l ↔ x ∈ l.
Proof. by rewrite sorted_Permutation. Qed.

Lemma sorted_Permutation_eq (l l' : list Z) : l ≡ₚ l' → sorted l = sorted l'.
Proof.
  intros Hperm. apply (Sorted_unique Z.le); [apply sorted_Sorted..|].
  by rewrite !sorted_Permutation.
Qed.

Lemma sorted_id (l : list Z) : Sorted Z.le l → sorted l = l.
Proof.
  intros Hs. apply (Sorted_unique Z.le); [apply sorted_Sorted|done|].
  apply sorted_Permutation.
Qed.

Lemma sorted_NoDup (l : list Z) : NoDup l → NoDup (sorted l).
Proof. by rewrite sorted_Permutation. Qed.

(** Strictly ascending is ascending without duplicates. *)
Lemma StronglySorted_lt_le_NoDup (l : list Z) :
  StronglySorted Z.lt l ↔ Sorted Z.le l ∧ NoDup l.
Proof.
  split.
  - induction 1 as [|x l _ [IHs IHn] Hall]; [split; constructor|]. split.
    + constructor; [done|]. destruct Hall; constructor. lia.
    + constructor; [|done]. intros Hin.
      rewrite Forall_forall in Hall. specialize (Hall _ Hin). lia.
  - intros [Hs Hn]. apply Sorted_StronglySorted in Hs; [|apply _].
    induction Hs as [|x l _ IH Hall]; [constructor|].
    apply NoDup_cons in Hn as [Hx Hn]. constructor; [by apply IH|].
    rewrite Forall_forall in *. intros y Hy. specialize (Hall _ Hy).
    assert (x ≠ y) by (by intros ->). lia.
Qed.

(** A strictly ascending list is determined by its elements. *)
Lemma StronglySorted_lt_ext (l l' : list Z) :
  StronglySorted Z.lt l → StronglySorted Z.lt l' → (∀ x, x ∈ l ↔ x ∈ l') → l = l'.
Proof.
  intros [Hs Hn]%StronglySorted_lt_le_NoDup [Hs' Hn']%StronglySorted_lt_le_NoDup Hext.
  apply (Sorted_unique Z.le); [done..|]. by apply NoDup_Permutation.
Qed.

(** [sorted(s)] of a set. *)
Lemma sorted_elements_StronglySorted (s : gset Z) :
  StronglySorted Z.lt (sorted (elements s)).
Proof.
  apply StronglySorted_lt_le_NoDup. split; [apply sorted_Sorted|].
  apply sorted_NoDup, NoDup_elements.
Qed.

Lemma sorted_elements_elem_of (s : gset Z) (x : Z) : x ∈ sorted (elements s) ↔ x ∈ s.
Proof. by rewrite sorted_elem_of, elem_of_elements. Qed.

(** ** The two-pointer loops *)

Import EnhancedIndexer.

Lemma intersect_sorted_nil_r (a : list Z) : intersect_sorted a [] = [].
Proof. by destruct a. Qed.

Lemma intersect_sorted_cons (x y : Z) (a b : list Z) :
  intersect_sorted (x :: a) (y :: b) =
    if x =? y then x :: intersect_sorted a b
    else if x <? y then intersect_sorted a (y :: b)
    else intersect_sorted (x :: a) b.
Proof. reflexivity. Qed.

Lemma merge_loop_nil_r (a : list Z) : merge_loop a [] = a.
Proof. by destruct a. Qed.

Lemma merge_loop_cons (x y : Z) (a b : list Z) :
  merge_loop (x :: a) (y :: b) =
    if x =? y then x :: merge_loop a b
    else if x <? y then x :: merge_loop a (y :: b)
    else y :: merge_loop (x :: a) b.
Proof. reflexivity. Qed.

Lemma intersect_sorted_elem_of (a b : list Z) (z : Z) :
  StronglySorted Z.lt a → StronglySorted Z.lt b →
  z ∈ intersect_sorted a b ↔ z ∈ a ∧ z ∈ b.
Proof.
  intros Ha. revert b. induction Ha as [|x a Ha IHa Hxa]; intros b Hb.
  { destruct b; simpl; rewrite !elem_of_nil; tauto. }
  induction Hb as [|y b Hb IHb Hyb].
  { rewrite intersect_sorted_nil_r, !elem_of_nil. tauto. }
  rewrite intersect_sorted_cons.
  rewrite Forall_forall in Hxa, Hyb.
  destruct (Z.eqb_spec x y) as [->|Hne]; [|destruct (Z.ltb_spec x y) as [Hlt|Hge]].
  - rewrite !elem_of_cons, IHa by done. tauto.
  - rewrite IHa by (by constructor; [|apply Forall_forall]).
    rewrite !elem_of_cons. split; [tauto|].
    intros [[->|Hza] [->|Hzb]]; try lia; auto.
    specialize (Hyb _ Hzb). lia.
  - rewrite IHb. rewrite !elem_of_cons. split; [tauto|].
    intros [[->|Hza] [->|Hzb]]; try lia; auto.
    specialize (Hxa _ Hza). lia.
Qed.

Lemma intersect_sorted_StronglySorted (a b : list Z) :
  StronglySorted Z.lt a → StronglySorted Z.lt b →
  StronglySorted Z.lt (intersect_sorted a b).
Proof.
  intros Ha. revert b. induction Ha as [|x a Ha IHa Hxa]; intros b Hb.
  { destruct b; constructor. }
  induction Hb as [|y b Hb IHb Hyb].
  { rewrite intersect_sorted_nil_r. constructor. }
  rewrite intersect_sorted_cons.
  destruct (x =? y); [|destruct (x <? y)].
  - constructor; [by apply IHa|].
    rewrite Forall_forall in *. intros z Hz.
    apply intersect_sorted_elem_of in Hz as [Hz _]; auto.
  - apply IHa. by constructor.
  - apply IHb.
Qed.

Lemma merge_loop_elem_of (a b : list Z) (z : Z) :
  z ∈ merge_loop a b ↔ z ∈ a ∨ z ∈ b.
Proof.
  revert b. induction a as [|x a IHa]; intros b.
  { destruct b; simpl; rewrite !elem_of_nil; tauto. }
  induction b as [|y b IHb].
  { rewrite merge_loop_nil_r, !elem_of_nil. tauto. }
  rewrite merge_loop_cons.
  destruct (Z.eqb_spec x y) as [->|Hne]; [|destruct (x <? y)].
  - rewrite !elem_of_cons, IHa. tauto.
  - rewrite elem_of_cons, IHa, !elem_of_cons. tauto.
  - rewrite elem_of_cons, IHb, !elem_of_cons. tauto.
Qed.

Lemma merge_loop_StronglySorted (a b : list Z) :
  StronglySorted Z.lt a → StronglySorted Z.lt b →
  StronglySorted Z.lt (merge_loop a b).
Proof.
  intros Ha. revert b. induction Ha as [|x a Ha IHa Hxa]; intros b Hb.
  { by destruct b. }
  induction Hb as [|y b Hb IHb Hyb].
  { rewrite merge_loop_nil_r. by constructor. }
  rewrite merge_loop_cons.
  rewrite Forall_forall in Hxa, Hyb.
  destruct (Z.eqb_spec x y) as [->|Hne]; [|destruct (Z.ltb_spec x y) as [Hlt|Hge]].
  - constructor; [by apply IHa|].
    apply Forall_forall. intros z [Hz|Hz]%merge_loop_elem_of; auto.
  - constructor; [apply IHa; by constructor; [|apply Forall_forall]|].
    apply Forall_forall. intros z [Hz|[->|Hz]%elem_of_cons]%merge_loop_elem_of; auto.
    specialize (Hyb _ Hz). lia.
  - constructor; [apply IHb|].
    apply Forall_forall. intros z [[->|Hz]%elem_of_cons|Hz]%merge_loop_elem_of; auto.
    + lia.
    + specialize (Hxa _ Hz). lia.
Qed.

(** On a strictly ascending list the final pass of [merge_sorted] drops
    nothing. *)
Lemma drop_repeats_StronglySorted (prev : option Z) (l : list Z) :
  StronglySorted Z.lt l → (∀ p, prev = Some p → Forall (Z.lt p) l) →
  drop_repeats prev l = l.
Proof.
  intros Hl. revert prev. induction Hl as [|x l Hl IH Hx]; intros prev Hprev; [done|].
  simpl. case_decide as Heq.
  - subst prev. specialize (Hprev x eq_refl). apply Forall_cons in Hprev as [? _]. lia.
  - f_equal. apply IH. by intros p [= <-].
Qed.

Lemma merge_sorted_merge_loop (a b : list Z) :
  StronglySorted Z.lt a → StronglySorted Z.lt b →
  merge_sorted a b = merge_loop a b.
Proof.
  intros Ha Hb. apply drop_repeats_StronglySorted; [|done].
  by apply merge_loop_StronglySorted.
Qed.

Lemma merge_sorted_StronglySorted (a b : list Z) :
  StronglySorted Z.lt a → StronglySorted Z.lt b →
  StronglySorted Z.lt (merge_sorted a b).
Proof.
  intros Ha Hb. rewrite merge_sorted_merge_loop by done.
  by apply merge_loop_StronglySorted.
Qed.

Lemma intersect_sorted_spec (a b : list Z) :
  StronglySorted Z.lt a → StronglySorted Z.lt b →
  intersect_sorted a b = sorted (elements (set_of a ∩ set_of b)).
Proof.
  intros Ha Hb. apply StronglySorted_lt_ext.
  - by apply intersect_sorted_StronglySorted.
  - apply sorted_elements_StronglySorted.
  - intros x. rewrite intersect_sorted_elem_of, sorted_elements_elem_of by done.
    unfold set_of. set_solver.
Qed.

Lemma merge_sorted_spec (a b : list Z) :
  StronglySorted Z.lt a → StronglySorted Z.lt b →
  merge_sorted a b = sorted (elements (set_of a ∪ set_of b)).
Proof.
  intros Ha Hb. rewrite merge_sorted_merge_loop by done. apply StronglySorted_lt_ext.
  - by apply merge_loop_StronglySorted.
  - apply sorted_elements_StronglySorted.
  - intros x. rewrite merge_loop_elem_of, sorted_elements_elem_of.
    unfold set_of. set_solver.
Qed.


(** ** The two loops of [postings_for] *)

Section PostingsFor.
Context `{Digest}.
Variable self : EnhancedIndexer.t.
Variable key : string.

Lemma candidates_fold (rows : list (Z * list byte)) (acc cands : list Z) :
  foldlM (λ candidates row,
            let '(shard_id, bloom_blob) := row in
            let bf := BloomFilter.from_bytes bloom_blob self.(bloom_m) self.(bloom_k) in
            c ← BloomFilter.contains bf key;
            Ret (if c : bool then candidates ++ [shard_id] else candidates))
         acc rows = Ret cands
  ↔ Forall (λ row, returns (row_test self key row)) rows
    ∧ cands = acc ++ (filter (is_candidate self key) rows).*1.
Proof.
  revert acc. induction rows as [|[sid blob] rows IH]; intros acc; simpl.
  - rewrite app_nil_r. split; [intros [= ->]; by split|by intros [_ ->]].
  - rewrite Forall_cons, filter_cons.
    assert (row_test self key (sid, blob) =
            BloomFilter.contains
              (BloomFilter.from_bytes blob self.(bloom_m) self.(bloom_k)) key) as Htest
      by done.
    destruct (BloomFilter.contains _ key) as [[]| |]; simpl.
    + rewrite IH, decide_True by exact Htest. simpl. rewrite <- app_assoc. simpl.
      rewrite Htest. split; [intros [??]; split_and!; eauto|intros [[??]?]; done].
    + rewrite IH, decide_False by (unfold is_candidate; by rewrite Htest).
      rewrite Htest. split; [intros [??]; split_and!; eauto|intros [[??]?]; done].
    + rewrite Htest. split; [done|]. intros [[[? [=]] _] _].
    + rewrite Htest. split; [done|]. intros [[[? [=]] _] _].
Qed.

Lemma candidates_of_Ret (rows : list (Z * list byte)) (cands : list Z) :
  candidates_of self key rows = Ret cands
  ↔ Forall (λ row, returns (row_test self key row)) rows
    ∧ cands = (filter (is_candidate self key) rows).*1.
Proof. apply candidates_fold. Qed.

Lemma fetch_fold (table : gmap (string * Z) (list byte)) (cands : list Z) (acc res : list Z) :
  foldlM (λ res sid,
            match table !! (key, sid) with
            | Some r => l ← decompress_postings r; Ret (res ++ l)
            | None => Ret res
            end)
         acc cands = Ret res
  ↔ Forall (λ sid, returns (shard_fetch table key sid)) cands
    ∧ res = acc ++ (cands ≫= λ sid, returned (shard_fetch table key sid)).
Proof.
  revert acc. induction cands as [|sid cands IH]; intros acc; simpl.
  - rewrite app_nil_r. split; [intros [= ->]; by split|by intros [_ ->]].
  - rewrite Forall_cons.
    assert (shard_fetch table key sid =
            match table !! (key, sid) with
            | Some r => decompress_postings r
            | None => Ret []
            end) as Hfetch by done.
    destruct (table !! (key, sid)) as [r|]; simpl.
    + destruct (decompress_postings r) as [l| |]; simpl; rewrite Hfetch; simpl.
      * rewrite IH, app_assoc.
        split; [intros [??]; split_and!; eauto|intros [[??]?]; done].
      * split; [done|]. intros [[[? [=]] _] _].
      * split; [done|]. intros [[[? [=]] _] _].
    + rewrite IH, Hfetch. simpl.
      split; [intros [??]; split_and!; eauto|intros [[??]?]; done].
Qed.

Lemma fetch_postings_Ret (table : gmap (string * Z) (list byte)) (cands res : list Z) :
  fetch_postings table key cands = Ret res
  ↔ Forall (λ sid, returns (shard_fetch table key sid)) cands
    ∧ res = cands ≫= λ sid, returned (shard_fetch table key sid).
Proof. apply fetch_fold. Qed.

Lemma postings_for_rows_Ret (rows : list (Z * list byte))
    (table : gmap (string * Z) (list byte)) (l : list Z) :
  postings_for_rows self rows table key = Ret l
  ↔ Forall (λ row, returns (row_test self key row)) rows
    ∧ Forall (λ sid, returns (shard_fetch table key sid))
             (filter (is_candidate self key) rows).*1
    ∧ l = sorted ((filter (is_candidate self key) rows).*1
                    ≫= λ sid, returned (shard_fetch table key sid)).
Proof.
  unfold postings_for_rows. split.
  - intros Hrun. inv_bind Hrun as cands Hcands. inv_bind Hrun as res Hres.
    apply candidates_of_Ret in Hcands as [? ->].
    apply fetch_postings_Ret in Hres as [? ->]. by simplify_eq.
  - intros (Hrows & Hfetch & ->).
    rewrite (proj2 (candidates_of_Ret rows _) (conj Hrows eq_refl)). simpl.
    by rewrite (proj2 (fetch_postings_Ret table _ _) (conj Hfetch eq_refl)).
Qed.

Lemma postings_for_rows_Permutation (rows rows' : list (Z * list byte))
    (table : gmap (string * Z) (list byte)) (l : list Z) :
  rows ≡ₚ rows' →
  postings_for_rows self rows table key = Ret l →
  postings_for_rows self rows' table key = Ret l.
Proof.
  intros Hperm. rewrite !postings_for_rows_Ret. intros (Hrows & Hfetch & ->).
  split_and!.
  - by rewrite <- Hperm.
  - by rewrite <- Hperm.
  - apply sorted_Permutation_eq. by rewrite Hperm.
Qed.

End PostingsFor.


(** ** The batch *)

Lemma elem_of_block_keys (blk : block) (key : string) :
  key ∈ block_keys blk ↔ ∃ t, t ∈ blk.(transactions) ∧ key ∈ tx_keys t.
Proof.
  unfold block_keys. rewrite list_elem_of_bind.
  split; intros (t & ? & ?); by exists t.
Qed.

Lemma elem_of_blocks_with (chain : list block) (key : string) (b : Z) :
  b ∈ blocks_with chain key
  ↔ ∃ blk, blk ∈ chain ∧ blk.(block_number) = b ∧ key ∈ block_keys blk.
Proof.
  unfold blocks_with. rewrite list_elem_of_fmap. split.
  - intros (blk & -> & [? ?]%list_elem_of_filter). by exists blk.
  - intros (blk & ? & <- & ?). exists blk. by rewrite list_elem_of_filter.
Qed.

(** ** [build_index]: what is written is sound *)

Section BuildSound.
Context `{Digest}.
Variable self : EnhancedIndexer.t.
Variable chain : list block.

Lemma index_key_sound (sid blknum : Z) (st st' : build_state) (key : string) :
  postings_sound self chain st.1 →
  blknum `div` self.(shard_size) = sid → blknum ∈ blocks_with chain key →
  index_key sid blknum st key = Ret st' →
  postings_sound self chain st'.1.
Proof.
  destruct st as [sp sb]. simpl. intros Hinv Hsid Hocc Hrun.
  unfold index_key in Hrun. destruct (sb !! sid) as [bf|]; [|done].
  inv_bind Hrun as bf' Hadd. simplify_eq. simpl.
  intros sid' pm' key' blocks' Hpm' Hblocks'.
  destruct (decide (sid' = blknum `div` shard_size self)) as [->|Hne].
  - rewrite lookup_insert_eq in Hpm'. simplify_eq.
    destruct (decide (key' = key)) as [->|Hkey].
    + rewrite lookup_insert_eq in Hblocks'. simplify_eq.
      split; [by destruct (default [] _)|].
      apply Forall_app. split; [|by repeat constructor].
      destruct (sp !! (blknum `div` shard_size self)) as [pm|] eqn:Hpm; simpl; [|done].
      destruct (pm !! key) as [blocks|] eqn:Hblocks; simpl; [|done].
      by apply (Hinv _ _ _ _ Hpm Hblocks).
    + rewrite lookup_insert_ne in Hblocks' by done.
      destruct (sp !! (blknum `div` shard_size self)) as [pm|] eqn:Hpm; simpl in *.
      * by apply (Hinv _ _ _ _ Hpm Hblocks').
      * by rewrite lookup_empty in Hblocks'.
  - rewrite lookup_insert_ne in Hpm' by done. by apply (Hinv _ _ _ _ Hpm' Hblocks').
Qed.

Lemma index_block_sound (st st' : build_state) (blk : block) :
  blk ∈ chain → postings_sound self chain st.1 →
  index_block self st blk = Ret st' →
  postings_sound self chain st'.1.
Proof.
  destruct st as [sp sb]. simpl. intros Hblk Hinv Hrun.
  unfold index_block in Hrun. inv_bind Hrun as sid Hsid.
  unfold py_floordiv in Hsid. destruct (shard_size self =? 0); simplify_eq.
  revert Hrun. apply (foldlM_ind (λ st, postings_sound self chain st.1)); [|done].
  intros st1 t st2 Ht Hinv1. unfold index_tx.
  apply (foldlM_ind (λ st, postings_sound self chain st.1)); [|done].
  intros st3 key st4 Hkey Hinv3. apply index_key_sound; [done..|].
  apply elem_of_blocks_with. exists blk. split_and!; [done..|].
  apply elem_of_block_keys. eauto.
Qed.

Lemma index_chain_sound (st : build_state) :
  foldlM (index_block self) (∅, ∅) chain = Ret st → postings_sound self chain st.1.
Proof.
  apply (foldlM_ind (λ st, postings_sound self chain st.1)).
  - intros st1 blk st2 Hblk Hinv. by apply index_block_sound.
  - intros sid pm key blocks Hpm. simpl in Hpm. by rewrite lookup_empty in Hpm.
Qed.

Lemma flush_postings_fold (sid : Z) (entries : list (string * list Z)) (st st' : Store) :
  foldlM (flush_postings sid) st entries = Ret st' →
  shards st' = shards st
  ∧ ∀ key sid' blob,
      postings st' !! (key, sid') = Some blob →
      postings st !! (key, sid') = Some blob
      ∨ sid' = sid ∧ ∃ blocks, (key, blocks) ∈ entries
                     ∧ compress_postings (sorted (elements (set_of blocks))) = Ret blob.
Proof.
  revert st. induction entries as [|[addr blocks] entries IH]; intros st Hrun; simpl in Hrun.
  - simplify_eq. auto.
  - inv_bind Hrun as st1 Hstep. unfold flush_postings in Hstep.
    inv_bind Hstep as comp Hcomp. unfold insert_postings in Hstep.
    destruct (postings st !! (addr, sid)) eqn:Hfresh; simplify_eq.
    destruct (IH _ Hrun) as [Hshards Hrows]. simpl in *. split; [done|].
    intros key sid' blob Hrow. destruct (Hrows _ _ _ Hrow) as [Hold|(-> & blocks' & Hin & Hc)].
    + destruct (decide ((addr, sid) = (key, sid'))) as [[= -> ->]|Hne].
      * rewrite lookup_insert_eq in Hold. simplify_eq.
        right. split; [done|]. exists blocks. split; [apply elem_of_cons; by left|done].
      * rewrite lookup_insert_ne in Hold by done. by left.
    + right. split; [done|]. exists blocks'. split; [apply elem_of_cons; by right|done].
Qed.

Lemma flush_shard_sound (sp : gmap Z (gmap string (list Z)))
    (sb : gmap Z BloomFilter.t) (st st' : Store) (entry : Z * gmap string (list Z)) :
  entry ∈ map_to_list sp → table_sound sp (postings st) →
  flush_shard self sb st entry = Ret st' →
  table_sound sp (postings st').
Proof.
  destruct entry as [sid pm]. intros Hentry%elem_of_map_to_list Hinv Hrun.
  unfold flush_shard in Hrun. destruct (sb !! sid) as [bf|]; [|done].
  inv_bind Hrun as bloom_bytes Hbytes. inv_bind Hrun as st1 Hshard.
  unfold insert_shard in Hshard. destruct (shards st !! sid); simplify_eq.
  apply flush_postings_fold in Hrun as [_ Hrows]. simpl in Hrows.
  intros key sid' blob Hrow.
  destruct (Hrows _ _ _ Hrow) as [Hold|(-> & blocks & Hin%elem_of_map_to_list & Hc)].
  - by apply Hinv.
  - by exists pm, blocks.
Qed.

Lemma build_index_sound (st : Store) :
  build_index self chain = Ret st →
  ∃ sp, postings_sound self chain sp ∧ table_sound sp (postings st).
Proof.
  unfold build_index. intros Hrun. inv_bind Hrun as bst Hbst.
  destruct bst as [sp sb]. exists sp. split.
  - by apply index_chain_sound in Hbst.
  - revert Hrun. apply (foldlM_ind (λ st, table_sound sp (postings st))).
    + intros st1 entry st2 Hentry Hinv. by apply flush_shard_sound.
    + intros key sid blob Hrow. simpl in Hrow. by rewrite lookup_empty in Hrow.
Qed.

(** What a shard of a built index holds for a key: a strictly ascending
    list of block numbers of that shard under which the key is indexed. *)
Lemma shard_fetch_built (st : Store) (key : string) (sid : Z) :
  build_index self chain = Ret st →
  ∃ l, shard_fetch (postings st) key sid = Ret l
       ∧ StronglySorted Z.lt l
       ∧ ∀ b, b ∈ l → b `div` self.(shard_size) = sid ∧ b ∈ blocks_with chain key.
Proof.
  intros (sp & Hsp & Htable)%build_index_sound. unfold shard_fetch.
  destruct (postings st !! (key, sid)) as [blob|] eqn:Hrow.
  - destruct (Htable _ _ _ Hrow) as (pm & blocks & Hpm & Hblocks & Hcomp).
    exists (sorted (elements (set_of blocks))). split_and!.
    + apply decompress_compress; [apply sorted_Sorted| |done].
      eapply compress_postings_Ret_nonneg; [apply sorted_Sorted|done].
    + apply sorted_elements_StronglySorted.
    + intros b Hb%sorted_elements_elem_of. unfold set_of in Hb.
      apply elem_of_list_to_set in Hb.
      destruct (Hsp _ _ _ _ Hpm Hblocks) as [_ Hall].
      rewrite Forall_forall in Hall. by apply Hall.
  - exists []. split_and!; [done|constructor|]. by intros b Hb%elem_of_nil.
Qed.

Lemma shard_fetch_absent (st : Store) (key : string) (sid : Z) :
  build_index self chain = Ret st →
  (∀ blk, blk ∈ chain → key ∉ block_keys blk) →
  shard_fetch (postings st) key sid = Ret [].
Proof.
  intros (sp & Hsp & Htable)%build_index_sound Habsent. unfold shard_fetch.
  destruct (postings st !! (key, sid)) as [blob|] eqn:Hrow; [exfalso|done].
  destruct (Htable _ _ _ Hrow) as (pm & blocks & Hpm & Hblocks & _).
  destruct (Hsp _ _ _ _ Hpm Hblocks) as [Hne Hall].
  destruct blocks as [|b blocks]; [done|].
  apply Forall_cons in Hall as [[_ Hb] _].
  apply elem_of_blocks_with in Hb as (blk & Hblk & _ & Hkey).
  by apply (Habsent blk).
Qed.

End BuildSound.


(** ** The hash rounds under SHA-256 and a positive bit count *)

Section Rounds.
Context `{DigestLength}.

Lemma hash_round_Ret (self : BloomFilter.t) (key : list byte) (i : Z) :
  0 < BloomFilter.m self → 0 ≤ i →
  ∃ pos, BloomFilter.hash_round self (sha256 key) i = Ret pos
         ∧ 0 ≤ pos < BloomFilter.m self.
Proof.
  intros Hm Hi. unfold BloomFilter.hash_round. rewrite digest_length.
  change (Z.of_nat 32 - 7) with 25. unfold py_mod at 1. simpl.
  pose proof (Z.mod_pos_bound (i * 8) 25) as Hstart.
  assert (((i * 8) `mod` 25 <? 0) = false) as Hlow by (apply Z.ltb_ge; lia).
  assert ((32 - (i * 8) `mod` 25 <? 8) = false) as Hhigh by (apply Z.ltb_ge; lia).
  unfold unpack_from_Q. rewrite digest_length. change (Z.of_nat 32) with 32.
  cbv zeta. rewrite !Hlow, Hhigh. simpl.
  unfold py_mod. destruct (Z.eqb_spec (BloomFilter.m self) 0); [lia|].
  eexists. split; [done|]. apply Z.mod_pos_bound. lia.
Qed.

Lemma hashes_Ret (self : BloomFilter.t) (key : list byte) :
  0 < BloomFilter.m self →
  Forall (λ p, ∃ pos, p = Ret pos ∧ 0 ≤ pos < BloomFilter.m self)
         (BloomFilter._hashes self key).
Proof.
  intros Hm. unfold BloomFilter._hashes. apply Forall_fmap, Forall_forall.
  intros i [Hi _]%elem_of_seqZ. simpl. by apply hash_round_Ret.
Qed.

Lemma contains_loop_returns (bitarr : Z) (hashes : list (outcome Z)) :
  Forall (λ p, ∃ pos, p = Ret pos ∧ 0 ≤ pos) hashes →
  returns (BloomFilter.contains_loop bitarr hashes).
Proof.
  induction 1 as [|p hashes (pos & -> & Hpos) _ IH]; [apply returns_Ret|].
  simpl. rewrite py_rshift_nonneg by done. simpl.
  destruct (Z.land _ 1 =? 0); [apply returns_Ret|done].
Qed.

Lemma contains_returns (self : BloomFilter.t) (key : string) :
  0 < BloomFilter.m self → returns (BloomFilter.contains self key).
Proof.
  intros Hm. apply contains_loop_returns.
  eapply Forall_impl; [by apply hashes_Ret|].
  intros p (pos & -> & ? & _). by exists pos.
Qed.

Lemma row_test_returns (self : EnhancedIndexer.t) (key : string) (row : Z * list byte) :
  0 < self.(bloom_m) → returns (row_test self key row).
Proof. intros Hm. by apply contains_returns. Qed.

End Rounds.

(** ** [postings_for] on a built index *)

(** Lists drawn from disjoint classes, one per element of a duplicate-free
    list, concatenate without duplicates. *)
Lemma NoDup_bind_classes {A B} (class : B → A) (f : A → list B) (l : list A) :
  NoDup l → (∀ x, x ∈ l → NoDup (f x)) → (∀ x y, x ∈ l → y ∈ f x → class y = x) →
  NoDup (l ≫= f).
Proof.
  induction 1 as [|x l Hx Hl IH]; intros Hf Hclass; [constructor|].
  simpl. apply NoDup_app. split_and!.
  - apply Hf. by left.
  - intros y Hy (x' & Hy' & Hx')%list_elem_of_bind.
    apply Hclass in Hy; [|by left]. apply Hclass in Hy'; [|by right]. congruence.
  - apply IH; intros; [apply Hf|apply Hclass]; try done; by right.
Qed.

Lemma shard_rows_NoDup (st : Store) : NoDup (shard_rows st).*1.
Proof.
  unfold shard_rows. rewrite <- list_fmap_compose.
  apply (NoDup_fst_map_to_list (shards st)).
Qed.

Section QueryBuilt.
Context `{DigestLength}.
(** [self] builds the index and [query] reads it. *)
Variable self query : EnhancedIndexer.t.
Variable chain : list block.
Variable st : Store.
Hypothesis bloom_m_pos : 0 < query.(bloom_m).
Hypothesis built : build_index self chain = Ret st.

Lemma postings_for_built (key : string) :
  postings_for query st key = Ret (sorted (fetched query st key)).
Proof.
  unfold postings_for. apply postings_for_rows_Ret. split_and!; [| |done].
  - apply Forall_forall. intros row _. by apply row_test_returns.
  - apply Forall_forall. intros sid _.
    destruct (shard_fetch_built self chain st key sid built) as (l & -> & _). done.
Qed.

Lemma fetched_elem_of (key : string) (b : Z) :
  b ∈ fetched query st key →
  b ∈ blocks_with chain key
  ∧ ∃ blob, (b `div` self.(shard_size), blob) ∈ shard_rows st
            ∧ is_candidate query key (b `div` self.(shard_size), blob).
Proof.
  intros (sid & Hb & Hsid)%list_elem_of_bind.
  destruct (shard_fetch_built self chain st key sid built) as (l & Hl & _ & Hin).
  rewrite Hl in Hb. simpl in Hb. destruct (Hin _ Hb) as [<- ?]. split; [done|].
  apply list_elem_of_fmap in Hsid as ([sid blob] & -> & [? ?]%list_elem_of_filter).
  by exists blob.
Qed.

Lemma fetched_NoDup (key : string) : NoDup (fetched query st key).
Proof.
  apply (NoDup_bind_classes (λ b, b `div` self.(shard_size))).
  - apply (sublist_NoDup _ (shard_rows st).*1); [apply shard_rows_NoDup|].
    apply fmap_sublist, sublist_filter.
  - intros sid _.
    destruct (shard_fetch_built self chain st key sid built) as (l & -> & Hl & _).
    simpl. by apply StronglySorted_lt_le_NoDup in Hl as [_ ?].
  - intros sid b _ Hb.
    destruct (shard_fetch_built self chain st key sid built) as (l & Hl & _ & Hin).
    rewrite Hl in Hb. by apply Hin.
Qed.

Lemma postings_for_StronglySorted (key : string) :
  StronglySorted Z.lt (sorted (fetched query st key)).
Proof.
  apply StronglySorted_lt_le_NoDup. split; [apply sorted_Sorted|].
  apply sorted_NoDup, fetched_NoDup.
Qed.

Lemma fetched_absent (key : string) :
  (∀ blk, blk ∈ chain → key ∉ block_keys blk) → fetched query st key = [].
Proof.
  intros Habsent. unfold fetched.
  induction ((filter _ (shard_rows st)).*1) as [|sid sids IH]; [done|].
  rewrite bind_cons, IH.
  by rewrite (shard_fetch_absent self chain st key sid built Habsent).
Qed.

End QueryBuilt.


(** ** [build_index]: what is written is complete *)

(** A fact each step establishes for its element and no step destroys
    holds of every element at the end of a returning fold. *)
Lemma foldlM_all {A B} (Q : A → B → Prop) (f : B → A → outcome B) (l : list A) :
  (∀ b x b', x ∈ l → f b x = Ret b' → Q x b') →
  (∀ b x b' y, x ∈ l → f b x = Ret b' → Q y b → Q y b') →
  ∀ b b', foldlM f b l = Ret b' → ∀ x, x ∈ l → Q x b'.
Proof.
  intros Hnew Hkeep b b' Hrun x Hx.
  apply list_elem_of_split in Hx as (l1 & l2 & ->).
  rewrite foldlM_app in Hrun. inv_bind Hrun as b1 Hl1. simpl in Hrun.
  inv_bind Hrun as b2 Hstep.
  assert (x ∈ l1 ++ x :: l2) as Hx by (apply elem_of_app; right; by left).
  revert Hrun. apply (foldlM_ind (Q x)); [|by eapply Hnew].
  intros b3 y b4 Hy HQ Hf. apply (Hkeep b3 y b4 x); [|done..].
  apply elem_of_app. right. by right.
Qed.

Section BuildComplete.
Context `{Digest}.
Variable self : EnhancedIndexer.t.

Lemma index_key_recorded (sid blknum : Z) (st st' : build_state) (key : string) :
  index_key sid blknum st key = Ret st' → recorded st' sid key blknum.
Proof.
  destruct st as [sp sb]. unfold index_key. intros Hrun.
  destruct (sb !! sid) as [bf|]; [|done].
  inv_bind Hrun as bf' Hadd. simplify_eq.
  eexists _, _, bf'. simpl. split_and!.
  - apply lookup_insert_eq.
  - apply lookup_insert_eq.
  - apply elem_of_app. right. by left.
  - apply lookup_insert_eq.
  - by apply add_Ret in Hadd as (_ & _ & _ & ?).
Qed.

Lemma index_key_keeps_recorded (sid' blknum' : Z) (st st' : build_state)
    (key' : string) (sid : Z) (key : string) (b : Z) :
  index_key sid' blknum' st key' = Ret st' →
  recorded st sid key b → recorded st' sid key b.
Proof.
  destruct st as [sp sb]. unfold index_key. intros Hrun.
  destruct (sb !! sid') as [bf'|] eqn:Hbf'; [|done].
  inv_bind Hrun as bf1 Hadd. simplify_eq.
  intros (pm & blocks & bf & Hpm & Hblocks & Hb & Hbf & Hin). simpl in *.
  destruct (decide (sid = sid')) as [->|Hsid].
  - rewrite Hpm. simpl. simplify_eq.
    destruct (decide (key = key')) as [->|Hkey].
    + rewrite Hblocks. simpl. eexists _, _, bf1. simpl. split_and!.
      * apply lookup_insert_eq.
      * apply lookup_insert_eq.
      * apply elem_of_app. by left.
      * apply lookup_insert_eq.
      * apply (add_keeps_contains _ _ _ _ Hadd Hin).
    + eexists _, blocks, bf1. simpl. split_and!.
      * apply lookup_insert_eq.
      * by rewrite lookup_insert_ne.
      * done.
      * apply lookup_insert_eq.
      * apply (add_keeps_contains _ _ _ _ Hadd Hin).
  - exists pm, blocks, bf. simpl. by rewrite !lookup_insert_ne.
Qed.

Lemma index_key_configured (sid blknum : Z) (st st' : build_state) (key : string) :
  index_key sid blknum st key = Ret st' →
  blooms_configured self st.2 → blooms_configured self st'.2.
Proof.
  destruct st as [sp sb]. unfold index_key. intros Hrun.
  destruct (sb !! sid) as [bf|] eqn:Hbf; [|done].
  inv_bind Hrun as bf1 Hadd. simplify_eq. simpl.
  intros Hconf sid' bf' Hbf'.
  destruct (decide (sid' = sid)) as [->|Hsid].
  - rewrite lookup_insert_eq in Hbf'. simplify_eq.
    apply add_Ret in Hadd as (-> & -> & _). by apply (Hconf sid).
  - rewrite lookup_insert_ne in Hbf' by done. by apply (Hconf sid').
Qed.

Lemma index_tx_keeps_recorded (sid' blknum' : Z) (st st' : build_state) (t : tx)
    (sid : Z) (key : string) (b : Z) :
  index_tx sid' blknum' st t = Ret st' →
  recorded st sid key b → recorded st' sid key b.
Proof.
  intros Hrun Hrec. revert Hrun.
  apply (foldlM_ind (λ st, recorded st sid key b)); [|done].
  intros st1 key' st2 _ Hrec1 Hstep. by eapply index_key_keeps_recorded.
Qed.

Lemma index_tx_recorded (sid blknum : Z) (st st' : build_state) (t : tx) (key : string) :
  index_tx sid blknum st t = Ret st' → key ∈ tx_keys t →
  recorded st' sid key blknum.
Proof.
  unfold index_tx. intros Hrun Hkey.
  refine (foldlM_all (λ key st, recorded st sid key blknum) _ _ _ _ _ _ Hrun key Hkey).
  - intros st1 key1 st2 _. apply index_key_recorded.
  - intros st1 key1 st2 key2 _ Hstep. by eapply index_key_keeps_recorded.
Qed.

Lemma index_tx_configured (sid blknum : Z) (st st' : build_state) (t : tx) :
  index_tx sid blknum st t = Ret st' →
  blooms_configured self st.2 → blooms_configured self st'.2.
Proof.
  intros Hrun Hconf. revert Hrun.
  apply (foldlM_ind (λ st, blooms_configured self st.2)); [|done].
  intros st1 key st2 _ Hconf1 Hstep. by eapply index_key_configured.
Qed.

Lemma index_block_keeps_recorded (st st' : build_state) (blk : block)
    (sid : Z) (key : string) (b : Z) :
  index_block self st blk = Ret st' →
  recorded st sid key b → recorded st' sid key b.
Proof.
  destruct st as [sp sb]. unfold index_block. intros Hrun Hrec.
  inv_bind Hrun as sid' Hsid'. revert Hrun.
  apply (foldlM_ind (λ st, recorded st sid key b)).
  - intros st1 t st2 _ Hrec1 Hstep. by eapply index_tx_keeps_recorded.
  - destruct Hrec as (pm & blocks & bf & Hpm & Hblocks & Hb & Hbf & Hin).
    exists pm, blocks, bf. simpl in *. split_and!; [done..| |done].
    destruct (sb !! sid') eqn:Hnew; [done|].
    rewrite lookup_insert_ne; [done|]. intros ->. congruence.
Qed.

Lemma index_block_recorded (st st' : build_state) (blk : block) (key : string) :
  index_block self st blk = Ret st' → key ∈ block_keys blk →
  recorded st' (blk.(block_number) `div` self.(shard_size)) key blk.(block_number).
Proof.
  destruct st as [sp sb]. unfold index_block. intros Hrun Hkey.
  inv_bind Hrun as sid Hsid.
  unfold py_floordiv in Hsid. destruct (shard_size self =? 0); simplify_eq.
  apply elem_of_block_keys in Hkey as (t & Ht & Hkey).
  revert key Hkey.
  refine (foldlM_all
            (λ t st, ∀ key, key ∈ tx_keys t →
                            recorded st (block_number blk `div` shard_size self) key
                                     (block_number blk)) _ _ _ _ _ _ Hrun t Ht).
  - intros st1 t1 st2 _ Hstep key Hkey. by eapply index_tx_recorded.
  - intros st1 t1 st2 t2 _ Hstep Hrec key Hkey.
    eapply index_tx_keeps_recorded; [done|]. by apply Hrec.
Qed.

Lemma index_block_configured (st st' : build_state) (blk : block) :
  index_block self st blk = Ret st' →
  blooms_configured self st.2 → blooms_configured self st'.2.
Proof.
  destruct st as [sp sb]. unfold index_block. intros Hrun Hconf.
  inv_bind Hrun as sid Hsid. revert Hrun.
  apply (foldlM_ind (λ st, blooms_configured self st.2)).
  - intros st1 t st2 _ Hconf1 Hstep. by eapply index_tx_configured.
  - simpl in *. destruct (sb !! sid) eqn:Hnew; [done|].
    intros sid' bf' Hbf'. destruct (decide (sid' = sid)) as [->|Hne].
    + rewrite lookup_insert_eq in Hbf'. by simplify_eq.
    + rewrite lookup_insert_ne in Hbf' by done. by apply (Hconf sid').
Qed.

Lemma index_chain_complete (chain : list block) (st : build_state) :
  foldlM (index_block self) (∅, ∅) chain = Ret st →
  blooms_configured self st.2
  ∧ ∀ blk key, blk ∈ chain → key ∈ block_keys blk →
      recorded st (blk.(block_number) `div` self.(shard_size)) key blk.(block_number).
Proof.
  intros Hrun. split.
  - revert Hrun. apply (foldlM_ind (λ st, blooms_configured self st.2)).
    + intros st1 blk st2 _ Hconf1 Hstep. by eapply index_block_configured.
    + intros sid bf Hbf. simpl in Hbf. by rewrite lookup_empty in Hbf.
  - intros blk key Hblk Hkey. revert key Hkey.
    refine (foldlM_all
              (λ blk st, ∀ key, key ∈ block_keys blk →
                 recorded st (block_number blk `div` shard_size self) key
                          (block_number blk)) _ _ _ _ _ _ Hrun blk Hblk).
    + intros st1 blk1 st2 _ Hstep key Hkey. by eapply index_block_recorded.
    + intros st1 blk1 st2 blk2 _ Hstep Hrec key Hkey.
      eapply index_block_keeps_recorded; [done|]. by apply Hrec.
Qed.

End BuildComplete.


(** ** Serialising the bits of a bloom filter *)

Lemma int_from_bytes_snoc (b : list byte) (x : byte) :
  int_from_bytes (b ++ [x]) = int_from_bytes b * 256 + byte_to_Z x.
Proof. unfold int_from_bytes. by rewrite foldl_app. Qed.

Lemma int_from_be_digits (len : nat) (n : Z) :
  int_from_bytes (be_digits len n) = n `mod` 256 ^ Z.of_nat len.
Proof.
  revert n. induction len as [|len IH]; intros n.
  - simpl. by rewrite Z.mod_1_r.
  - simpl be_digits. rewrite int_from_bytes_snoc, IH.
    rewrite byte_to_of_Z by (apply Z.mod_pos_bound; lia).
    rewrite Nat2Z.inj_succ, Z.pow_succ_r by lia.
    rewrite (Z.rem_mul_r n 256 (256 ^ Z.of_nat len)) by lia. lia.
Qed.

Lemma int_from_to_bytes (n length : Z) (b : list byte) :
  int_to_bytes n length = Ret b → int_from_bytes b = n.
Proof.
  unfold int_to_bytes.
  destruct (Z.ltb_spec length 0); [done|].
  destruct (Z.ltb_spec n 0); [done|].
  destruct (Z.leb_spec (256 ^ length) n); [done|].
  intros [= <-]. rewrite int_from_be_digits, Z2Nat.id by done.
  apply Z.mod_small. lia.
Qed.

Lemma from_to_bytes (bf : BloomFilter.t) (b : list byte) :
  BloomFilter.to_bytes bf = Ret b →
  BloomFilter.from_bytes b (BloomFilter.m bf) (BloomFilter.k bf) = bf.
Proof.
  destruct bf as [m k bitarr]. unfold BloomFilter.to_bytes, BloomFilter.from_bytes.
  simpl. intros Hb. by rewrite (int_from_to_bytes _ _ _ Hb).
Qed.

(** ** [build_index]: the rows of every shard reach the store *)

Section Flush.
Context `{Digest}.
Variable self : EnhancedIndexer.t.

Lemma flush_postings_complete (sid : Z) (entries : list (string * list Z))
    (st st' : Store) :
  foldlM (flush_postings sid) st entries = Ret st' →
  shards st' = shards st
  ∧ (∀ row blob, postings st !! row = Some blob → postings st' !! row = Some blob)
  ∧ ∀ key blocks, (key, blocks) ∈ entries →
      ∃ blob, compress_postings (sorted (elements (set_of blocks))) = Ret blob
              ∧ postings st' !! (key, sid) = Some blob.
Proof.
  revert st. induction entries as [|[addr blocks] entries IH]; intros st Hrun; simpl in Hrun.
  - simplify_eq. split_and!; [done..|]. by intros key blocks ?%elem_of_nil.
  - inv_bind Hrun as st1 Hstep. unfold flush_postings in Hstep.
    inv_bind Hstep as comp Hcomp. unfold insert_postings in Hstep.
    destruct (postings st !! (addr, sid)) eqn:Hfresh; simplify_eq.
    destruct (IH _ Hrun) as (Hshards & Hkeep & Hnew). simpl in *. split_and!.
    + done.
    + intros row blob Hrow. apply Hkeep.
      rewrite lookup_insert_ne; [done|]. intros <-. congruence.
    + intros key blocks' [[= -> ->]|Hin]%elem_of_cons; [|by apply Hnew].
      exists comp. split; [done|]. apply Hkeep, lookup_insert_eq.
Qed.

Lemma flush_shard_complete (sb : gmap Z BloomFilter.t) (st st' : Store)
    (sid : Z) (pm : gmap string (list Z)) :
  flush_shard self sb st (sid, pm) = Ret st' →
  (∀ sid' row, shards st !! sid' = Some row → shards st' !! sid' = Some row)
  ∧ (∀ row blob, postings st !! row = Some blob → postings st' !! row = Some blob)
  ∧ shard_flushed st' sb sid pm.
Proof.
  unfold flush_shard. intros Hrun. destruct (sb !! sid) as [bf|] eqn:Hbf; [|done].
  inv_bind Hrun as bloom_bytes Hbytes. inv_bind Hrun as st1 Hshard.
  unfold insert_shard in Hshard. destruct (shards st !! sid) eqn:Hfresh; simplify_eq.
  apply flush_postings_complete in Hrun as (Hshards & Hkeep & Hnew). simpl in *.
  split_and!.
  - intros sid' row Hrow. rewrite Hshards.
    rewrite lookup_insert_ne; [done|]. intros <-. congruence.
  - done.
  - split.
    + exists bf, bloom_bytes. eexists _, _. split_and!; [done..|].
      rewrite Hshards. apply lookup_insert_eq.
    + intros key blocks Hblocks. apply Hnew. by apply elem_of_map_to_list.
Qed.

Lemma shard_flushed_keep (sb : gmap Z BloomFilter.t) (st st' : Store)
    (sid : Z) (pm : gmap string (list Z)) :
  (∀ sid' row, shards st !! sid' = Some row → shards st' !! sid' = Some row) →
  (∀ row blob, postings st !! row = Some blob → postings st' !! row = Some blob) →
  shard_flushed st sb sid pm → shard_flushed st' sb sid pm.
Proof.
  intros Hshards Hrows [(bf & bytes & s & e & Hbf & Hbytes & Hrow) Hpostings]. split.
  - exists bf, bytes, s, e. split_and!; [done..|]. by apply Hshards.
  - intros key blocks Hblocks.
    destruct (Hpostings _ _ Hblocks) as (blob & Hblob & Hin).
    exists blob. split; [done|]. by apply Hrows.
Qed.

Lemma flush_complete (sp : gmap Z (gmap string (list Z))) (sb : gmap Z BloomFilter.t)
    (st : Store) (sid : Z) (pm : gmap string (list Z)) :
  foldlM (flush_shard self sb) empty_store (map_to_list sp) = Ret st →
  sp !! sid = Some pm → shard_flushed st sb sid pm.
Proof.
  intros Hrun Hpm%elem_of_map_to_list.
  refine (foldlM_all (λ entry st, shard_flushed st sb entry.1 entry.2)
            _ _ _ _ _ _ Hrun (sid, pm) Hpm).
  - intros st1 [sid1 pm1] st2 _ Hstep. by apply flush_shard_complete in Hstep as (_ & _ & ?).
  - intros st1 [sid1 pm1] st2 [sid2 pm2] _ Hstep.
    apply flush_shard_complete in Hstep as (? & ? & _). by apply shard_flushed_keep.
Qed.

(** Every occurrence of a key in the batch is in the built store: the
    shard of the block has a row whose bloom filter answers for the key,
    and the postings row of the key and shard holds the block number. *)
Lemma build_index_complete (chain : list block) (st : Store) (blk : block) (key : string) :
  build_index self chain = Ret st →
  blk ∈ chain → key ∈ block_keys blk →
  ∃ blob blocks,
    (blk.(block_number) `div` self.(shard_size), blob) ∈ shard_rows st
    ∧ is_candidate self key (blk.(block_number) `div` self.(shard_size), blob)
    ∧ shard_fetch (postings st) key (blk.(block_number) `div` self.(shard_size))
      = Ret (sorted (elements (set_of blocks)))
    ∧ blk.(block_number) ∈ blocks.
Proof.
  unfold build_index. intros Hrun Hblk Hkey.
  inv_bind Hrun as bst Hbst. destruct bst as [sp sb].
  destruct (index_chain_complete self chain _ Hbst) as [Hconf Hrec].
  destruct (Hrec blk key Hblk Hkey) as (pm & blocks & bf & Hpm & Hblocks & Hb & Hbf & Hin).
  simpl in *.
  destruct (flush_complete sp sb st _ pm Hrun Hpm)
    as [(bf' & bytes & s & e & Hbf' & Hbytes & Hrow) Hpostings].
  simplify_eq.
  destruct (Hpostings _ _ Hblocks) as (blob & Hblob & Hpost).
  exists bytes, blocks. split_and!.
  - unfold shard_rows. apply list_elem_of_fmap.
    exists (block_number blk `div` shard_size self, (s, e, bytes)).
    split; [done|]. by apply elem_of_map_to_list.
  - unfold is_candidate, row_test. simpl.
    destruct (Hconf _ _ Hbf) as [<- <-]. by rewrite (from_to_bytes _ _ Hbytes).
  - unfold shard_fetch. rewrite Hpost.
    apply decompress_compress; [apply sorted_Sorted| |done].
    eapply compress_postings_Ret_nonneg; [apply sorted_Sorted|done].
  - done.
Qed.

End Flush.

(** ** [postings_for] is the sorted set of block numbers of the key *)

Section PostingsForSpec.
Context `{DigestLength}.
Variable self : EnhancedIndexer.t.
Variable chain : list block.
Variable st : Store.
Hypothesis bloom_m_pos : 0 < self.(bloom_m).
Hypothesis built : build_index self chain = Ret st.

Lemma fetched_complete (key : string) (b : Z) :
  b ∈ blocks_with chain key → b ∈ fetched self st key.
Proof.
  intros (blk & Hblk & <- & Hkey)%elem_of_blocks_with.
  destruct (build_index_complete self chain st blk key built Hblk Hkey)
    as (blob & blocks & Hrow & Hcand & Hfetch & Hb).
  unfold fetched. apply list_elem_of_bind.
  exists (block_number blk `div` shard_size self). split.
  - rewrite Hfetch. simpl. apply sorted_elements_elem_of.
    unfold set_of. by apply elem_of_list_to_set.
  - apply list_elem_of_fmap. eexists. split; [|by apply list_elem_of_filter]. done.
Qed.

Lemma postings_for_spec (key : string) :
  postings_for self st key = Ret (sorted (elements (set_of (blocks_with chain key)))).
Proof.
  rewrite (postings_for_built self self chain st bloom_m_pos built). f_equal.
  apply StronglySorted_lt_ext.
  - by apply (postings_for_StronglySorted self self chain st).
  - apply sorted_elements_StronglySorted.
  - intros b. rewrite sorted_elem_of, sorted_elements_elem_of.
    unfold set_of. rewrite elem_of_list_to_set. split.
    + intros Hb. by apply (fetched_elem_of self self chain st built) in Hb as [? _].
    + apply fetched_complete.
Qed.

End PostingsForSpec.


(** ** [boolean_query] *)

(** A fold that fetches and combines is the combination of what was
    fetched. *)
Lemma foldlM_mapM {A B C} (g : A → outcome B) (f : C → B → C) (l : list A) (c : C) :
  foldlM (λ acc x, p ← g x; Ret (f acc p)) c l
  = ps ← mapM g l; Ret (foldl f c ps).
Proof.
  revert c. induction l as [|x l IH]; intros c; [done|].
  simpl. destruct (g x) as [p| |]; simpl; [|done..].
  rewrite IH. by destruct (mapM g l).
Qed.

Section BooleanQuery.
Context `{Digest}.
Variable self : EnhancedIndexer.t.
Variable st : Store.

(** [boolean_query] in terms of the lists fetched for the two key lists. *)
Lemma boolean_query_unfold (must_have any_of : list string) :
  boolean_query self st must_have any_of =
    lists ← mapM (postings_for self st) must_have;
    unions ← mapM (postings_for self st) any_of;
    Ret (match lists, foldl merge_sorted [] unions with
         | [], any_list => any_list
         | cur :: rest, [] => foldl intersect_sorted cur rest
         | cur :: rest, any_list =>
             intersect_sorted (foldl intersect_sorted cur rest) any_list
         end).
Proof.
  unfold boolean_query.
  destruct (mapM (postings_for self st) must_have) as [lists| |]; simpl; [|done..].
  rewrite foldlM_mapM.
  destruct (mapM (postings_for self st) any_of) as [unions| |]; simpl; [|done..].
  destruct lists, (foldl merge_sorted [] unions); done.
Qed.



End BooleanQuery.

Lemma naive_boolean_unmatched (chain : list block) (must_have : list string) (z : string) :
  Forall (λ blk, z ∉ block_keys blk) chain →
  naive_boolean chain must_have [z] = [].
Proof.
  unfold naive_boolean. induction 1 as [|blk chain Hz _ IH]; [done|].
  rewrite filter_cons, decide_False; [done|].
  unfold naive_keep. cbv zeta.
  assert (bool_decide
            (z ∈ (list_to_set
                    (filter (λ key, key ∈ must_have ∨ key ∈ [z]) (block_keys blk))
                  : gset string)) = false) as Hnot.
  { apply bool_decide_eq_false. rewrite elem_of_list_to_set, list_elem_of_filter. tauto. }
  destruct (_ && _); [done|].
  simpl existsb. rewrite Hnot. simpl. done.
Qed.


(** ** [build_index] returns *)

(** A fold returns when each step returns and keeps what makes the next
    one return. *)
Lemma foldlM_returns {A B} (P : B → Prop) (f : B → A → outcome B) (l : list A) :
  (∀ b x, x ∈ l → P b → ∃ b', f b x = Ret b' ∧ P b') →
  ∀ b, P b → ∃ b', foldlM f b l = Ret b' ∧ P b'.
Proof.
  induction l as [|x l IH]; intros Hstep b Hb; simpl.
  - by exists b.
  - destruct (Hstep b x) as (b1 & -> & Hb1); [by left|done|]. simpl.
    apply IH; [|done]. intros b2 y Hy. apply Hstep. by right.
Qed.

Lemma lor_bit_range (bitarr pos m : Z) :
  0 ≤ bitarr < 2 ^ m → 0 ≤ pos < m →
  0 ≤ Z.lor bitarr (Z.shiftl 1 pos) < 2 ^ m.
Proof.
  intros [Hlow Hhigh] [Hpos Hm]. rewrite Z.shiftl_1_l.
  assert (0 < 2 ^ pos) by (apply Z.pow_pos_nonneg; lia).
  split; [apply Z.lor_nonneg; lia|].
  apply Z.log2_lt_pow2.
  - assert (0 ≤ Z.lor bitarr (2 ^ pos)) by (apply Z.lor_nonneg; lia).
    assert (Z.lor bitarr (2 ^ pos) ≠ 0); [|lia].
    intros [_ Hz]%Z.lor_eq_0_iff. lia.
  - rewrite Z.log2_lor by lia. rewrite Z.log2_pow2 by done.
    destruct (decide (bitarr = 0)) as [->|]; [simpl; lia|].
    assert (Z.log2 bitarr < m) by (apply Z.log2_lt_pow2; lia). lia.
Qed.

Section BuildReturns.
Context `{DigestLength}.
Variable self : EnhancedIndexer.t.
Hypothesis bloom_m_pos : 0 < self.(bloom_m).

Lemma add_loop_returns (m : Z) (hashes : list (outcome Z)) (bitarr : Z) :
  Forall (λ p, ∃ pos, p = Ret pos ∧ 0 ≤ pos < m) hashes →
  0 ≤ bitarr < 2 ^ m →
  ∃ bitarr', BloomFilter.add_loop bitarr hashes = Ret bitarr' ∧ 0 ≤ bitarr' < 2 ^ m.
Proof.
  unfold BloomFilter.add_loop. intros Hhashes. revert bitarr.
  induction Hhashes as [|p hashes (pos & -> & Hpos) _ IH]; intros bitarr Hrange; simpl.
  - by exists bitarr.
  - unfold py_lshift. destruct (Z.ltb_spec pos 0); [lia|]. simpl.
    apply IH. by apply lor_bit_range.
Qed.

Lemma add_returns (bf : BloomFilter.t) (key : string) :
  bloom_ok self bf → ∃ bf', BloomFilter.add bf key = Ret bf' ∧ bloom_ok self bf'.
Proof.
  intros (Hm & Hk & Hrange). unfold BloomFilter.add.
  destruct (add_loop_returns (BloomFilter.m bf)
              (BloomFilter._hashes bf (list_byte_of_string key)) (BloomFilter.bitarr bf))
    as (bitarr' & -> & Hrange').
  - apply hashes_Ret. lia.
  - by rewrite Hm.
  - simpl. eexists. split; [reflexivity|].
    unfold bloom_ok. simpl. by rewrite <- Hm.
Qed.

Lemma to_bytes_returns (bf : BloomFilter.t) :
  bloom_ok self bf → returns (BloomFilter.to_bytes bf).
Proof.
  intros (Hm & _ & Hrange). unfold BloomFilter.to_bytes, int_to_bytes. rewrite Hm.
  set (num_bytes := (bloom_m self + 7) `div` 8).
  assert (bloom_m self ≤ 8 * num_bytes) as Hbytes.
  { unfold num_bytes. pose proof (Z.mul_succ_div_gt (bloom_m self + 7) 8). lia. }
  assert (2 ^ bloom_m self ≤ 256 ^ num_bytes) as Hpow.
  { change 256 with (2 ^ 8). rewrite <- Z.pow_mul_r by lia.
    apply Z.pow_le_mono_r; lia. }
  destruct (Z.ltb_spec num_bytes 0); [lia|].
  destruct (Z.ltb_spec (BloomFilter.bitarr bf) 0); [lia|].
  destruct (Z.leb_spec (256 ^ num_bytes) (BloomFilter.bitarr bf)); [lia|].
  apply returns_Ret.
Qed.

Lemma index_key_returns (sid blknum : Z) (st : build_state) (key : string) :
  build_ok self st ∧ is_Some (st.2 !! sid) →
  ∃ st', index_key sid blknum st key = Ret st'
         ∧ build_ok self st' ∧ is_Some (st'.2 !! sid).
Proof.
  destruct st as [sp sb]. simpl. intros [[Hdom Hblooms] [bf Hbf]].
  unfold index_key. rewrite Hbf.
  destruct (add_returns bf key) as (bf' & -> & Hbf'); [by eapply Hblooms|]. simpl.
  simpl in Hdom, Hblooms.
  eexists. split; [done|]. simpl. split; [split|]; simpl.
  - intros sid' Hsid'. destruct (decide (sid' = sid)) as [->|Hne].
    + rewrite lookup_insert_eq. by eexists.
    + rewrite lookup_insert_ne in Hsid' by done.
      rewrite lookup_insert_ne by done. by apply Hdom.
  - intros sid' bf1 Hbf1. destruct (decide (sid' = sid)) as [->|Hne].
    + rewrite lookup_insert_eq in Hbf1. by simplify_eq.
    + rewrite lookup_insert_ne in Hbf1 by done. by eapply Hblooms.
  - rewrite lookup_insert_eq. by eexists.
Qed.

Lemma index_tx_returns (sid blknum : Z) (st : build_state) (t : tx) :
  build_ok self st ∧ is_Some (st.2 !! sid) →
  ∃ st', index_tx sid blknum st t = Ret st'
         ∧ build_ok self st' ∧ is_Some (st'.2 !! sid).
Proof.
  apply (foldlM_returns (λ st, build_ok self st ∧ is_Some (st.2 !! sid))).
  intros st1 key _. apply index_key_returns.
Qed.

Lemma index_block_returns (st : build_state) (blk : block) :
  self.(shard_size) ≠ 0 → build_ok self st →
  ∃ st', index_block self st blk = Ret st' ∧ build_ok self st'.
Proof.
  destruct st as [sp sb]. intros Hsize [Hdom Hblooms]. unfold index_block, py_floordiv.
  destruct (Z.eqb_spec (shard_size self) 0); [done|]. simpl.
  set (sid := block_number blk `div` shard_size self).
  destruct (foldlM_returns (λ st, build_ok self st ∧ is_Some (st.2 !! sid))
              (index_tx sid (block_number blk)) (transactions blk))
    with (b := (sp, match sb !! sid with
                    | Some _ => sb
                    | None => <[sid := BloomFilter.init (bloom_m self) (bloom_k self)]> sb
                    end))
    as (st' & Hrun & Hok & _).
  - intros st1 t _. apply index_tx_returns.
  - simpl in *. destruct (sb !! sid) as [bf|] eqn:Hbf.
    + split; [by split|]. rewrite Hbf. by eexists.
    + split; [split|]; simpl.
      * intros sid' Hsid'. destruct (decide (sid' = sid)) as [->|Hne].
        -- rewrite lookup_insert_eq. by eexists.
        -- rewrite lookup_insert_ne by done. by apply Hdom.
      * intros sid' bf' Hbf'. destruct (decide (sid' = sid)) as [->|Hne].
        -- rewrite lookup_insert_eq in Hbf'. simplify_eq.
           unfold bloom_ok. simpl. split_and!; [done..|]. apply Z.pow_pos_nonneg; lia.
        -- rewrite lookup_insert_ne in Hbf' by done. by eapply Hblooms.
      * rewrite lookup_insert_eq. by eexists.
  - by exists st'.
Qed.

Lemma index_chain_returns (chain : list block) :
  self.(shard_size) ≠ 0 →
  ∃ st, foldlM (index_block self) (∅, ∅) chain = Ret st ∧ build_ok self st.
Proof.
  intros Hsize. apply (foldlM_returns (build_ok self)).
  - intros st blk _. by apply index_block_returns.
  - split.
    + intros sid [? Hsid]. simpl in Hsid. by rewrite lookup_empty in Hsid.
    + intros sid bf Hbf. simpl in Hbf. by rewrite lookup_empty in Hbf.
Qed.

End BuildReturns.


Section FlushReturns.
Context `{Digest}.
Variable self : EnhancedIndexer.t.

Lemma flush_postings_returns (sid : Z) (entries : list (string * list Z)) (st : Store) :
  NoDup entries.*1 →
  (∀ key, postings st !! (key, sid) = None) →
  (∀ key blocks, (key, blocks) ∈ entries →
     returns (compress_postings (sorted (elements (set_of blocks))))) →
  ∃ st', foldlM (flush_postings sid) st entries = Ret st'
         ∧ shards st' = shards st
         ∧ ∀ key sid', sid' ≠ sid →
             postings st' !! (key, sid') = postings st !! (key, sid').
Proof.
  intros Hnodup Hfresh Hcomp.
  cut (∀ st0 : Store,
         shards st0 = shards st →
         (∀ key, key ∈ entries.*1 → postings st0 !! (key, sid) = None) →
         (∀ key sid', sid' ≠ sid →
            postings st0 !! (key, sid') = postings st !! (key, sid')) →
         ∃ st', foldlM (flush_postings sid) st0 entries = Ret st'
                ∧ shards st' = shards st
                ∧ ∀ key sid', sid' ≠ sid →
                    postings st' !! (key, sid') = postings st !! (key, sid')).
  { intros Hgen. apply Hgen; auto. }
  clear Hfresh. induction entries as [|[addr blocks] entries IH];
    intros st0 Hshards Hfresh Hother; simpl.
  - by exists st0.
  - apply NoDup_cons in Hnodup as [Haddr Hnodup].
    destruct (Hcomp addr blocks) as [comp Hcomp1]; [by left|].
    unfold flush_postings at 1. rewrite Hcomp1. simpl.
    unfold insert_postings. rewrite (Hfresh addr) by (rewrite fmap_cons; by left). simpl.
    apply IH; simpl; [done| |done| |].
    + intros key blocks' Hin. apply (Hcomp key). by right.
    + intros key Hkey. rewrite lookup_insert_ne.
      * apply Hfresh. rewrite fmap_cons. by right.
      * intros [= <-]. done.
    + intros key sid' Hne. rewrite lookup_insert_ne by congruence. by apply Hother.
Qed.

Lemma flush_shard_returns (sb : gmap Z BloomFilter.t) (st : Store)
    (sid : Z) (pm : gmap string (list Z)) :
  (∃ bf, sb !! sid = Some bf ∧ returns (BloomFilter.to_bytes bf)) →
  shards st !! sid = None →
  (∀ key, postings st !! (key, sid) = None) →
  (∀ key blocks, pm !! key = Some blocks →
     returns (compress_postings (sorted (elements (set_of blocks))))) →
  ∃ st', flush_shard self sb st (sid, pm) = Ret st'
         ∧ (∀ sid', sid' ≠ sid → shards st' !! sid' = shards st !! sid')
         ∧ ∀ key sid', sid' ≠ sid →
             postings st' !! (key, sid') = postings st !! (key, sid').
Proof.
  intros (bf & Hbf & [bytes Hbytes]) Hshard Hfresh Hcomp.
  unfold flush_shard. rewrite Hbf, Hbytes. simpl.
  unfold insert_shard. rewrite Hshard. simpl.
  destruct (flush_postings_returns sid (map_to_list pm)
              {| shards := <[sid := (sid * shard_size self,
                                     sid * shard_size self + shard_size self - 1,
                                     bytes)]> (shards st);
                 postings := postings st |})
    as (st' & Hrun & Hshards & Hother).
  - apply NoDup_fst_map_to_list.
  - done.
  - intros key blocks Hin%elem_of_map_to_list. by apply (Hcomp key).
  - exists st'. split; [done|]. split; [|done].
    intros sid' Hne. rewrite Hshards. simpl. by rewrite lookup_insert_ne.
Qed.

Lemma flush_returns (sb : gmap Z BloomFilter.t) (entries : list (Z * gmap string (list Z)))
    (st : Store) :
  NoDup entries.*1 →
  (∀ sid pm, (sid, pm) ∈ entries →
     (∃ bf, sb !! sid = Some bf ∧ returns (BloomFilter.to_bytes bf))
     ∧ shards st !! sid = None
     ∧ (∀ key, postings st !! (key, sid) = None)
     ∧ ∀ key blocks, pm !! key = Some blocks →
         returns (compress_postings (sorted (elements (set_of blocks))))) →
  returns (foldlM (flush_shard self sb) st entries).
Proof.
  revert st. induction entries as [|[sid pm] entries IH]; intros st Hnodup Hpre.
  - apply returns_Ret.
  - apply NoDup_cons in Hnodup as [Hsid Hnodup].
    destruct (Hpre sid pm) as (Hbf & Hshard & Hfresh & Hcomp); [by left|].
    destruct (flush_shard_returns sb st sid pm Hbf Hshard Hfresh Hcomp)
      as (st' & Hstep & Hshards & Hother).
    rewrite foldlM_cons, Hstep, bind_Ret. apply IH; [done|].
    intros sid' pm' Hin.
    assert (sid' ≠ sid) as Hne.
    { intros ->. apply Hsid. apply list_elem_of_fmap. by exists (sid, pm'). }
    destruct (Hpre sid' pm') as (Hbf' & Hshard' & Hfresh' & Hcomp'); [by right|].
    split_and!; [done| | |done].
    + by rewrite Hshards.
    + intros key. by rewrite Hother.
Qed.

End FlushReturns.

(** [build_index] returns on every batch of non-negative block numbers,
    for a non-zero shard size and a positive bloom bit count. *)
Lemma build_index_returns `{DigestLength} (self : EnhancedIndexer.t) (chain : list block) :
  0 < self.(bloom_m) → self.(shard_size) ≠ 0 →
  Forall (λ blk, 0 ≤ blk.(block_number)) chain →
  returns (build_index self chain).
Proof.
  intros Hm Hsize Hpos. unfold build_index.
  destruct (index_chain_returns self Hm chain Hsize) as ([sp sb] & Hrun & Hdom & Hblooms).
  rewrite Hrun. simpl.
  pose proof (index_chain_sound self chain _ Hrun) as Hsound. simpl in *.
  apply flush_returns; [apply NoDup_fst_map_to_list|].
  intros sid pm Hpm%elem_of_map_to_list. split_and!.
  - destruct (Hdom sid) as [bf Hbf]; [by eexists|].
    exists bf. split; [done|]. apply (to_bytes_returns self Hm). by eapply Hblooms.
  - done.
  - done.
  - intros key blocks Hblocks. apply compress_postings_returns; [apply sorted_Sorted|].
    apply Forall_forall. intros b Hb%sorted_elements_elem_of.
    unfold set_of in Hb. apply elem_of_list_to_set in Hb.
    destruct (Hsound _ _ _ _ Hpm Hblocks) as [_ Hall].
    rewrite Forall_forall in Hall.
    destruct (Hall _ Hb) as [_ (blk & Hblk & <- & _)%elem_of_blocks_with].
    rewrite Forall_forall in Hpos. by apply Hpos.
Qed.


(** ** [postings_for] and the order of the shard rows *)

(** The only way the generator of [varint_decode_stream] fails. *)
Lemma varint_decode_from_end (b : list byte) (mid : bool) (shift val : Z) :
  (varint_decode_from b mid shift val).2 = StopIteration
  ∨ (varint_decode_from b mid shift val).2 = GenRaise IndexError.
Proof.
  revert mid shift val. induction b as [|x b IH]; intros mid shift val.
  - destruct mid; simpl; auto.
  - rewrite varint_decode_from_cons. cbv zeta.
    destruct (negb _); [apply IH|].
    specialize (IH false 0 0). by destruct (varint_decode_from b false 0 0).
Qed.

Lemma decompress_postings_fails (b : list byte) :
  returns (decompress_postings b) ∨ decompress_postings b = Raise IndexError.
Proof.
  unfold decompress_postings, varint_decode_stream.
  destruct (varint_decode_from_end b false 0 0) as [Hend|Hend];
    destruct (varint_decode_from b false 0 0) as [vals e]; simpl in Hend; subst e.
  - left. apply returns_Ret.
  - by right.
Qed.

Lemma shard_fetch_fails (table : gmap (string * Z) (list byte)) (key : string) (sid : Z) :
  returns (shard_fetch table key sid) ∨ shard_fetch table key sid = Raise IndexError.
Proof.
  unfold shard_fetch. destruct (table !! (key, sid)); [apply decompress_postings_fails|].
  left. apply returns_Ret.
Qed.

Lemma hash_round_not_Diverge (self : BloomFilter.t) (h : list byte) (i : Z) :
  BloomFilter.hash_round self h i ≠ Diverge.
Proof.
  unfold BloomFilter.hash_round, py_mod, unpack_from_Q. cbv zeta.
  repeat (case_match; simpl; try done).
Qed.

(** The rounds are the same for every filter of an instance, so the
    membership tests that fail on a key all fail alike. *)
Lemma contains_loop_fails (hashes : list (outcome Z)) :
  Forall (λ p, p ≠ Diverge) hashes →
  ∃ e, ∀ bitarr, returns (BloomFilter.contains_loop bitarr hashes)
                 ∨ BloomFilter.contains_loop bitarr hashes = Raise e.
Proof.
  induction 1 as [|p hashes Hp _ [e IH]].
  - exists IndexError. intros bitarr. left. apply returns_Ret.
  - destruct p as [pos|e'|]; [|by exists e'; intros; right|done].
    destruct (Z.ltb_spec pos 0) as [Hneg|Hpos].
    + exists ValueError. intros bitarr. right. simpl. unfold py_rshift.
      by rewrite (proj2 (Z.ltb_lt pos 0) Hneg).
    + exists e. intros bitarr. simpl. rewrite py_rshift_nonneg by done. simpl.
      destruct (Z.land _ 1 =? 0); [left; apply returns_Ret|apply IH].
Qed.

Section RowOrder.
Context `{Digest}.
Variable self : EnhancedIndexer.t.
Variable key : string.

Lemma row_test_fails :
  ∃ e, ∀ row, returns (row_test self key row) ∨ row_test self key row = Raise e.
Proof.
  destruct (contains_loop_fails
              (BloomFilter._hashes (BloomFilter.init self.(bloom_m) self.(bloom_k))
                                   (list_byte_of_string key))) as [e He].
  { apply Forall_fmap, Forall_forall. intros i _. apply hash_round_not_Diverge. }
  exists e. intros [sid blob]. apply (He (int_from_bytes blob)).
Qed.

(** A fold whose steps fail alike, if they fail, fails like them. *)
Lemma foldlM_fails {A B} (f : B → A → outcome B) (e : exn) (l : list A) (b : B) :
  (∀ b x, x ∈ l → returns (f b x) ∨ f b x = Raise e) →
  returns (foldlM f b l) ∨ foldlM f b l = Raise e.
Proof.
  revert b. induction l as [|x l IH]; intros b Hstep; simpl.
  - left. apply returns_Ret.
  - destruct (Hstep b x) as [[b' ->]| ->]; [by left| |by right].
    simpl. apply IH. intros b1 y Hy. apply Hstep. by right.
Qed.

Lemma candidates_of_fails :
  ∃ e, ∀ rows, returns (candidates_of self key rows)
               ∨ candidates_of self key rows = Raise e.
Proof.
  destruct row_test_fails as [e He]. exists e. intros rows.
  apply foldlM_fails. intros acc [sid blob] _. cbv beta iota zeta.
  destruct (He (sid, blob)) as [[c Hc]|Hc]; unfold row_test in Hc; simpl in Hc;
    rewrite Hc; simpl; [left; apply returns_Ret|by right].
Qed.

Lemma fetch_postings_fails (table : gmap (string * Z) (list byte)) (cands : list Z) :
  returns (fetch_postings table key cands)
  ∨ fetch_postings table key cands = Raise IndexError.
Proof.
  apply foldlM_fails. intros acc sid _. cbv beta.
  destruct (shard_fetch_fails table key sid) as [[l Hl]|Hl]; unfold shard_fetch in Hl;
    destruct (table !! (key, sid)); try rewrite Hl; simpl;
    solve [left; apply returns_Ret | by right | done].
Qed.

Lemma postings_for_rows_Permutation_eq (rows rows' : list (Z * list byte))
    (table : gmap (string * Z) (list byte)) :
  rows ≡ₚ rows' →
  postings_for_rows self rows table key = postings_for_rows self rows' table key.
Proof.
  intros Hperm.
  cut (∀ rows rows', rows ≡ₚ rows' →
         returns (postings_for_rows self rows table key) →
         postings_for_rows self rows table key = postings_for_rows self rows' table key).
  { intros Hret. destruct candidates_of_fails as [e He].
    assert (∀ rows, returns (postings_for_rows self rows table key)
                    ∨ postings_for_rows self rows table key = Raise e
                    ∨ postings_for_rows self rows table key = Raise IndexError) as Hcases.
    { intros rows0. unfold postings_for_rows.
      destruct (He rows0) as [[cands ->]| ->]; simpl; [|by right; left].
      destruct (fetch_postings_fails table cands) as [[res ->]| ->]; simpl;
        [left; apply returns_Ret|by right; right]. }
    destruct (Hcases rows) as [Hrows|Hrows]; [by apply Hret|].
    destruct (Hcases rows') as [Hrows'|Hrows']; [symmetry; by apply Hret|].
    (* both fail: in the first loop alike, or both in the second *)
    unfold postings_for_rows in *.
    destruct (He rows) as [[cands Hc]|Hc], (He rows') as [[cands' Hc']|Hc'];
      rewrite Hc, Hc' in *; simpl in *; try done.
    - destruct (fetch_postings_fails table cands) as [[res Hf]|Hf],
        (fetch_postings_fails table cands') as [[res' Hf']|Hf'];
        rewrite Hf, Hf' in *; simpl in *; try done;
        destruct Hrows as [?|?], Hrows' as [?|?]; done.
    - exfalso. apply candidates_of_Ret in Hc as [Hall _].
      rewrite Hperm in Hall.
      by rewrite (proj2 (candidates_of_Ret self key rows' _) (conj Hall eq_refl)) in Hc'.
    - exfalso. apply candidates_of_Ret in Hc' as [Hall _].
      rewrite <- Hperm in Hall.
      by rewrite (proj2 (candidates_of_Ret self key rows _) (conj Hall eq_refl)) in Hc. }
  clear rows rows' Hperm. intros rows rows' Hperm [l Hl].
  rewrite Hl. symmetry. by apply (postings_for_rows_Permutation self key rows).
Qed.

End RowOrder.


(** * Edge cases and composition *)

(** ** The shape of a varint *)

Lemma continues_continue (t : Z) : 0 ≤ t < 128 → continues (byte_of_Z (Z.lor t 0x80)).
Proof.
  intros Ht. unfold continues.
  rewrite byte_to_of_Z by (rewrite low7_continue by done; lia).
  by rewrite continue_flag.
Qed.

Lemma continues_last (t : Z) : 0 ≤ t < 128 → ¬ continues (byte_of_Z t).
Proof.
  intros Ht. unfold continues. rewrite byte_to_of_Z by lia.
  rewrite last_flag by done. by intros [].
Qed.

(** Every byte but the last has the continuation bit, and the bytes are the
    seven-bit groups of [n]. *)
Lemma varint_encode_loop_shape (fuel : nat) (n : Z) (bs : list byte) :
  0 ≤ n → varint_encode_loop fuel n = Ret bs →
  (∃ init x, bs = init ++ [x] ∧ Forall continues init ∧ ¬ continues x)
  ∧ Z.of_nat (length bs) = Z.log2 n `div` 7 + 1.
Proof.
  revert n bs. induction fuel as [|fuel IH]; intros n bs Hn Hrun; [done|].
  rewrite varint_encode_loop_S in Hrun.
  pose proof (low7_range n) as Hlow.
  destruct (Z.eqb_spec (Z.shiftr n 7) 0) as [Hz|Hne]; simpl in Hrun.
  - simplify_eq. split.
    + exists [], (byte_of_Z (Z.land n 127)). split_and!; [done|constructor|].
      by apply continues_last.
    + simpl. rewrite Z.shiftr_div_pow2 in Hz by lia.
      assert (n < 128) as Hsmall.
      { apply Z.div_small_iff in Hz; [|lia]. change (2 ^ 7) with 128 in Hz. lia. }
      destruct (decide (n = 0)) as [->|]; [done|].
      assert (Z.log2 n < 7) by (apply Z.log2_lt_pow2; lia).
      pose proof (Z.log2_nonneg n). rewrite Z.div_small by lia. done.
  - inv_bind Hrun as rest Hrest. simplify_eq.
    assert (0 ≤ Z.shiftr n 7) as Hn' by (by apply Z.shiftr_nonneg).
    destruct (IH _ _ Hn' Hrest) as [(init & x & -> & Hinit & Hx) Hlen]. split.
    + exists (byte_of_Z (Z.lor (Z.land n 127) 128) :: init), x.
      split_and!; [done| |done]. constructor; [|done]. by apply continues_continue.
    + rewrite length_cons, Nat2Z.inj_succ, Hlen.
      assert (0 < n) as Hpos.
      { destruct (decide (n = 0)) as [->|]; [|lia]. by rewrite Z.shiftr_0_l in Hne. }
      pose proof (log2_shiftr7 n Hn Hne) as Hlog.
      rewrite Z.log2_shiftr in * by done.
      assert (7 ≤ Z.log2 n).
      { assert (128 ≤ n) as Hbig.
        { destruct (decide (128 ≤ n)) as [|Hsmall]; [done|]. destruct Hne.
          rewrite Z.shiftr_div_pow2 by lia. apply Z.div_small.
          change (2 ^ 7) with 128. lia. }
        apply Z.log2_le_mono in Hbig. by change (Z.log2 128) with 7 in Hbig. }
      replace (Z.max 0 (Z.log2 n - 7)) with (Z.log2 n - 7) by lia.
      replace (Z.log2 n) with ((Z.log2 n - 7) + 1 * 7) at 2 by lia.
      rewrite Z.div_add by lia. lia.
Qed.

(** ** The decoder on an arbitrary buffer *)

Lemma varint_decode_from_nonneg (b : list byte) (mid : bool) (shift val : Z) :
  0 ≤ shift → 0 ≤ val →
  Forall (λ v, 0 ≤ v) (varint_decode_from b mid shift val).1.
Proof.
  revert mid shift val. induction b as [|x b IH]; intros mid shift val Hs Hv.
  - constructor.
  - rewrite varint_decode_from_cons. cbv zeta.
    assert (0 ≤ Z.lor val (Z.shiftl (Z.land (byte_to_Z x) 127) shift)) as Hval.
    { apply Z.lor_nonneg. split; [done|]. apply Z.shiftl_nonneg.
      apply Z.land_nonneg. right. lia. }
    destruct (negb _).
    + apply IH; [lia|done].
    + specialize (IH false 0 0 (Z.le_refl 0) (Z.le_refl 0)).
      destruct (varint_decode_from b false 0 0) as [vals e]. simpl in *.
      by constructor.
Qed.

(** One value per byte without the continuation bit. *)
Lemma varint_decode_from_length (b : list byte) (mid : bool) (shift val : Z) :
  length (varint_decode_from b mid shift val).1
  = length (filter (λ x, ¬ continues x) b).
Proof.
  revert mid shift val. induction b as [|x b IH]; intros mid shift val; [done|].
  rewrite varint_decode_from_cons, filter_cons. cbv zeta. unfold continues at 2.
  destruct (Z.eqb_spec (Z.land (byte_to_Z x) 128) 0) as [Hz|Hnz]; simpl.
  - rewrite decide_True by (by intros []).
    specialize (IH false 0 0). destruct (varint_decode_from b false 0 0). simpl in *.
    by rewrite IH.
  - rewrite decide_False by (by intros []). apply IH.
Qed.

(** A buffer whose last byte has no continuation bit is decoded to its end. *)
Lemma varint_decode_from_complete (b : list byte) (x : byte) :
  last b = Some x → ¬ continues x →
  ∀ (mid : bool) (shift val : Z),
    (varint_decode_from b mid shift val).2 = StopIteration.
Proof.
  intros Hlast Hx. induction b as [|y b IH]; intros mid shift val; [done|].
  rewrite varint_decode_from_cons. cbv zeta.
  destruct b as [|z b].
  - simpl in Hlast. simplify_eq. unfold continues in Hx.
    destruct (Z.eqb_spec (Z.land (byte_to_Z x) 128) 0); [done|]. by destruct Hx.
  - specialize (IH Hlast). destruct (negb _); [apply IH|].
    specialize (IH false 0 0). destruct (varint_decode_from (z :: b) false 0 0). done.
Qed.

(** Decoding what follows a value that is complete starts afresh. *)
Lemma varint_decode_from_app (b1 b2 : list byte) (mid : bool) (shift val : Z) :
  (varint_decode_from b1 mid shift val).2 = StopIteration →
  b1 ≠ [] →
  varint_decode_from (b1 ++ b2) mid shift val
  = ((varint_decode_from b1 mid shift val).1 ++ (varint_decode_stream b2).1,
     (varint_decode_stream b2).2).
Proof.
  revert mid shift val. induction b1 as [|x b1 IH]; intros mid shift val Hend Hne; [done|].
  simpl app. rewrite !varint_decode_from_cons in *. cbv zeta in *.
  destruct (negb _).
  - destruct b1 as [|y b1]; [done|]. by apply IH.
  - destruct b1 as [|y b1].
    + simpl. fold (varint_decode_stream b2). by destruct (varint_decode_stream b2).
    + specialize (IH false 0 0).
      destruct (varint_decode_from (y :: b1) false 0 0) as [vals e] eqn:Hdec.
      simpl in *. subst e. rewrite IH by done. done.
Qed.

Lemma varint_decode_stream_app (b1 b2 : list byte) :
  (varint_decode_stream b1).2 = StopIteration →
  varint_decode_stream (b1 ++ b2)
  = ((varint_decode_stream b1).1 ++ (varint_decode_stream b2).1,
     (varint_decode_stream b2).2).
Proof.
  intros Hend. destruct b1 as [|x b1].
  - simpl. by destruct (varint_decode_stream b2).
  - by apply varint_decode_from_app.
Qed.

(** ** [compress_postings] and [decompress_postings] on arbitrary input *)

Lemma mapM_Ret_Forall2 {A B} (g : A → outcome B) (l : list A) (ps : list B) :
  mapM g l = Ret ps ↔ Forall2 (λ x p, g x = Ret p) l ps.
Proof.
  revert ps. induction l as [|x l IH]; intros ps; simpl.
  - split; [intros [= <-]; constructor|by inv 1].
  - split.
    + intros Hrun. inv_bind Hrun as p Hp. inv_bind Hrun as ps' Hps.
      injection Hrun as <-. constructor; [done|]. by apply IH.
    + inv 1 as [|? p ? ps' Hp Hps]. rewrite Hp. simpl.
      apply IH in Hps. by rewrite Hps.
Qed.

Lemma varint_encode_Ret_nonneg (n : Z) (bs : list byte) : varint_encode n = Ret bs → 0 ≤ n.
Proof.
  intros Hrun. destruct (decide (0 ≤ n)) as [|Hneg]; [done|].
  by rewrite varint_encode_negative in Hrun by lia.
Qed.

Lemma deltas_nonneg_Sorted (prev : Z) (l : list Z) :
  Forall (λ d, 0 ≤ d) (deltas prev l) ↔ Sorted Z.le (prev :: l).
Proof.
  split; [|apply deltas_nonneg].
  revert prev. induction l as [|b l IH]; intros prev Hd.
  - repeat constructor.
  - simpl in Hd. apply Forall_cons in Hd as [Hb Hd].
    constructor; [by apply IH|]. constructor. lia.
Qed.

Lemma compress_postings_returns_iff (l : list Z) :
  returns (compress_postings l) ↔ Sorted Z.le (0 :: l).
Proof.
  rewrite compress_postings_deltas, <- deltas_nonneg_Sorted. split.
  - intros [bs Hrun]. inv_bind Hrun as bss Hbss.
    apply mapM_Ret_Forall2 in Hbss.
    clear Hrun. induction Hbss as [|d bs' ds bss' Hd _ IH]; constructor; [|done].
    by eapply varint_encode_Ret_nonneg.
  - intros Hd. destruct (varint_decode_encode_stream _ Hd) as (bss & -> & _).
    apply returns_Ret.
Qed.

Lemma decompress_compress_Sorted (l : list Z) (bs : list byte) :
  compress_postings l = Ret bs → decompress_postings bs = Ret l.
Proof.
  intros Hrun.
  assert (Sorted Z.le (0 :: l)) as Hs by (apply compress_postings_returns_iff; by exists bs).
  apply Sorted_inv in Hs as [Hs Hhd].
  apply decompress_compress; [done| |done].
  eapply compress_postings_Ret_nonneg; done.
Qed.

Lemma running_sum_Sorted (prev : Z) (ds : list Z) :
  Forall (λ d, 0 ≤ d) ds → Sorted Z.le (prev :: running_sum prev ds).
Proof.
  intros Hds. revert prev. induction Hds as [|d ds Hd _ IH]; intros prev.
  - repeat constructor.
  - simpl. constructor; [apply IH|]. constructor. lia.
Qed.

Lemma running_sum_length (prev : Z) (ds : list Z) : length (running_sum prev ds) = length ds.
Proof. revert prev. induction ds as [|d ds IH]; intros prev; simpl; [done|]. by rewrite IH. Qed.


(** ** The bits a key sets *)

Lemma add_loop_cons (bitarr : Z) (p : outcome Z) (hashes : list (outcome Z)) :
  BloomFilter.add_loop bitarr (p :: hashes)
  = (pos ← p; bit ← py_lshift 1 pos; Ret (Z.lor bitarr bit))
      ≫= λ bitarr', BloomFilter.add_loop bitarr' hashes.
Proof. done. Qed.

(** What [add] does to the bits is to or a mask into them; the mask
    depends on the rounds only. *)
Lemma add_loop_mask (hashes : list (outcome Z)) (bitarr bitarr' : Z) :
  BloomFilter.add_loop bitarr hashes = Ret bitarr' →
  ∃ mask, ∀ c, BloomFilter.add_loop c hashes = Ret (Z.lor c mask).
Proof.
  revert bitarr. induction hashes as [|p hashes IH]; intros bitarr Hrun.
  - exists 0. intros c. by rewrite Z.lor_0_r.
  - rewrite add_loop_cons in Hrun. inv_bind Hrun as b1 Hb1.
    inv_bind Hb1 as pos Hpos. inv_bind Hb1 as bit Hbit. injection Hb1 as <-.
    destruct (IH _ Hrun) as [mask Hmask]. exists (Z.lor bit mask). intros c.
    rewrite add_loop_cons, Hpos. simpl. rewrite Hbit. simpl.
    by rewrite Hmask, Z.lor_assoc.
Qed.

Lemma contains_loop_true (bitarr : Z) (hashes : list (outcome Z)) :
  BloomFilter.contains_loop bitarr hashes = Ret true →
  Forall (λ p, ∃ pos, p = Ret pos ∧ 0 ≤ pos ∧ Z.testbit bitarr pos = true) hashes.
Proof.
  induction hashes as [|p hashes IH]; intros Hrun; [constructor|].
  simpl in Hrun. inv_bind Hrun as pos Hpos. inv_bind Hrun as shifted Hshift.
  unfold py_rshift in Hshift. destruct (Z.ltb_spec pos 0); [done|]. simplify_eq.
  rewrite bit_test in Hrun by done.
  destruct (Z.testbit bitarr pos) eqn:Hbit; simpl in Hrun; [|done].
  constructor; [|by apply IH]. by exists pos.
Qed.

Lemma add_loop_set (bitarr : Z) (hashes : list (outcome Z)) :
  Forall (λ p, ∃ pos, p = Ret pos ∧ 0 ≤ pos ∧ Z.testbit bitarr pos = true) hashes →
  BloomFilter.add_loop bitarr hashes = Ret bitarr.
Proof.
  induction 1 as [|p hashes (pos & -> & Hpos & Hbit) _ IH]; [done|].
  rewrite add_loop_cons. simpl. unfold py_lshift.
  destruct (Z.ltb_spec pos 0); [lia|]. simpl.
  replace (Z.lor bitarr (Z.shiftl 1 pos)) with bitarr; [done|].
  apply Z.bits_inj'. intros q _. rewrite bit_set by done.
  case_bool_decide; subst; [by rewrite Hbit|by rewrite orb_false_r].
Qed.

Section BloomAlgebra.
Context `{Digest}.

(** Adding a key the filter already answers for changes nothing. *)
Lemma add_contained (self : BloomFilter.t) (key : string) :
  BloomFilter.contains self key = Ret true → BloomFilter.add self key = Ret self.
Proof.
  intros Hc. unfold BloomFilter.add.
  rewrite (add_loop_set _ _ (contains_loop_true _ _ Hc)). by destruct self.
Qed.

Lemma add_add_comm (self s1 s12 : BloomFilter.t) (key1 key2 : string) :
  BloomFilter.add self key1 = Ret s1 → BloomFilter.add s1 key2 = Ret s12 →
  ∃ s2, BloomFilter.add self key2 = Ret s2 ∧ BloomFilter.add s2 key1 = Ret s12.
Proof.
  unfold BloomFilter.add. intros H1 H2.
  inv_bind H1 as b1 Hb1. injection H1 as <-. simpl in H2.
  inv_bind H2 as b12 Hb12. injection H2 as <-.
  rewrite (hashes_same_params self (BloomFilter.Build _ _ b1)) in Hb12 by done.
  destruct (add_loop_mask _ _ _ Hb1) as [mask1 Hm1].
  destruct (add_loop_mask _ _ _ Hb12) as [mask2 Hm2].
  rewrite Hm1 in Hb1. rewrite Hm2 in Hb12. simplify_eq.
  eexists. rewrite Hm2. simpl. split; [done|].
  rewrite (hashes_same_params self (BloomFilter.Build _ _ _)) by done.
  rewrite Hm1. simpl. do 2 f_equal.
  rewrite <- !Z.lor_assoc. f_equal. apply Z.lor_comm.
Qed.
End BloomAlgebra.

(** ** A fresh filter, and the degenerate round counts *)

Section BloomFresh.
Context `{DigestLength}.

Lemma contains_init (m_bits k : Z) (key : string) :
  0 < m_bits → 0 < k → BloomFilter.contains (BloomFilter.init m_bits k) key = Ret false.
Proof.
  intros Hm Hk. unfold BloomFilter.contains, BloomFilter._hashes. simpl.
  rewrite seqZ_cons by done. rewrite fmap_cons.
  destruct (hash_round_Ret (BloomFilter.init m_bits k) (list_byte_of_string key) 0)
    as (pos & Hpos & Hrange); [done|done|].
  simpl in *. rewrite Hpos. simpl. rewrite py_rshift_nonneg by lia. simpl.
  by rewrite Z.shiftr_0_l.
Qed.

Lemma hash_round_zero_m (self : BloomFilter.t) (key : list byte) (i : Z) :
  BloomFilter.m self = 0 → 0 ≤ i →
  BloomFilter.hash_round self (sha256 key) i = Raise ZeroDivisionError.
Proof.
  intros Hm Hi.
  destruct (hash_round_Ret (BloomFilter.Build 1 (BloomFilter.k self) 0) key i)
    as (pos & Hpos & _); [simpl; lia|done|].
  unfold BloomFilter.hash_round in *. rewrite Hm.
  inv_bind Hpos as start Hstart. rewrite Hstart. simpl.
  inv_bind Hpos as val Hval. rewrite Hval. done.
Qed.
End BloomFresh.

Lemma hashes_no_rounds `{Digest} (self : BloomFilter.t) (key : list byte) :
  BloomFilter.k self ≤ 0 → BloomFilter._hashes self key = [].
Proof. intros Hk. unfold BloomFilter._hashes. by rewrite seqZ_nil by lia. Qed.

(** ** Serialisation *)

Lemma be_digits_length (len : nat) (n : Z) : length (be_digits len n) = len.
Proof.
  revert n. induction len as [|len IH]; intros n; simpl; [done|].
  rewrite length_app, IH. simpl. lia.
Qed.

Lemma int_from_bytes_range (b : list byte) :
  0 ≤ int_from_bytes b < 256 ^ Z.of_nat (length b).
Proof.
  induction b as [|x b IH] using rev_ind; [done|].
  rewrite int_from_bytes_snoc, length_app. simpl.
  pose proof (byte_to_Z_range x).
  replace (Z.of_nat (length b + 1)) with (Z.of_nat (length b) + 1) by lia.
  rewrite Z.pow_add_r by lia. lia.
Qed.

Lemma be_digits_int_from_bytes (b : list byte) :
  be_digits (length b) (int_from_bytes b) = b.
Proof.
  induction b as [|x b IH] using rev_ind; [done|].
  rewrite int_from_bytes_snoc, length_app. simpl.
  pose proof (byte_to_Z_range x).
  replace (length b + 1)%nat with (S (length b)) by lia. simpl.
  rewrite Z.div_add_l by lia. rewrite Z.div_small by lia. rewrite Z.add_0_r, IH.
  rewrite Z.add_comm, Z.mod_add by lia. rewrite Z.mod_small by lia.
  by rewrite byte_of_to_Z.
Qed.

Lemma int_to_bytes_Ret (n length : Z) (b : list byte) :
  int_to_bytes n length = Ret b ↔
  0 ≤ length ∧ 0 ≤ n < 256 ^ length ∧ b = be_digits (Z.to_nat length) n.
Proof.
  unfold int_to_bytes.
  destruct (Z.ltb_spec length 0); [split; [done|lia]|].
  destruct (Z.ltb_spec n 0); [split; [done|lia]|].
  destruct (Z.leb_spec (256 ^ length) n); [split; [done|lia]|].
  split; [intros [= <-]; split_and!; done || lia|by intros (_ & _ & ->)].
Qed.

Lemma to_from_bytes (b : list byte) (m_bits k : Z) :
  Z.of_nat (length b) = (m_bits + 7) `div` 8 →
  BloomFilter.to_bytes (BloomFilter.from_bytes b m_bits k) = Ret b.
Proof.
  intros Hlen. unfold BloomFilter.to_bytes, BloomFilter.from_bytes. simpl.
  apply int_to_bytes_Ret. rewrite <- Hlen, Nat2Z.id.
  split_and!; [lia|apply int_from_bytes_range..|by rewrite be_digits_int_from_bytes].
Qed.

Lemma to_bytes_length (bf : BloomFilter.t) (b : list byte) :
  BloomFilter.to_bytes bf = Ret b →
  Z.of_nat (length b) = (BloomFilter.m bf + 7) `div` 8.
Proof.
  intros (Hlen & _ & ->)%int_to_bytes_Ret. rewrite be_digits_length. lia.
Qed.


(** ** The two-pointer loops on lists that are not sorted *)

(** Whatever the lists, the intersection loop only keeps elements of [a],
    in their order, and each of them occurs in [b]. *)
Lemma intersect_sorted_sublist (a b : list Z) :
  intersect_sorted a b `sublist_of` a ∧ intersect_sorted a b `sublist_of` b.
Proof.
  revert b. induction a as [|x a IHa]; intros b.
  - destruct b; split; apply sublist_nil_l.
  - induction b as [|y b IHb].
    + rewrite intersect_sorted_nil_r. split; apply sublist_nil_l.
    + rewrite intersect_sorted_cons.
      destruct (Z.eqb_spec x y) as [->|Hne].
      * destruct (IHa b). split; by apply sublist_skip.
      * destruct (x <? y).
        -- destruct (IHa (y :: b)). split; [by apply sublist_cons|done].
        -- destruct IHb. split; [done|by apply sublist_cons].
Qed.

Lemma drop_repeats_elem_of (prev : option Z) (l : list Z) (z : Z) :
  z ∈ drop_repeats prev l → z ∈ l.
Proof.
  revert prev. induction l as [|x l IH]; intros prev; simpl; [done|].
  case_decide.
  - intros Hz%IH. by right.
  - rewrite !elem_of_cons. intros [->|Hz%IH]; tauto.
Qed.

Lemma elem_of_drop_repeats (prev : option Z) (l : list Z) (z : Z) :
  z ∈ l → Some z ≠ prev → z ∈ drop_repeats prev l.
Proof.
  revert prev. induction l as [|x l IH]; intros prev; simpl; [by inv 1|].
  rewrite elem_of_cons. intros Hz Hprev. case_decide as Hx.
  - destruct Hz as [->|Hz]; [done|]. by apply IH.
  - destruct (decide (z = x)) as [->|Hne]; [by left|].
    right. destruct Hz as [->|Hz]; [done|]. apply IH; [done|]. by intros [=].
Qed.

(** No element of the output equals the one before it. *)
Lemma drop_repeats_adjacent (prev : option Z) (l : list Z) (i : nat) (x y : Z) :
  drop_repeats prev l !! i = Some x → drop_repeats prev l !! S i = Some y → x ≠ y.
Proof.
  assert (∀ prev l z, head (drop_repeats prev l) = Some z → Some z ≠ prev) as Hhead.
  { clear. intros prev l z. induction l as [|x l IH]; simpl; [done|].
    case_decide; [done|]. simpl. by intros [= ->]. }
  revert prev i. induction l as [|a l IH]; intros prev i; simpl; [done|].
  case_decide; [apply IH|].
  destruct i as [|i]; simpl; [|apply IH].
  intros [= ->] Hy Heq. subst y.
  rewrite <- head_lookup in Hy. by apply Hhead in Hy.
Qed.

Lemma merge_sorted_elem_of (a b : list Z) (z : Z) :
  z ∈ merge_sorted a b ↔ z ∈ a ∨ z ∈ b.
Proof.
  unfold merge_sorted. rewrite <- merge_loop_elem_of. split.
  - apply drop_repeats_elem_of.
  - intros Hz. by apply elem_of_drop_repeats.
Qed.

(** ** Folding the two loops over postings lists *)

Lemma foldl_intersect_sorted (cur : list Z) (rest : list (list Z)) :
  StronglySorted Z.lt cur → Forall (StronglySorted Z.lt) rest →
  StronglySorted Z.lt (foldl intersect_sorted cur rest)
  ∧ ∀ z, z ∈ foldl intersect_sorted cur rest ↔ z ∈ cur ∧ Forall (λ l, z ∈ l) rest.
Proof.
  intros Hcur Hrest. revert cur Hcur.
  induction Hrest as [|l rest Hl _ IH]; intros cur Hcur; simpl.
  - split; [done|]. intros z. split; [by intros ?; split|by intros []].
  - destruct (IH (intersect_sorted cur l)) as [Hs Hmem];
      [by apply intersect_sorted_StronglySorted|].
    split; [done|]. intros z. rewrite Hmem, intersect_sorted_elem_of by done.
    rewrite Forall_cons. tauto.
Qed.

Lemma foldl_merge_sorted (acc : list Z) (unions : list (list Z)) :
  StronglySorted Z.lt acc → Forall (StronglySorted Z.lt) unions →
  StronglySorted Z.lt (foldl merge_sorted acc unions)
  ∧ ∀ z, z ∈ foldl merge_sorted acc unions ↔ z ∈ acc ∨ Exists (λ l, z ∈ l) unions.
Proof.
  intros Hacc Hu. revert acc Hacc.
  induction Hu as [|l unions Hl _ IH]; intros acc Hacc; simpl.
  - split; [done|]. intros z. rewrite Exists_nil. tauto.
  - destruct (IH (merge_sorted acc l)) as [Hs Hmem];
      [by apply merge_sorted_StronglySorted|].
    split; [done|]. intros z. rewrite Hmem, merge_sorted_elem_of, Exists_cons. tauto.
Qed.

Lemma mapM_Ret_fmap {A B} (g : A → outcome B) (f : A → B) (l : list A) :
  (∀ x, x ∈ l → g x = Ret (f x)) → mapM g l = Ret (f <$> l).
Proof.
  induction l as [|x l IH]; intros Hg; simpl; [done|].
  rewrite Hg by left. simpl. rewrite IH; [done|]. intros y Hy. apply Hg. by right.
Qed.

(** ** What [boolean_query] selects *)

Lemma elem_of_required_blocks (chain : list block) (must_have : list string) (b : Z) :
  b ∈ required_blocks chain must_have
  ↔ must_have ≠ [] ∧ Forall (λ k, b ∈ blocks_with chain k) must_have.
Proof.
  destruct must_have as [|k rest]; simpl.
  - rewrite elem_of_nil. tauto.
  - rewrite list_elem_of_filter, Forall_cons. split; [intros []; by split_and!|].
    intros [_ []]. done.
Qed.

Lemma elem_of_optional_blocks (chain : list block) (any_of : list string) (b : Z) :
  b ∈ optional_blocks chain any_of ↔ Exists (λ k, b ∈ blocks_with chain k) any_of.
Proof.
  unfold optional_blocks. rewrite list_elem_of_bind, Exists_exists.
  split; intros (k & ? & ?); by exists k.
Qed.

Section BooleanQueryBuilt.
Context `{DigestLength}.
Variable self : EnhancedIndexer.t.
Variable chain : list block.
Variable st : Store.
Hypothesis bloom_m_pos : 0 < self.(bloom_m).
Hypothesis built : build_index self chain = Ret st.

Lemma boolean_query_built (must_have any_of : list string) :
  boolean_query self st must_have any_of
  = Ret (sorted (elements (set_of (query_blocks chain must_have any_of)))).
Proof.
  set (post := λ key, sorted (elements (set_of (blocks_with chain key)))).
  assert (∀ key, StronglySorted Z.lt (post key)) as Hpost
    by (intros; apply sorted_elements_StronglySorted).
  assert (∀ key b, b ∈ post key ↔ b ∈ blocks_with chain key) as Hin.
  { intros key b. unfold post. rewrite sorted_elements_elem_of.
    unfold set_of. by rewrite elem_of_list_to_set. }
  assert (∀ keys, Forall (StronglySorted Z.lt) (post <$> keys)) as Hposts.
  { intros keys. apply Forall_fmap, Forall_forall. intros key _. apply Hpost. }
  rewrite boolean_query_unfold.
  rewrite !(mapM_Ret_fmap _ post)
    by (intros key _; by apply postings_for_spec).
  simpl. f_equal.
  destruct (foldl_merge_sorted [] (post <$> any_of)) as [Hus Hu];
    [constructor|done|].
  assert (∀ z, z ∈ foldl merge_sorted [] (post <$> any_of)
               ↔ z ∈ optional_blocks chain any_of) as Hu'.
  { intros z. rewrite Hu, elem_of_optional_blocks, Exists_fmap, elem_of_nil.
    rewrite !Exists_exists. setoid_rewrite Hin. simpl. tauto. }
  clear Hu.
  destruct must_have as [|k rest].
  - simpl. apply StronglySorted_lt_ext;
      [done|apply sorted_elements_StronglySorted|].
    intros z. rewrite Hu', sorted_elements_elem_of.
    unfold set_of. by rewrite elem_of_list_to_set.
  - rewrite fmap_cons.
    destruct (foldl_intersect_sorted (post k) (post <$> rest)) as [Hrs Hr];
      [done|done|].
    assert (∀ z, z ∈ foldl intersect_sorted (post k) (post <$> rest)
                 ↔ z ∈ required_blocks chain (k :: rest)) as Hr'.
    { intros z. rewrite Hr, elem_of_required_blocks, Forall_fmap, Hin, Forall_cons.
      rewrite !Forall_forall. setoid_rewrite Hin. simpl.
      split; [intros []; by split_and!|intros [_ []]; done]. }
    clear Hr. unfold query_blocks.
    destruct (foldl merge_sorted [] (post <$> any_of)) as [|u us] eqn:Hany.
    + rewrite decide_True.
      * apply StronglySorted_lt_ext;
          [done|apply sorted_elements_StronglySorted|].
        intros z. rewrite Hr', sorted_elements_elem_of.
        unfold set_of. by rewrite elem_of_list_to_set.
      * destruct (optional_blocks chain any_of) as [|z l] eqn:Hopt; [done|].
        specialize (Hu' z). rewrite elem_of_nil, elem_of_cons in Hu'. tauto.
    + rewrite decide_False.
      * apply StronglySorted_lt_ext;
          [by apply intersect_sorted_StronglySorted
          |apply sorted_elements_StronglySorted|].
        intros z. rewrite intersect_sorted_elem_of, Hr', Hu' by done.
        rewrite sorted_elements_elem_of. unfold set_of.
        rewrite elem_of_list_to_set, list_elem_of_filter. tauto.
      * intros Hopt. specialize (Hu' u). rewrite Hopt, elem_of_nil, elem_of_cons in Hu'.
        tauto.
Qed.
End BooleanQueryBuilt.


Lemma elem_of_query_blocks (chain : list block) (must_have any_of : list string) (b : Z) :
  b ∈ query_blocks chain must_have any_of
  ↔ (must_have = [] ∧ b ∈ optional_blocks chain any_of)
    ∨ (b ∈ required_blocks chain must_have
       ∧ ((∀ z, z ∉ optional_blocks chain any_of) ∨ b ∈ optional_blocks chain any_of)).
Proof.
  unfold query_blocks. destruct must_have as [|k rest].
  - rewrite elem_of_required_blocks. split; [by left|]. intros [[]|[[] _]]; done.
  - case_decide as Hopt.
    + rewrite Hopt. split.
      * intros Hb. right. split; [done|]. left. intros z. apply not_elem_of_nil.
      * intros [[]|[]]; done.
    + rewrite list_elem_of_filter. split.
      * intros []. right. split; [done|]. by right.
      * intros [[]|[Hb [Hno|]]]; [done| |done].
        destruct (optional_blocks chain any_of) as [|z l]; [done|].
        destruct (Hno z). by left.
Qed.

(** The selection depends on the batch and on the two key lists only
    through the elements they have. *)
Lemma query_blocks_ext (chain chain' : list block) (must_have must_have' : list string)
    (any_of any_of' : list string) :
  (∀ blk, blk ∈ chain ↔ blk ∈ chain') →
  (∀ key, key ∈ must_have ↔ key ∈ must_have') →
  (∀ key, key ∈ any_of ↔ key ∈ any_of') →
  set_of (query_blocks chain must_have any_of)
  = set_of (query_blocks chain' must_have' any_of').
Proof.
  intros Hchain Hmust Hany.
  assert (∀ key b, b ∈ blocks_with chain key ↔ b ∈ blocks_with chain' key) as Hwith.
  { intros key b. rewrite !elem_of_blocks_with. by setoid_rewrite Hchain. }
  assert (∀ b, b ∈ optional_blocks chain any_of ↔ b ∈ optional_blocks chain' any_of')
    as Hopt.
  { intros b. rewrite !elem_of_optional_blocks, !Exists_exists.
    setoid_rewrite Hany. by setoid_rewrite Hwith. }
  assert (must_have = [] ↔ must_have' = []) as Hnil.
  { destruct must_have as [|k l], must_have' as [|k' l']; [done| | |done].
    - specialize (Hmust k'). rewrite elem_of_nil, elem_of_cons in Hmust. tauto.
    - specialize (Hmust k). rewrite elem_of_nil, elem_of_cons in Hmust. tauto. }
  assert (∀ b, b ∈ required_blocks chain must_have ↔ b ∈ required_blocks chain' must_have')
    as Hreq.
  { intros b. rewrite !elem_of_required_blocks, !Forall_forall.
    setoid_rewrite Hmust. setoid_rewrite Hwith. tauto. }
  unfold set_of. apply set_eq. intros b.
  rewrite !elem_of_list_to_set, !elem_of_query_blocks.
  setoid_rewrite Hopt. rewrite Hreq, Hnil. done.
Qed.

(** ** [naive_boolean] *)

Lemma naive_keep_true (must_have any_of : list string) (blk : block) :
  naive_keep must_have any_of blk = true
  ↔ Forall (λ k, k ∈ block_keys blk) must_have
    ∧ (any_of = [] ∨ Exists (λ k, k ∈ block_keys blk) any_of)
    ∧ (must_have ≠ [] ∨ any_of ≠ []).
Proof.
  unfold naive_keep.
  set (present := list_to_set _ : gset string).
  assert (forallb (λ k, bool_decide (k ∈ present)) must_have = true
          ↔ Forall (λ k, k ∈ block_keys blk) must_have) as Hall.
  { rewrite forallb_forall, Forall_forall. unfold present.
    setoid_rewrite bool_decide_eq_true. setoid_rewrite elem_of_list_to_set.
    setoid_rewrite list_elem_of_filter. setoid_rewrite <- list_elem_of_In.
    split; intros Hk k Hin; specialize (Hk k Hin); tauto. }
  assert (existsb (λ k, bool_decide (k ∈ present)) any_of = true
          ↔ Exists (λ k, k ∈ block_keys blk) any_of) as Hex.
  { rewrite existsb_exists, Exists_exists. unfold present.
    setoid_rewrite bool_decide_eq_true. setoid_rewrite elem_of_list_to_set.
    setoid_rewrite list_elem_of_filter. setoid_rewrite <- list_elem_of_In.
    split; intros (k & Hin & Hk); exists k; tauto. }
  destruct (forallb _ must_have); destruct (existsb _ any_of);
    destruct must_have as [|m ms]; destruct any_of as [|a as_]; simpl;
    rewrite ?bool_decide_eq_true in *;
    (split; [intros Hkeep; try discriminate Hkeep|intros (Hm & Ha & Hne)]);
    try (split_and!; first [by auto | by apply Hall | by right; apply Hex
                           | by left | by constructor]);
    try tauto; try (apply Hall in Hm; discriminate Hm);
    try (destruct Ha as [Ha|Ha]; [discriminate Ha|apply Hex in Ha; discriminate Ha]);
    try (destruct Hne as [Hne|Hne]; by destruct Hne).
Qed.

Lemma elem_of_naive_boolean (chain : list block) (must_have any_of : list string) (b : Z) :
  b ∈ naive_boolean chain must_have any_of
  ↔ ∃ blk, blk ∈ chain ∧ blk.(block_number) = b
           ∧ Forall (λ k, k ∈ block_keys blk) must_have
           ∧ (any_of = [] ∨ Exists (λ k, k ∈ block_keys blk) any_of)
           ∧ (must_have ≠ [] ∨ any_of ≠ []).
Proof.
  unfold naive_boolean. rewrite list_elem_of_fmap.
  setoid_rewrite list_elem_of_filter. setoid_rewrite naive_keep_true.
  split; [intros (blk & -> & ? & ?)|intros (blk & ? & <- & ?)]; exists blk; tauto.
Qed.

Lemma NoDup_fmap_inj_on {A B} (f : A → B) (l : list A) (x y : A) :
  NoDup (f <$> l) → x ∈ l → y ∈ l → f x = f y → x = y.
Proof.
  induction l as [|z l IH]; [by inv 2|].
  rewrite fmap_cons, NoDup_cons, !elem_of_cons, list_elem_of_fmap.
  intros [Hz Hl] [->|Hx] [->|Hy] Heq; [done| | |by apply IH].
  - destruct Hz. by exists y.
  - destruct Hz. by exists x.
Qed.

Lemma naive_boolean_NoDup (chain : list block) (must_have any_of : list string) :
  NoDup (block_number <$> chain) → NoDup (naive_boolean chain must_have any_of).
Proof.
  intros Hnd. unfold naive_boolean. eapply sublist_NoDup; [done|].
  apply fmap_sublist, sublist_filter.
Qed.

Lemma naive_boolean_StronglySorted (chain : list block) (must_have any_of : list string) :
  StronglySorted Z.lt (block_number <$> chain) →
  StronglySorted Z.lt (naive_boolean chain must_have any_of).
Proof.
  intros Hs. unfold naive_boolean.
  induction chain as [|blk chain IH]; [constructor|].
  rewrite fmap_cons in Hs. apply StronglySorted_inv in Hs as [Hs Hall].
  rewrite filter_cons. case_decide; [|by apply IH].
  rewrite fmap_cons. constructor; [by apply IH|].
  rewrite Forall_forall in Hall |- *. intros b Hb. apply Hall.
  apply list_elem_of_fmap in Hb as (blk' & -> & Hblk'%list_elem_of_filter).
  apply list_elem_of_fmap. exists blk'. tauto.
Qed.

(** On a batch whose block numbers are distinct, the blocks [naive_boolean]
    keeps are those [boolean_query] selects, [any_of] being dropped when
    none of its keys is indexed. *)
Lemma naive_boolean_query_blocks (chain : list block) (must_have any_of : list string)
    (b : Z) :
  NoDup (block_number <$> chain) →
  b ∈ naive_boolean chain must_have
        (if decide (optional_blocks chain any_of = []) then [] else any_of)
  ↔ b ∈ query_blocks chain must_have any_of.
Proof.
  intros Hnd.
  assert (∀ any, b ∈ optional_blocks chain any
                 ↔ ∃ blk, blk ∈ chain ∧ blk.(block_number) = b
                          ∧ Exists (λ k, k ∈ block_keys blk) any) as Hopt.
  { intros any. rewrite elem_of_optional_blocks, !Exists_exists.
    setoid_rewrite elem_of_blocks_with. setoid_rewrite Exists_exists.
    split; [intros (k & ? & blk & ? & ? & ?)|intros (blk & ? & ? & k & ? & ?)];
      [exists blk; split_and!; [done..|by exists k]
      |exists k; split; [done|by exists blk]]. }
  assert (b ∈ required_blocks chain must_have
          ↔ must_have ≠ []
            ∧ ∃ blk, blk ∈ chain ∧ blk.(block_number) = b
                     ∧ Forall (λ k, k ∈ block_keys blk) must_have) as Hreq.
  { rewrite elem_of_required_blocks. split.
    - intros [Hne Hall]. split; [done|]. destruct must_have as [|k rest]; [done|].
      pose proof (Forall_inv Hall) as Hfirst.
      apply elem_of_blocks_with in Hfirst as (blk & Hblk & Hb & Hk).
      exists blk. split_and!; [done..|].
      rewrite Forall_forall in Hall |- *. intros k' Hk'.
      pose proof (Hall k' Hk') as Hother.
      apply elem_of_blocks_with in Hother as (blk' & Hblk' & Hb' & Hin).
      assert (blk' = blk) as -> by (eapply NoDup_fmap_inj_on; [done..|congruence]).
      done.
    - intros (Hne & blk & Hblk & Hb & Hall). split; [done|].
      rewrite Forall_forall in Hall |- *. intros k Hk.
      apply elem_of_blocks_with. exists blk. auto. }
  rewrite elem_of_naive_boolean, elem_of_query_blocks, Hreq, Hopt.
  case_decide as Hnone.
  - assert (∀ z, z ∉ optional_blocks chain any_of) as Hno
      by (intros z; rewrite Hnone; apply not_elem_of_nil).
    split.
    + intros (blk & Hblk & Hb & Hall & _ & [Hne|]); [|done].
      right. split; [|by left]. split; [done|]. by exists blk.
    + intros [[_ (blk & Hblk & Hb & Hex)]|[[Hne (blk & Hblk & Hb & Hall)] _]].
      * destruct (Hno b). apply Hopt. by exists blk.
      * exists blk. split_and!; [done..|by left|by left].
  - assert (any_of ≠ []) as Hany by (by intros ->).
    split.
    + intros (blk & Hblk & Hb & Hall & [|Hex] & _); [done|].
      destruct must_have as [|k rest].
      * left. split; [done|]. by exists blk.
      * right. split; [split; [done|by exists blk]|]. right. by exists blk.
    + intros [[-> (blk & Hblk & Hb & Hex)]
             |[[Hne (blk & Hblk & Hb & Hall)] [Hno|(blk' & Hblk' & Hb' & Hex)]]].
      * exists blk. split_and!; [done..|constructor|by right|by right].
      * destruct (optional_blocks chain any_of) as [|z l]; [done|].
        destruct (Hno z). by left.
      * assert (blk' = blk) as -> by (eapply NoDup_fmap_inj_on; [done..|congruence]).
        exists blk. split_and!; [done..|by right|by right].
Qed.

Section NaiveBuilt.
Context `{DigestLength}.
Variable self : EnhancedIndexer.t.
Variable chain : list block.
Variable st : Store.
Hypothesis bloom_m_pos : 0 < self.(bloom_m).
Hypothesis built : build_index self chain = Ret st.

Lemma boolean_query_naive (must_have any_of : list string) :
  NoDup (block_number <$> chain) →
  boolean_query self st must_have any_of
  = Ret (sorted (naive_boolean chain must_have
                   (if decide (optional_blocks chain any_of = []) then [] else any_of))).
Proof.
  intros Hnd. rewrite (boolean_query_built self chain) by done. f_equal.
  apply StronglySorted_lt_ext.
  - apply sorted_elements_StronglySorted.
  - apply StronglySorted_lt_le_NoDup. split; [apply sorted_Sorted|].
    by apply sorted_NoDup, naive_boolean_NoDup.
  - intros b. rewrite sorted_elements_elem_of, sorted_elem_of.
    unfold set_of. rewrite elem_of_list_to_set.
    by rewrite naive_boolean_query_blocks.
Qed.
End NaiveBuilt.


(** ** The rows of a built store *)

Lemma block_keys_nonempty (blk : block) :
  blk.(transactions) ≠ [] ↔ ∃ key, key ∈ block_keys blk.
Proof.
  split.
  - destruct (transactions blk) as [|t ts] eqn:Htx; [done|]. intros _.
    exists (tx_from t). apply elem_of_block_keys. exists t.
    rewrite Htx. split; [by left|]. unfold tx_keys. by left.
  - intros (key & (t & Ht & _)%elem_of_block_keys) Hnil.
    rewrite Hnil in Ht. by apply elem_of_nil in Ht.
Qed.

Section ShardTable.
Context `{Digest}.
Variable self : EnhancedIndexer.t.

Lemma index_key_nonempty (sid blknum : Z) (st st' : build_state) (key : string) :
  index_key sid blknum st key = Ret st' →
  (∀ sid pm, st.1 !! sid = Some pm → pm ≠ ∅) →
  ∀ sid pm, st'.1 !! sid = Some pm → pm ≠ ∅.
Proof.
  destruct st as [sp sb]. unfold index_key. intros Hrun Hinv sid' pm' Hpm'.
  destruct (sb !! sid) as [bf|]; [|done].
  inv_bind Hrun as bf1 Hadd. simplify_eq. simpl in *.
  destruct (decide (sid' = sid)) as [->|Hsid].
  - rewrite lookup_insert_eq in Hpm'. simplify_eq. apply insert_non_empty.
  - rewrite lookup_insert_ne in Hpm' by done. by eapply Hinv.
Qed.

Lemma index_chain_nonempty (chain : list block) (st : build_state) :
  foldlM (index_block self) (∅, ∅) chain = Ret st →
  ∀ sid pm, st.1 !! sid = Some pm → pm ≠ ∅.
Proof.
  apply (foldlM_ind (λ st : build_state, ∀ sid pm, st.1 !! sid = Some pm → pm ≠ ∅)).
  - intros [sp sb] blk st2 _ Hinv Hstep. unfold index_block in Hstep.
    inv_bind Hstep as sid Hsid. revert Hstep.
    apply (foldlM_ind (λ st : build_state, ∀ sid pm, st.1 !! sid = Some pm → pm ≠ ∅));
      [|done].
    intros st3 t st4 _ Hinv3.
    apply (foldlM_ind (λ st : build_state, ∀ sid pm, st.1 !! sid = Some pm → pm ≠ ∅));
      [|done].
    intros st5 key st6 _ Hinv5 Hkey. by eapply index_key_nonempty.
  - intros sid pm Hpm. simpl in Hpm. by rewrite lookup_empty in Hpm.
Qed.

(** Every row of the shards table was written for a shard with pending
    postings, from the shard's number and its bloom filter. *)
Lemma flush_shards_sound (sp : gmap Z (gmap string (list Z)))
    (sb : gmap Z BloomFilter.t) (st : Store) :
  foldlM (flush_shard self sb) empty_store (map_to_list sp) = Ret st →
  ∀ sid row, shards st !! sid = Some row →
    ∃ pm bf bloom_bytes,
      sp !! sid = Some pm ∧ sb !! sid = Some bf
      ∧ BloomFilter.to_bytes bf = Ret bloom_bytes
      ∧ row = (sid * self.(shard_size),
               sid * self.(shard_size) + self.(shard_size) - 1, bloom_bytes).
Proof.
  apply (foldlM_ind (λ st, ∀ sid row, shards st !! sid = Some row →
           ∃ pm bf bloom_bytes,
             sp !! sid = Some pm ∧ sb !! sid = Some bf
             ∧ BloomFilter.to_bytes bf = Ret bloom_bytes
             ∧ row = (sid * self.(shard_size),
                      sid * self.(shard_size) + self.(shard_size) - 1, bloom_bytes))).
  - intros st1 [sid pm] st2 Hentry%elem_of_map_to_list Hinv Hstep sid' row Hrow.
    unfold flush_shard in Hstep. destruct (sb !! sid) as [bf|] eqn:Hbf; [|done].
    inv_bind Hstep as bloom_bytes Hbytes. inv_bind Hstep as st3 Hshard.
    unfold insert_shard in Hshard. destruct (shards st1 !! sid); simplify_eq.
    apply flush_postings_fold in Hstep as [Hshards _]. simpl in Hshards.
    rewrite Hshards in Hrow. destruct (decide (sid' = sid)) as [->|Hne].
    + rewrite lookup_insert_eq in Hrow. simplify_eq. by exists pm, bf, bloom_bytes.
    + rewrite lookup_insert_ne in Hrow by done. by apply Hinv.
  - intros sid row Hrow. simpl in Hrow. by rewrite lookup_empty in Hrow.
Qed.

Variable chain : list block.
Variable st : Store.
Hypothesis built : build_index self chain = Ret st.

Lemma build_index_shard_row (sid : Z) (row : Z * Z * list byte) :
  shards st !! sid = Some row →
  row.1.1 = sid * self.(shard_size)
  ∧ row.1.2 = sid * self.(shard_size) + self.(shard_size) - 1
  ∧ Z.of_nat (length row.2) = (self.(bloom_m) + 7) `div` 8
  ∧ ∃ blk, blk ∈ chain ∧ blk.(transactions) ≠ []
           ∧ blk.(block_number) `div` self.(shard_size) = sid.
Proof.
  intros Hrow. pose proof built as Hrun. unfold build_index in Hrun.
  inv_bind Hrun as bst Hbst. destruct bst as [sp sb].
  destruct (flush_shards_sound _ _ _ Hrun _ _ Hrow)
    as (pm & bf & bloom_bytes & Hpm & Hbf & Hbytes & ->).
  destruct (index_chain_complete self chain _ Hbst) as [Hconf _].
  destruct (Hconf _ _ Hbf) as [Hm _]. simpl.
  split_and!; [done|done|by rewrite (to_bytes_length _ _ Hbytes), Hm|].
  pose proof (index_chain_nonempty _ _ Hbst _ _ Hpm) as Hne. simpl in Hne.
  destruct (map_choose pm Hne) as (key & blocks & Hblocks).
  destruct (index_chain_sound self chain _ Hbst _ _ _ _ Hpm Hblocks) as [Hsome Hall].
  destruct blocks as [|b blocks]; [done|].
  apply Forall_inv in Hall as [Hsid (blk & Hblk & <- & Hkey)%elem_of_blocks_with].
  exists blk. split_and!; [done| |done]. apply block_keys_nonempty. by exists key.
Qed.

Lemma build_index_shard_row_exists (blk : block) :
  blk ∈ chain → blk.(transactions) ≠ [] →
  is_Some (shards st !! (blk.(block_number) `div` self.(shard_size))).
Proof.
  intros Hblk [key Hkey]%block_keys_nonempty.
  destruct (build_index_complete self chain st blk key built Hblk Hkey)
    as (blob & _ & Hrow & _).
  unfold shard_rows in Hrow.
  apply list_elem_of_fmap in Hrow as ([sid row] & [= <- _] & Hin%elem_of_map_to_list).
  by exists row.
Qed.

(** What the postings row of a key and a shard decodes to. *)
Lemma shard_fetch_exact (key : string) (sid : Z) :
  shard_fetch (postings st) key sid
  = Ret (sorted (elements (set_of
           (filter (λ b, b `div` self.(shard_size) = sid) (blocks_with chain key))))).
Proof.
  destruct (shard_fetch_built self chain st key sid built) as (l & Hl & Hsorted & Hsound).
  rewrite Hl. f_equal.
  apply StronglySorted_lt_ext; [done|apply sorted_elements_StronglySorted|].
  intros b. rewrite sorted_elements_elem_of. unfold set_of.
  rewrite elem_of_list_to_set, list_elem_of_filter. split.
  - intros Hb. by apply Hsound.
  - intros [<- (blk & Hblk & <- & Hkey)%elem_of_blocks_with].
    destruct (build_index_complete self chain st blk key built Hblk Hkey)
      as (_ & blocks & _ & _ & Hfetch & Hin).
    rewrite Hl in Hfetch. injection Hfetch as ->.
    apply sorted_elements_elem_of. unfold set_of. by apply elem_of_list_to_set.
Qed.

Lemma build_index_postings_row (key : string) (sid : Z) :
  is_Some (postings st !! (key, sid))
  ↔ ∃ blk, blk ∈ chain ∧ key ∈ block_keys blk
           ∧ blk.(block_number) `div` self.(shard_size) = sid.
Proof.
  pose proof built as Hrun. unfold build_index in Hrun.
  inv_bind Hrun as bst Hbst. destruct bst as [sp sb]. split.
  - intros [blob Hrow].
    destruct (build_index_sound self chain st built) as (sp' & Hsound & Htable).
    destruct (Htable _ _ _ Hrow) as (pm & blocks & Hpm & Hblocks & _).
    destruct (Hsound _ _ _ _ Hpm Hblocks) as [Hsome Hall].
    destruct blocks as [|b blocks]; [done|].
    apply Forall_inv in Hall as [Hsid (blk & Hblk & <- & Hkey)%elem_of_blocks_with].
    by exists blk.
  - intros (blk & Hblk & Hkey & <-).
    destruct (index_chain_complete self chain _ Hbst) as [_ Hrec].
    destruct (Hrec blk key Hblk Hkey) as (pm & blocks & bf & Hpm & Hblocks & _).
    simpl in *.
    destruct (flush_complete self sp sb st _ pm Hrun Hpm) as [_ Hpostings].
    destruct (Hpostings _ _ Hblocks) as (blob & _ & Hpost). by exists blob.
Qed.

End ShardTable.

(** ** When a build returns *)


(** A batch without transactions leaves the store empty. *)
Lemma build_index_no_transactions `{Digest} (self : EnhancedIndexer.t)
    (chain : list block) :
  self.(shard_size) ≠ 0 →
  Forall (λ blk, blk.(transactions) = []) chain →
  build_index self chain = Ret empty_store.
Proof.
  intros Hsize Hall. unfold build_index.
  assert (∀ sb, ∃ sb', foldlM (index_block self) (∅, sb) chain = Ret (∅, sb')) as Hrun.
  { induction Hall as [|blk chain Hblk _ IH]; intros sb; [by exists sb|].
    assert (∃ sb1, index_block self (∅, sb) blk = Ret (∅, sb1)) as [sb1 Hstep].
    { unfold index_block, py_floordiv.
      destruct (Z.eqb_spec (shard_size self) 0); [done|]. simpl. rewrite Hblk. simpl.
      by eexists. }
    rewrite foldlM_cons, Hstep. simpl. apply IH. }
  destruct (Hrun ∅) as [sb' ->]. simpl. by rewrite map_to_list_empty.
Qed.

Lemma build_index_zero_shard_size `{Digest} (self : EnhancedIndexer.t)
    (chain : list block) :
  self.(shard_size) = 0 → chain ≠ [] →
  build_index self chain = Raise ZeroDivisionError.
Proof.
  intros Hsize Hne. destruct chain as [|blk chain]; [done|].
  assert (index_block self (∅, ∅) blk = Raise ZeroDivisionError) as Hstep
    by (unfold index_block, py_floordiv; by rewrite Hsize).
  unfold build_index. by rewrite foldlM_cons, Hstep.
Qed.

Lemma build_index_zero_bloom_m `{DigestLength} (self : EnhancedIndexer.t)
    (blk : block) (chain : list block) :
  self.(shard_size) ≠ 0 → self.(bloom_m) = 0 → 0 < self.(bloom_k) →
  blk.(transactions) ≠ [] →
  build_index self (blk :: chain) = Raise ZeroDivisionError.
Proof.
  intros Hsize Hm Hk Htx.
  assert (∀ key, BloomFilter.add (BloomFilter.init 0 (bloom_k self)) key
                 = Raise ZeroDivisionError) as Hadd.
  { intros key. unfold BloomFilter.add, BloomFilter._hashes. simpl.
    rewrite seqZ_cons by done. rewrite fmap_cons, add_loop_cons.
    by rewrite (hash_round_zero_m (BloomFilter.init 0 _)). }
  assert (index_block self (∅, ∅) blk = Raise ZeroDivisionError) as Hstep.
  { unfold index_block, py_floordiv.
    destruct (Z.eqb_spec (shard_size self) 0); [done|]. simpl.
    rewrite lookup_empty, Hm.
    destruct (transactions blk) as [|t ts]; [done|].
    rewrite foldlM_cons.
    assert (∀ st, st.2 !! (block_number blk `div` shard_size self)
                  = Some (BloomFilter.init 0 (bloom_k self)) →
                  index_tx (block_number blk `div` shard_size self)
                    (block_number blk) st t = Raise ZeroDivisionError) as Htx1.
    { intros [sp sb] Hsb. simpl in Hsb.
      assert (index_key (block_number blk `div` shard_size self) (block_number blk)
                (sp, sb) (tx_from t) = Raise ZeroDivisionError) as Hkey
        by (unfold index_key; by rewrite Hsb, Hadd).
      unfold index_tx, tx_keys. simpl app. by rewrite foldlM_cons, Hkey. }
    rewrite Htx1; [done|]. simpl. by rewrite lookup_insert_eq. }
  unfold build_index. by rewrite foldlM_cons, Hstep.
Qed.

(** ** Queries on the empty store *)

Lemma postings_for_empty_store `{Digest} (self : EnhancedIndexer.t) (key : string) :
  postings_for self empty_store key = Ret [].
Proof. done. Qed.

Lemma boolean_query_empty_store `{Digest} (self : EnhancedIndexer.t)
    (must_have any_of : list string) :
  boolean_query self empty_store must_have any_of = Ret [].
Proof.
  rewrite boolean_query_unfold.
  rewrite !(mapM_Ret_fmap _ (λ _, [])) by done. simpl.
  assert (∀ keys : list string, foldl merge_sorted [] ((λ _, []) <$> keys) = []) as ->
    by (induction keys; done).
  destruct must_have as [|k rest]; simpl; [done|]. f_equal.
  induction rest as [|k' rest IH]; done.
Qed.


(** ** How the decoder ends *)

Lemma varint_decode_stream_end (b : list byte) :
  (varint_decode_stream b).2 = StopIteration
  ↔ b = [] ∨ ∃ x, last b = Some x ∧ ¬ continues x.
Proof.
  split.
  - intros Hend. destruct (last b) as [x|] eqn:Hlast.
    + right. exists x. split; [done|]. intros Hx.
      unfold varint_decode_stream in Hend.
      by rewrite (varint_decode_from_truncated b x Hlast Hx) in Hend.
    + left. by apply last_None.
  - intros [->|(x & Hlast & Hx)]; [done|]. by apply varint_decode_from_complete with x.
Qed.

Lemma decompress_postings_Ret (b : list byte) (l : list Z) :
  decompress_postings b = Ret l →
  (varint_decode_stream b).2 = StopIteration
  ∧ l = running_sum 0 (varint_decode_stream b).1.
Proof.
  unfold decompress_postings. destruct (varint_decode_stream b) as [ds []]; [|done].
  by intros [= <-].
Qed.

(** ** The rounds of [_hashes] repeat *)

Section Period.
Context `{DigestLength}.

Lemma hash_round_period (self : BloomFilter.t) (key : list byte) (i : Z) :
  BloomFilter.hash_round self (sha256 key) i
  = BloomFilter.hash_round self (sha256 key) (i `mod` 25).
Proof.
  unfold BloomFilter.hash_round, py_mod. rewrite digest_length. simpl.
  change (Z.of_nat 32 - 7) with 25. by rewrite (Z.mul_mod_idemp_l i 8 25).
Qed.

Lemma hashes_period (self : BloomFilter.t) (key : list byte) :
  25 ≤ BloomFilter.k self →
  ∃ more,
    BloomFilter._hashes self key
    = BloomFilter._hashes
        (BloomFilter.Build (BloomFilter.m self) 25 (BloomFilter.bitarr self)) key ++ more
    ∧ ∀ p, p ∈ more →
        p ∈ BloomFilter._hashes
              (BloomFilter.Build (BloomFilter.m self) 25 (BloomFilter.bitarr self)) key.
Proof.
  intros Hk. unfold BloomFilter._hashes.
  set (self25 := BloomFilter.Build _ 25 _).
  assert (BloomFilter.hash_round self25 (sha256 key)
          = BloomFilter.hash_round self (sha256 key)) as -> by done.
  change (BloomFilter.k self25) with 25.
  exists (BloomFilter.hash_round self (sha256 key) <$> seqZ 25 (BloomFilter.k self - 25)).
  split.
  - replace (BloomFilter.k self) with (25 + (BloomFilter.k self - 25)) at 1 by lia.
    rewrite seqZ_app by lia. by rewrite fmap_app.
  - intros p (i & -> & Hi)%list_elem_of_fmap. apply list_elem_of_fmap.
    exists (i `mod` 25). split; [by rewrite hash_round_period|].
    apply elem_of_seqZ. pose proof (Z.mod_pos_bound i 25). lia.
Qed.
End Period.

Lemma contains_loop_app (bitarr : Z) (l1 l2 : list (outcome Z)) :
  BloomFilter.contains_loop bitarr (l1 ++ l2)
  = match BloomFilter.contains_loop bitarr l1 with
    | Ret true => BloomFilter.contains_loop bitarr l2
    | other => other
    end.
Proof.
  induction l1 as [|p l1 IH]; simpl; [done|].
  destruct p as [pos| |]; simpl; [|done..].
  destruct (py_rshift bitarr pos) as [shifted| |]; simpl; [|done..].
  by destruct (Z.land shifted 1 =? 0).
Qed.

Lemma add_loop_app (bitarr : Z) (l1 l2 : list (outcome Z)) :
  BloomFilter.add_loop bitarr (l1 ++ l2)
  = BloomFilter.add_loop bitarr l1 ≫= λ bitarr', BloomFilter.add_loop bitarr' l2.
Proof. apply foldlM_app. Qed.

Lemma Forall_set_more (bitarr : Z) (l more : list (outcome Z)) :
  Forall (λ p, ∃ pos, p = Ret pos ∧ 0 ≤ pos ∧ Z.testbit bitarr pos = true) l →
  (∀ p, p ∈ more → p ∈ l) →
  Forall (λ p, ∃ pos, p = Ret pos ∧ 0 ≤ pos ∧ Z.testbit bitarr pos = true) more.
Proof.
  rewrite !Forall_forall. intros Hl Hmore p Hp. by apply Hl, Hmore.
Qed.

(** ** The instance that queries *)

(** A query reads the bloom parameters of its instance and nothing else
    of it. *)
Lemma postings_for_same_bloom `{Digest} (self self' : EnhancedIndexer.t) (st : Store)
    (key : string) :
  self'.(bloom_m) = self.(bloom_m) → self'.(bloom_k) = self.(bloom_k) →
  postings_for self' st key = postings_for self st key.
Proof.
  destruct self, self'. simpl. by intros -> ->.
Qed.

Lemma boolean_query_same_bloom `{Digest} (self self' : EnhancedIndexer.t) (st : Store)
    (must_have any_of : list string) :
  self'.(bloom_m) = self.(bloom_m) → self'.(bloom_k) = self.(bloom_k) →
  boolean_query self' st must_have any_of = boolean_query self st must_have any_of.
Proof.
  destruct self, self'. simpl. by intros -> ->.
Qed.

(** ** [boolean_query] and [naive_boolean] *)

Lemma naive_boolean_any_of (chain : list block) (must_have any_of : list string) (b : Z) :
  must_have = [] ∨ any_of = [] ∨ optional_blocks chain any_of ≠ [] →
  b ∈ naive_boolean chain must_have
        (if decide (optional_blocks chain any_of = []) then [] else any_of)
  ↔ b ∈ naive_boolean chain must_have any_of.
Proof.
  intros Hcase. case_decide as Hnone; [|done].
  destruct Hcase as [->|[->|]]; [|done..].
  rewrite !elem_of_naive_boolean. split.
  - intros (blk & _ & _ & _ & _ & [|]); done.
  - intros (blk & Hblk & Hb & _ & [->|Hex] & Hne); [by destruct Hne|].
    assert (b ∈ optional_blocks chain any_of) as Hin.
    { apply elem_of_optional_blocks. apply Exists_exists in Hex as (k & Hk & Hkey).
      apply Exists_exists. exists k. split; [done|].
      apply elem_of_blocks_with. by exists blk. }
    rewrite Hnone in Hin. by apply elem_of_nil in Hin.
Qed.

Section NaiveAgrees.
Context `{DigestLength}.
Variable self : EnhancedIndexer.t.
Variable chain : list block.
Variable st : Store.
Hypothesis bloom_m_pos : 0 < self.(bloom_m).
Hypothesis built : build_index self chain = Ret st.

Lemma boolean_query_naive_agrees (must_have any_of : list string) :
  NoDup (block_number <$> chain) →
  must_have = [] ∨ any_of = [] ∨ optional_blocks chain any_of ≠ [] →
  boolean_query self st must_have any_of
  = Ret (sorted (naive_boolean chain must_have any_of)).
Proof.
  intros Hnd Hcase. rewrite (boolean_query_naive self chain) by done. f_equal.
  apply StronglySorted_lt_ext.
  - apply StronglySorted_lt_le_NoDup. split; [apply sorted_Sorted|].
    by apply sorted_NoDup, naive_boolean_NoDup.
  - apply StronglySorted_lt_le_NoDup. split; [apply sorted_Sorted|].
    by apply sorted_NoDup, naive_boolean_NoDup.
  - intros b. rewrite !sorted_elem_of. by apply naive_boolean_any_of.
Qed.
End NaiveAgrees.

(** ** The endpoint *)

Lemma StronglySorted_take {A} (R : relation A) (n : nat) (l : list A) :
  StronglySorted R l → StronglySorted R (take n l).
Proof.
  intros Hs. revert n. induction Hs as [|x l Hs IH Hall]; intros [|n]; simpl;
    try constructor; [apply IH|by apply Forall_take].
Qed.

Lemma sorted_elements_length (s : gset Z) : length (sorted (elements s)) = size s.
Proof. by rewrite (Permutation_length (sorted_Permutation _)). Qed.

Lemma query_built `{DigestLength} (builder : EnhancedIndexer.t) (chain : list block)
    (db : Store) (req : FastapiServer.QueryRequest) :
  builder.(bloom_m) = 8192 → builder.(bloom_k) = 6 →
  build_index builder chain = Ret db →
  FastapiServer.query db req
  = FastapiServer.Body
      {| FastapiServer.count :=
           Z.of_nat (size (set_of (query_blocks chain req.(FastapiServer.must_have)
                                     req.(FastapiServer.any_of))));
         FastapiServer.blocks :=
           take 200 (sorted (elements (set_of
             (query_blocks chain req.(FastapiServer.must_have)
                req.(FastapiServer.any_of))))) |}.
Proof.
  intros Hm Hk Hbuilt. unfold FastapiServer.query.
  rewrite (boolean_query_same_bloom builder FastapiServer.INDEX) by done.
  rewrite (boolean_query_built builder chain) by (done || lia).
  by rewrite sorted_elements_length.
Qed.


(** * Main results *)

(** Decides a closed decidable proposition by evaluation. *)
Ltac by_compute := refine (bool_decide_unpack _ _); vm_compute; exact I.

Lemma example_digest_length : @DigestLength example_digest.
Proof.
  intros key. unfold sha256, example_digest.
  rewrite length_take, length_app, length_replicate. lia.
Qed.

(** C1: what [boolean_query] does when both key lists are non-empty and no
    key of [any_of] is indexed. With [must_have = [a]] and [any_of = [z]],
    [z] occurring nowhere in the batch, the code returns the postings of
    [a], the sorted set of the block numbers [a] is indexed under: the
    empty union is taken for an absent [any_of]. The combination as
    specified is the intersection of [required] with the empty union, the
    empty list, which is also what [naive_boolean] of the demo returns. *)
Theorem boolean_query_unmatched_any_of `{DigestLength} (self : EnhancedIndexer.t)
    (chain : list block) (st : Store) (a z : string) :
  0 < self.(bloom_m) →
  build_index self chain = Ret st →
  Forall (λ blk, z ∉ block_keys blk) chain →
  boolean_query self st [a] [z]
    = Ret (sorted (elements (set_of (blocks_with chain a))))
  ∧ boolean_query_spec self st [a] [z] = Ret []
  ∧ naive_boolean chain [a] [z] = [].
Proof.
  intros Hm Hbuilt Habsent.
  assert (postings_for self st z = Ret []) as Hz.
  { rewrite (postings_for_built self self chain st Hm Hbuilt).
    rewrite (fetched_absent self self chain st Hbuilt z); [done|].
    by apply Forall_forall. }
  pose proof (postings_for_spec self chain st Hm Hbuilt a) as Ha.
  split_and!.
  - rewrite boolean_query_unfold. simpl. by rewrite Ha, Hz.
  - unfold boolean_query_spec. simpl. rewrite Ha, Hz. simpl.
    by rewrite intersect_sorted_nil_r.
  - by apply naive_boolean_unmatched.
Qed.

Lemma boolean_query_unmatched_any_of_witness :
  ∃ st,
    build_index (H:=example_digest) defaults example_chain = Ret st
    ∧ boolean_query (H:=example_digest) defaults st ["A"] ["Z"] = Ret [0; 2]
    ∧ boolean_query_spec (H:=example_digest) defaults st ["A"] ["Z"] = Ret []
    ∧ naive_boolean example_chain ["A"] ["Z"] = [].
Proof.
  destruct (build_index (H:=example_digest) defaults example_chain)
    as [st| |] eqn:Hbuilt; [|vm_compute in Hbuilt; discriminate..].
  exists st. split; [reflexivity|].
  apply (boolean_query_unmatched_any_of (H0:=example_digest_length)
           defaults example_chain st "A" "Z"); [reflexivity|exact Hbuilt|].
  by_compute.
Defined.

(** C3: for every non-negative integer [n], decoding the varint encoding of
    [n] yields [n] back, and [varint_decode_stream] applied to the
    concatenation of the encodings of a sequence [ns] of non-negative
    integers yields exactly [ns], in order, and then ends normally. *)
Theorem varint_roundtrip (n : Z) (ns : list Z) :
  0 ≤ n → Forall (λ n, 0 ≤ n) ns →
  (∃ bs, varint_encode n = Ret bs
         ∧ varint_decode_stream bs = ([n], StopIteration))
  ∧ (∃ bss, mapM varint_encode ns = Ret bss
            ∧ varint_decode_stream (concat bss) = (ns, StopIteration)).
Proof.
  intros Hn Hns. split; [|by apply varint_decode_encode_stream].
  destruct (varint_encode_returns n Hn) as [bs Hbs]. exists bs. split; [done|].
  rewrite <- (app_nil_r bs). by rewrite (varint_decode_encode_app _ _ _ Hn Hbs).
Qed.

Lemma varint_roundtrip_witness :
  (∃ bs, varint_encode 300 = Ret bs
         ∧ varint_decode_stream bs = ([300], StopIteration))
  ∧ (∃ bss, mapM varint_encode [0; 127; 128; 300] = Ret bss
            ∧ varint_decode_stream (concat bss) = ([0; 127; 128; 300], StopIteration)).
Proof.
  apply (varint_roundtrip 300 [0; 127; 128; 300]); [lia|].
  repeat constructor; lia.
Defined.

(** C4: for every sorted, duplicate-free list [l] of non-negative integers
    [decompress_postings (compress_postings l)] is [l]; the empty list
    compresses to the empty byte string and the empty byte string
    decompresses to the empty list. *)
Theorem compress_decompress_roundtrip (l : list Z) :
  Sorted Z.le l → NoDup l → Forall (λ b, 0 ≤ b) l →
  (∃ bs, compress_postings l = Ret bs ∧ decompress_postings bs = Ret l)
  ∧ compress_postings [] = Ret []
  ∧ decompress_postings [] = Ret [].
Proof.
  intros Hs _ Hpos. split; [|done].
  destruct (compress_postings_returns l Hs Hpos) as [bs Hbs].
  exists bs. split; [done|]. by apply decompress_compress.
Qed.

Lemma compress_decompress_roundtrip_witness :
  (∃ bs, compress_postings [0; 2; 300; 301] = Ret bs
         ∧ decompress_postings bs = Ret [0; 2; 300; 301])
  ∧ compress_postings [] = Ret []
  ∧ decompress_postings [] = Ret [].
Proof.
  apply (compress_decompress_roundtrip [0; 2; 300; 301]).
  - repeat constructor; lia.
  - by_compute.
  - repeat constructor; lia.
Defined.

(** C5: a bloom filter has no false negative. Whatever the filter (its
    [m], [k] and bits) and whatever the sequence of keys added to it, once
    the adds have returned the membership test of each added key returns
    [True]. *)
Theorem bloom_no_false_negative `{Digest} (self self' : BloomFilter.t)
    (keys : list string) (key : string) :
  foldlM BloomFilter.add self keys = Ret self' → key ∈ keys →
  BloomFilter.contains self' key = Ret true.
Proof. intros Hadds Hkey. eapply add_all_contains; [done|by left]. Qed.

Lemma bloom_no_false_negative_witness :
  ∃ self',
    foldlM (BloomFilter.add (H:=example_digest)) (BloomFilter.init 8192 6)
           ["A"; "B"; "topic:5"]%string = Ret self'
    ∧ BloomFilter.contains (H:=example_digest) self' "B" = Ret true.
Proof.
  destruct (foldlM (BloomFilter.add (H:=example_digest)) (BloomFilter.init 8192 6)
                   ["A"; "B"; "topic:5"]%string) as [self'| |] eqn:Hadds;
    [|vm_compute in Hadds; discriminate..].
  exists self'. split; [reflexivity|].
  apply (bloom_no_false_negative (H:=example_digest) _ _ _ _ Hadds).
  by_compute.
Defined.

(** C6: for sorted, duplicate-free integer lists [a] and [b],
    [intersect_sorted a b] is [sorted(set(a) & set(b))] and
    [merge_sorted a b] is [sorted(set(a) | set(b))]. *)
Theorem intersect_merge_sorted_spec (a b : list Z) :
  Sorted Z.le a → NoDup a → Sorted Z.le b → NoDup b →
  intersect_sorted a b = sorted (elements (set_of a ∩ set_of b))
  ∧ merge_sorted a b = sorted (elements (set_of a ∪ set_of b)).
Proof.
  intros Ha Hna Hb Hnb.
  assert (StronglySorted Z.lt a) by (by apply StronglySorted_lt_le_NoDup).
  assert (StronglySorted Z.lt b) by (by apply StronglySorted_lt_le_NoDup).
  split; [by apply intersect_sorted_spec|by apply merge_sorted_spec].
Qed.

Lemma intersect_merge_sorted_spec_witness :
  intersect_sorted [1; 2; 3; 5] [2; 3; 4; 5; 6]
    = sorted (elements (set_of [1; 2; 3; 5] ∩ set_of [2; 3; 4; 5; 6]))
  ∧ merge_sorted [1; 2; 3; 5] [2; 3; 4; 5; 6]
    = sorted (elements (set_of [1; 2; 3; 5] ∪ set_of [2; 3; 4; 5; 6])).
Proof.
  apply (intersect_merge_sorted_spec [1; 2; 3; 5] [2; 3; 4; 5; 6]).
  - repeat constructor; lia.
  - by_compute.
  - repeat constructor; lia.
  - by_compute.
Defined.

(** C7: a buffer that ends mid-varint (its last byte has the continuation
    bit) is not decoded silently: the generator of [varint_decode_stream]
    ends by raising [IndexError] after the values it could complete, and
    [decompress_postings] raises [IndexError] and returns nothing. Both
    are total functions of the buffer, so neither loops. *)
Theorem decode_truncated_raises (b : list byte) (x : byte) :
  last b = Some x → Z.land (byte_to_Z x) 0x80 ≠ 0 →
  (∃ vals, varint_decode_stream b = (vals, GenRaise IndexError))
  ∧ decompress_postings b = Raise IndexError.
Proof.
  intros Hlast Hx.
  pose proof (varint_decode_from_truncated b x Hlast Hx false 0 0) as Hend.
  unfold decompress_postings, varint_decode_stream.
  destruct (varint_decode_from b false 0 0) as [vals e]. simpl in Hend. subst e.
  split; [by exists vals|done].
Qed.

Lemma decode_truncated_raises_witness :
  (∃ vals, varint_decode_stream ["001"; "172"]%byte = (vals, GenRaise IndexError))
  ∧ decompress_postings ["001"; "172"]%byte = Raise IndexError.
Proof.
  apply (decode_truncated_raises ["001"; "172"]%byte "172"%byte); [reflexivity|].
  by vm_compute.
Defined.

(** C9: [varint_encode] returns on every non-negative [n]: each iteration
    replaces a positive [n] by the smaller [n >> 7], and the result does not
    depend on the fuel once there is enough of it. On a negative [n] the
    loop never ends, whatever the fuel. [compress_postings], given ascending
    non-negative block numbers, calls it on the deltas [deltas 0 l] only,
    which are non-negative, and so returns. *)
Theorem varint_encode_terminates (n : Z) (l : list Z) :
  (0 ≤ n →
     returns (varint_encode n)
     ∧ (∀ fuel, (varint_fuel n ≤ fuel)%nat → varint_encode_loop fuel n = varint_encode n)
     ∧ (0 < n → 0 ≤ Z.shiftr n 7 < n))
  ∧ (n < 0 → ∀ fuel, varint_encode_loop fuel n = Diverge)
  ∧ (Sorted Z.le l → Forall (λ b, 0 ≤ b) l →
       compress_postings l = (bss ← mapM varint_encode (deltas 0 l); Ret (concat bss))
       ∧ Forall (λ d, 0 ≤ d) (deltas 0 l)
       ∧ returns (compress_postings l)).
Proof.
  split_and!.
  - intros Hn. split_and!.
    + by apply varint_encode_returns.
    + intros fuel Hfuel. destruct (varint_encode_returns n Hn) as [bs Hbs].
      rewrite Hbs. by apply (varint_encode_loop_fuel (varint_fuel n)).
    + apply shiftr7_decreases.
  - intros Hn fuel. by apply varint_encode_loop_negative.
  - intros Hs Hpos. split_and!.
    + apply compress_postings_deltas.
    + by apply deltas_nonneg, Sorted_le_from_0.
    + by apply compress_postings_returns.
Qed.

Lemma varint_encode_terminates_witness :
  returns (varint_encode 300)
  ∧ varint_encode_loop 1000 (-1) = Diverge
  ∧ returns (compress_postings [3; 5; 300]).
Proof.
  split_and!.
  - apply (varint_encode_terminates 300 []). lia.
  - apply (varint_encode_terminates (-1) []). lia.
  - apply (varint_encode_terminates 0 [3; 5; 300]); repeat constructor; lia.
Defined.

(** C2: on an index that [build_index] produced, [postings_for] returns,
    for every key, a strictly ascending and hence duplicate-free list of
    block numbers. The digest is 32 bytes long and the bloom bit count of
    the instance that queries is positive; the instance [self] that built
    the index and the instance [query] that reads it need not agree. *)
Theorem postings_for_strictly_ascending `{DigestLength} (self query : EnhancedIndexer.t)
    (chain : list block) (st : Store) (key : string) :
  0 < query.(bloom_m) →
  build_index self chain = Ret st →
  ∃ l, postings_for query st key = Ret l ∧ Sorted Z.lt l ∧ NoDup l.
Proof.
  intros Hm Hbuilt. exists (sorted (fetched query st key)).
  pose proof (postings_for_StronglySorted self query chain st Hbuilt key) as Hsorted.
  split_and!.
  - by apply (postings_for_built self query chain).
  - by apply StronglySorted_Sorted.
  - by apply StronglySorted_lt_le_NoDup in Hsorted as [_ ?].
Qed.

Lemma postings_for_strictly_ascending_witness :
  ∃ st l,
    build_index (H:=example_digest) example_indexer example_chain = Ret st
    ∧ postings_for (H:=example_digest) example_indexer st "A" = Ret l
    ∧ Sorted Z.lt l ∧ NoDup l.
Proof.
  destruct (build_index (H:=example_digest) example_indexer example_chain)
    as [st| |] eqn:Hbuilt; [|vm_compute in Hbuilt; discriminate..].
  exists st.
  destruct (postings_for_strictly_ascending (H0:=example_digest_length)
              example_indexer example_indexer example_chain st "A") as (l & Hl);
    [reflexivity|exact Hbuilt|].
  exists l. split; [reflexivity|exact Hl].
Defined.

(** C8: for a key that occurs in no block of the batch the index was built
    from, [postings_for] returns the empty list and raises nothing,
    whatever the bloom filters of the shards answer for the key. *)
Theorem postings_for_absent_key `{DigestLength} (self query : EnhancedIndexer.t)
    (chain : list block) (st : Store) (key : string) :
  0 < query.(bloom_m) →
  build_index self chain = Ret st →
  Forall (λ blk, key ∉ block_keys blk) chain →
  postings_for query st key = Ret [].
Proof.
  intros Hm Hbuilt Habsent. rewrite Forall_forall in Habsent.
  rewrite (postings_for_built self query chain st Hm Hbuilt).
  by rewrite (fetched_absent self query chain st Hbuilt key Habsent).
Qed.

Lemma postings_for_absent_key_witness :
  ∃ st,
    build_index (H:=example_digest) example_indexer example_chain = Ret st
    ∧ postings_for (H:=example_digest) example_indexer st "Z" = Ret [].
Proof.
  destruct (build_index (H:=example_digest) example_indexer example_chain)
    as [st| |] eqn:Hbuilt; [|vm_compute in Hbuilt; discriminate..].
  exists st. split; [reflexivity|].
  apply (postings_for_absent_key (H0:=example_digest_length)
           example_indexer example_indexer example_chain st "Z");
    [reflexivity|exact Hbuilt|].
  by_compute.
Defined.

(** C10: what [postings_for] does is the same for every order in which the
    store enumerates the shard rows: on a permutation of the rows it
    returns the same list, or fails with the same exception. *)
Theorem postings_for_rows_order `{Digest} (self : EnhancedIndexer.t)
    (rows rows' : list (Z * list byte)) (table : gmap (string * Z) (list byte))
    (key : string) :
  rows ≡ₚ rows' →
  postings_for_rows self rows table key = postings_for_rows self rows' table key.
Proof. apply postings_for_rows_Permutation_eq. Qed.

Lemma postings_for_rows_order_witness :
  ∃ st,
    build_index (H:=example_digest) example_indexer example_chain = Ret st
    ∧ (shard_rows st).*1 = [1; 0]
    ∧ postings_for_rows (H:=example_digest) example_indexer
        (shard_rows st) (postings st) "A"
      = postings_for_rows (H:=example_digest) example_indexer
          (reverse (shard_rows st)) (postings st) "A".
Proof.
  destruct (build_index (H:=example_digest) example_indexer example_chain)
    as [st| |] eqn:Hbuilt; vm_compute in Hbuilt; [|discriminate..].
  injection Hbuilt as <-.
  eexists. split; [reflexivity|]. split; [by vm_compute|].
  apply (postings_for_rows_order (H:=example_digest) example_indexer).
  symmetry. apply reverse_Permutation.
Defined.


(** * Further results *)

(** X1: on an index built and queried by the same instance, [postings_for]
    returns exactly the sorted set of the block numbers the key is indexed
    under in the batch: no block is lost to a bloom filter and none is
    invented. *)
Theorem postings_for_functional_correctness `{DigestLength} (self : EnhancedIndexer.t)
    (chain : list block) (st : Store) (key : string) :
  0 < self.(bloom_m) →
  build_index self chain = Ret st →
  postings_for self st key = Ret (sorted (elements (set_of (blocks_with chain key)))).
Proof. intros Hm Hbuilt. by apply postings_for_spec. Qed.

Lemma postings_for_functional_correctness_witness :
  ∃ st,
    build_index (H:=example_digest) example_indexer example_chain = Ret st
    ∧ postings_for (H:=example_digest) example_indexer st "topic:5" = Ret [1; 2].
Proof.
  destruct (build_index (H:=example_digest) example_indexer example_chain)
    as [st| |] eqn:Hbuilt; [|vm_compute in Hbuilt; discriminate..].
  exists st. split; [reflexivity|].
  apply (postings_for_functional_correctness (H0:=example_digest_length)
           example_indexer example_chain st "topic:5"); [reflexivity|exact Hbuilt].
Defined.





(** X4: for [n >= 0], [varint_encode] returns a non-empty byte string in
    which every byte but the last has the continuation bit and the last has
    not, one byte per seven-bit group of [n]. *)
Theorem varint_encoding_shape (n : Z) :
  0 ≤ n →
  ∃ bs, varint_encode n = Ret bs
        ∧ (∃ init x, bs = init ++ [x] ∧ Forall continues init ∧ ¬ continues x)
        ∧ Z.of_nat (length bs) = Z.log2 n `div` 7 + 1.
Proof.
  intros Hn. destruct (varint_encode_returns n Hn) as [bs Hbs]. exists bs.
  split; [done|]. by apply (varint_encode_loop_shape (varint_fuel n)).
Qed.

Lemma varint_encoding_shape_witness :
  ∃ bs, varint_encode 300 = Ret bs
        ∧ (∃ init x, bs = init ++ [x] ∧ Forall continues init ∧ ¬ continues x)
        ∧ Z.of_nat (length bs) = Z.log2 300 `div` 7 + 1.
Proof. apply (varint_encoding_shape 300). lia. Defined.

(** X5: on any buffer, [varint_decode_stream] yields non-negative values,
    one per byte without the continuation bit; it ends normally exactly
    when the buffer is empty or its last byte has no continuation bit, and
    with [IndexError] exactly when the last byte has one. *)
Theorem varint_decode_any_buffer (b : list byte) :
  Forall (λ v, 0 ≤ v) (varint_decode_stream b).1
  ∧ length (varint_decode_stream b).1 = length (filter (λ x, ¬ continues x) b)
  ∧ ((varint_decode_stream b).2 = StopIteration
     ↔ b = [] ∨ ∃ x, last b = Some x ∧ ¬ continues x)
  ∧ ((varint_decode_stream b).2 = GenRaise IndexError
     ↔ ∃ x, last b = Some x ∧ continues x).
Proof.
  split_and!.
  - by apply varint_decode_from_nonneg.
  - apply varint_decode_from_length.
  - apply varint_decode_stream_end.
  - split.
    + intros Hend. destruct (last b) as [x|] eqn:Hlast.
      * exists x. split; [done|]. destruct (decide (continues x)) as [|Hx]; [done|].
        unfold varint_decode_stream in Hend.
        rewrite (varint_decode_from_complete b x Hlast Hx) in Hend. done.
      * apply last_None in Hlast. by subst.
    + intros (x & Hlast & Hx). by apply (varint_decode_from_truncated b x).
Qed.

(** X6: decoding a concatenation: when the first buffer is decoded to its
    end, the values of the second follow those of the first and the
    generator ends as it does on the second. *)
Theorem varint_decode_stream_concat (b1 b2 : list byte) :
  (varint_decode_stream b1).2 = StopIteration →
  varint_decode_stream (b1 ++ b2)
  = ((varint_decode_stream b1).1 ++ (varint_decode_stream b2).1,
     (varint_decode_stream b2).2).
Proof. apply varint_decode_stream_app. Qed.

Lemma varint_decode_stream_concat_witness :
  varint_decode_stream (["172"; "002"] ++ ["005"; "129"])%byte
  = ([300] ++ [5], GenRaise IndexError).
Proof.
  apply (varint_decode_stream_concat ["172"; "002"] ["005"; "129"])%byte.
  reflexivity.
Defined.

(** X7: [compress_postings] returns exactly on the lists that are
    non-decreasing and start at a non-negative number (repeats included),
    and whenever it returns [decompress_postings] gives the list back. *)
Theorem compress_postings_domain (l : list Z) :
  (returns (compress_postings l) ↔ Sorted Z.le (0 :: l))
  ∧ ∀ bs, compress_postings l = Ret bs → decompress_postings bs = Ret l.
Proof.
  split; [apply compress_postings_returns_iff|]. intros bs.
  apply decompress_compress_Sorted.
Qed.

(** X8: on any buffer, [decompress_postings] returns exactly when the
    buffer is empty or its last byte has no continuation bit; what it
    returns is non-decreasing, starts at a non-negative number and has one
    entry per byte without the continuation bit. *)
Theorem decompress_postings_any_buffer (b : list byte) :
  (returns (decompress_postings b)
   ↔ b = [] ∨ ∃ x, last b = Some x ∧ ¬ continues x)
  ∧ ∀ l, decompress_postings b = Ret l →
      Sorted Z.le (0 :: l)
      ∧ length l = length (filter (λ x, ¬ continues x) b).
Proof.
  split.
  - rewrite <- varint_decode_stream_end. unfold decompress_postings.
    destruct (varint_decode_stream b) as [ds []]; simpl.
    + split; [done|]. intros _. apply returns_Ret.
    + split; [by intros [? ?]|done].
  - intros l [Hend ->]%decompress_postings_Ret. split.
    + apply running_sum_Sorted. by apply varint_decode_from_nonneg.
    + rewrite running_sum_length. apply varint_decode_from_length.
Qed.

(** X9: adding a key for which the filter already answers [True] leaves
    the filter as it is; so adding a key twice is adding it once. *)
Theorem bloom_add_idempotent `{Digest} (self : BloomFilter.t) (key : string) :
  BloomFilter.contains self key = Ret true → BloomFilter.add self key = Ret self.
Proof. apply add_contained. Qed.

Lemma bloom_add_idempotent_witness :
  BloomFilter.add (H:=example_digest) (BloomFilter.Build 64 3 14) "ABC"
  = Ret (BloomFilter.Build 64 3 14).
Proof.
  apply (bloom_add_idempotent (H:=example_digest) (BloomFilter.Build 64 3 14) "ABC").
  vm_compute. reflexivity.
Defined.

(** X10: the order of two [add] calls does not matter: the other order
    returns too, and gives the same filter. *)
Theorem bloom_add_commutes `{Digest} (self s1 s12 : BloomFilter.t) (key1 key2 : string) :
  BloomFilter.add self key1 = Ret s1 → BloomFilter.add s1 key2 = Ret s12 →
  ∃ s2, BloomFilter.add self key2 = Ret s2 ∧ BloomFilter.add s2 key1 = Ret s12.
Proof. apply add_add_comm. Qed.

Lemma bloom_add_commutes_witness :
  ∃ s2, BloomFilter.add (H:=example_digest) (BloomFilter.init 64 3) "topic:5" = Ret s2
        ∧ BloomFilter.add (H:=example_digest) s2 "ABC"
          = Ret (BloomFilter.Build 64 3 4925812092436494).
Proof.
  apply (bloom_add_commutes (H:=example_digest) (BloomFilter.init 64 3)
           (BloomFilter.Build 64 3 14) (BloomFilter.Build 64 3 4925812092436494)
           "ABC" "topic:5").
  - vm_compute. reflexivity.
  - vm_compute. reflexivity.
Defined.

(** X11: a filter just created answers [False] for every key, when it has
    at least one bit and one round. *)
Theorem bloom_fresh_filter `{DigestLength} (m_bits k : Z) (key : string) :
  0 < m_bits → 0 < k →
  BloomFilter.contains (BloomFilter.init m_bits k) key = Ret false.
Proof. apply contains_init. Qed.

Lemma bloom_fresh_filter_witness :
  BloomFilter.contains (H:=example_digest) (BloomFilter.init 8192 6) "ABC" = Ret false.
Proof.
  apply (bloom_fresh_filter (H0:=example_digest_length) 8192 6 "ABC"); reflexivity.
Defined.

(** X12: the degenerate parameters. With no round ([k <= 0]) the filter
    answers [True] for every key and [add] changes nothing; with no bit
    ([m = 0]) and at least one round both [add] and the membership test
    raise [ZeroDivisionError]. *)
Theorem bloom_degenerate_parameters `{DigestLength} (self : BloomFilter.t) (key : string) :
  (BloomFilter.k self ≤ 0 →
     BloomFilter.contains self key = Ret true ∧ BloomFilter.add self key = Ret self)
  ∧ (BloomFilter.m self = 0 → 0 < BloomFilter.k self →
       BloomFilter.contains self key = Raise ZeroDivisionError
       ∧ BloomFilter.add self key = Raise ZeroDivisionError).
Proof.
  split.
  - intros Hk. unfold BloomFilter.contains, BloomFilter.add.
    rewrite hashes_no_rounds by done. split; [done|]. by destruct self.
  - intros Hm Hk. unfold BloomFilter.contains, BloomFilter.add, BloomFilter._hashes.
    rewrite seqZ_cons by done. rewrite fmap_cons, add_loop_cons.
    rewrite (hash_round_zero_m self) by done. done.
Qed.

Lemma bloom_degenerate_parameters_witness :
  BloomFilter.contains (H:=example_digest) (BloomFilter.Build 0 3 0) "ABC"
  = Raise ZeroDivisionError
  ∧ BloomFilter.add (H:=example_digest) (BloomFilter.Build 0 3 0) "ABC"
    = Raise ZeroDivisionError.
Proof.
  apply (bloom_degenerate_parameters (H0:=example_digest_length)
           (BloomFilter.Build 0 3 0) "ABC"); reflexivity.
Defined.

(** X13: [to_bytes] and [from_bytes] are inverse to each other:
    [to_bytes] returns exactly when the bits fit [(m + 7) // 8] bytes, it
    returns that many bytes, and [from_bytes] with the same parameters
    rebuilds the filter; a string of that length read by [from_bytes] is
    written back unchanged. *)
Theorem bloom_serialisation (bf : BloomFilter.t) :
  (returns (BloomFilter.to_bytes bf)
   ↔ 0 ≤ (BloomFilter.m bf + 7) `div` 8
     ∧ 0 ≤ BloomFilter.bitarr bf < 256 ^ ((BloomFilter.m bf + 7) `div` 8))
  ∧ (∀ b, BloomFilter.to_bytes bf = Ret b →
       Z.of_nat (length b) = (BloomFilter.m bf + 7) `div` 8
       ∧ BloomFilter.from_bytes b (BloomFilter.m bf) (BloomFilter.k bf) = bf)
  ∧ ∀ b, Z.of_nat (length b) = (BloomFilter.m bf + 7) `div` 8 →
      BloomFilter.to_bytes
        (BloomFilter.from_bytes b (BloomFilter.m bf) (BloomFilter.k bf)) = Ret b.
Proof.
  split_and!.
  - unfold BloomFilter.to_bytes. split.
    + intros [b Hb]. apply int_to_bytes_Ret in Hb. tauto.
    + intros [Hlen [Hlo Hhi]]. eexists. apply int_to_bytes_Ret.
      split_and!; [done|done|done|reflexivity].
  - intros b Hb. split; [by apply to_bytes_length|by apply from_to_bytes].
  - intros b Hb. by apply to_from_bytes.
Qed.

(** X14: the rounds of [_hashes] repeat with period 25 (the start of the
    window is [(i * 8) % 25]), so a filter with more than 25 rounds tests
    and sets the positions of the first 25 only. *)
Theorem bloom_rounds_repeat `{DigestLength} (self : BloomFilter.t) (key : string) :
  25 ≤ BloomFilter.k self →
  BloomFilter.contains self key
  = BloomFilter.contains
      (BloomFilter.Build (BloomFilter.m self) 25 (BloomFilter.bitarr self)) key
  ∧ ∀ s, BloomFilter.add self key = Ret s
         ↔ ∃ s25, BloomFilter.add
                    (BloomFilter.Build (BloomFilter.m self) 25 (BloomFilter.bitarr self))
                    key = Ret s25
                  ∧ s = BloomFilter.Build (BloomFilter.m self) (BloomFilter.k self)
                          (BloomFilter.bitarr s25).
Proof.
  intros Hk. unfold BloomFilter.contains, BloomFilter.add.
  destruct (hashes_period self (list_byte_of_string key) Hk) as (more & -> & Hmore).
  set (first := BloomFilter._hashes _ _) in *. clearbody first. simpl. split.
  - rewrite contains_loop_app.
    destruct (BloomFilter.contains_loop _ first) as [[]| |] eqn:Hfirst; [|done..].
    apply contains_loop_set. eapply Forall_set_more; [|done].
    by apply contains_loop_true.
  - intros s. rewrite add_loop_app.
    destruct (BloomFilter.add_loop _ first) as [b1| |] eqn:Hfirst; simpl.
    + rewrite (add_loop_set b1 more).
      * simpl. split; [intros [= <-]; by eexists|by intros (s25 & [= <-] & ->)].
      * eapply Forall_set_more; [|done]. by apply add_loop_Ret in Hfirst as [_ ?].
    + split; [done|by intros (? & ? & _)].
    + split; [done|by intros (? & ? & _)].
Qed.

Lemma bloom_rounds_repeat_witness :
  BloomFilter.contains (H:=example_digest) (BloomFilter.Build 64 30 14) "ABC"
  = BloomFilter.contains (H:=example_digest) (BloomFilter.Build 64 25 14) "ABC".
Proof.
  apply (bloom_rounds_repeat (H0:=example_digest_length) (BloomFilter.Build 64 30 14) "ABC").
  simpl. lia.
Defined.

(** X15: [build_index] raises [ZeroDivisionError] on every non-empty batch
    when the shard size is zero, and on a batch whose first block has a
    transaction when the bloom bit count is zero (with at least one round). *)
Theorem build_index_zero_division `{DigestLength} (self : EnhancedIndexer.t)
    (blk : block) (chain : list block) :
  (self.(shard_size) = 0 → build_index self (blk :: chain) = Raise ZeroDivisionError)
  ∧ (self.(shard_size) ≠ 0 → self.(bloom_m) = 0 → 0 < self.(bloom_k) →
     blk.(transactions) ≠ [] →
     build_index self (blk :: chain) = Raise ZeroDivisionError).
Proof.
  split.
  - intros Hsize. by apply build_index_zero_shard_size.
  - apply build_index_zero_bloom_m.
Qed.

Lemma build_index_zero_division_witness :
  build_index (H:=example_digest) (EnhancedIndexer.Build 0 8192 6) example_chain
  = Raise ZeroDivisionError.
Proof.
  unfold example_chain.
  refine (proj1 (build_index_zero_division (H0:=example_digest_length)
                   (EnhancedIndexer.Build 0 8192 6) _ _) _).
  reflexivity.
Defined.

(** X16: a batch in which no block has a transaction (the empty batch
    included) builds the empty store, and on the empty store every query
    of every instance returns the empty list. *)
Theorem build_index_no_transaction `{Digest} (self : EnhancedIndexer.t)
    (chain : list block) :
  self.(shard_size) ≠ 0 →
  Forall (λ blk, blk.(transactions) = []) chain →
  build_index self chain = Ret empty_store
  ∧ ∀ query must_have any_of,
      boolean_query query empty_store must_have any_of = Ret [].
Proof.
  intros Hsize Hall. split; [by apply build_index_no_transactions|].
  intros query must_have any_of. apply boolean_query_empty_store.
Qed.

Lemma build_index_no_transaction_witness :
  build_index (H:=example_digest) defaults
    [ {| block_number := 7; transactions := [] |} ] = Ret empty_store
  ∧ ∀ query must_have any_of,
      boolean_query (H:=example_digest) query empty_store must_have any_of = Ret [].
Proof.
  apply (build_index_no_transaction (H:=example_digest) defaults).
  - by vm_compute.
  - repeat constructor.
Defined.

(** X17: the shards table of a built store has a row for exactly the
    shards in which some block has a transaction; the row of shard [sid]
    holds [start = sid * shard_size], [end = start + shard_size - 1] and a
    bloom filter of [(bloom_m + 7) // 8] bytes. *)
Theorem shards_table_rows `{Digest} (self : EnhancedIndexer.t) (chain : list block)
    (st : Store) (sid : Z) :
  build_index self chain = Ret st →
  (is_Some (shards st !! sid)
   ↔ ∃ blk, blk ∈ chain ∧ blk.(transactions) ≠ []
            ∧ blk.(block_number) `div` self.(shard_size) = sid)
  ∧ ∀ start_block end_block bloom,
      shards st !! sid = Some (start_block, end_block, bloom) →
      start_block = sid * self.(shard_size)
      ∧ end_block = start_block + self.(shard_size) - 1
      ∧ Z.of_nat (length bloom) = (self.(bloom_m) + 7) `div` 8.
Proof.
  intros Hbuilt. split; [split|].
  - intros [row Hrow].
    by destruct (build_index_shard_row self chain st Hbuilt sid row Hrow) as (_ & _ & _ & ?).
  - intros (blk & Hblk & Htx & <-). by eapply build_index_shard_row_exists.
  - intros s e bloom Hrow.
    destruct (build_index_shard_row self chain st Hbuilt sid _ Hrow)
      as (Hs & He & Hlen & _).
    simpl in *. subst. done.
Qed.

Lemma shards_table_rows_witness :
  ∃ st,
    build_index (H:=example_digest) example_indexer example_chain = Ret st
    ∧ (is_Some (shards st !! 1)
       ↔ ∃ blk, blk ∈ example_chain ∧ blk.(transactions) ≠ []
                ∧ blk.(block_number) `div` 2 = 1).
Proof.
  destruct (build_index (H:=example_digest) example_indexer example_chain)
    as [st| |] eqn:Hbuilt; [|vm_compute in Hbuilt; discriminate..].
  exists st. split; [reflexivity|].
  apply (shards_table_rows (H:=example_digest) example_indexer example_chain st 1 Hbuilt).
Defined.

(** X18: the postings table of a built store has a row for a key and a
    shard exactly when some block of that shard is indexed under the key;
    the row decodes to the sorted set of those blocks, its shard has a row
    in the shards table, and with a positive shard size the blocks lie
    between the start and the end of the shard. *)
Theorem postings_table_rows `{Digest} (self : EnhancedIndexer.t) (chain : list block)
    (st : Store) (key : string) (sid : Z) :
  build_index self chain = Ret st →
  (is_Some (postings st !! (key, sid))
   ↔ ∃ blk, blk ∈ chain ∧ key ∈ block_keys blk
            ∧ blk.(block_number) `div` self.(shard_size) = sid)
  ∧ ∀ blob, postings st !! (key, sid) = Some blob →
      ∃ l, decompress_postings blob = Ret l
           ∧ l = sorted (elements (set_of
                   (filter (λ b, b `div` self.(shard_size) = sid)
                           (blocks_with chain key))))
           ∧ is_Some (shards st !! sid)
           ∧ (0 < self.(shard_size) →
              Forall (λ b, sid * self.(shard_size) ≤ b
                           ≤ sid * self.(shard_size) + self.(shard_size) - 1) l).
Proof.
  intros Hbuilt. split; [by apply build_index_postings_row|].
  intros blob Hrow. eexists. split_and!; [|reflexivity| |].
  - pose proof (shard_fetch_exact self chain st Hbuilt key sid) as Hfetch.
    unfold shard_fetch in Hfetch. by rewrite Hrow in Hfetch.
  - assert (is_Some (postings st !! (key, sid))) as Hsome by (by exists blob).
    apply (build_index_postings_row self chain st Hbuilt) in Hsome
      as (blk & Hblk & Hkey & <-).
    eapply build_index_shard_row_exists; [done..|].
    apply block_keys_nonempty. by exists key.
  - intros Hsize. apply Forall_forall. intros b Hb%sorted_elements_elem_of.
    unfold set_of in Hb. apply elem_of_list_to_set in Hb.
    apply list_elem_of_filter in Hb as [<- _].
    pose proof (Z.mul_div_le b (shard_size self) Hsize).
    pose proof (Z.mul_succ_div_gt b (shard_size self) Hsize). lia.
Qed.

Lemma postings_table_rows_witness :
  ∃ st,
    build_index (H:=example_digest) example_indexer example_chain = Ret st
    ∧ (is_Some (postings st !! ("A"%string, 1))
       ↔ ∃ blk, blk ∈ example_chain ∧ "A"%string ∈ block_keys blk
                ∧ blk.(block_number) `div` 2 = 1).
Proof.
  destruct (build_index (H:=example_digest) example_indexer example_chain)
    as [st| |] eqn:Hbuilt; [|vm_compute in Hbuilt; discriminate..].
  exists st. split; [reflexivity|].
  apply (postings_table_rows (H:=example_digest) example_indexer example_chain st "A" 1
           Hbuilt).
Defined.

(** X19: a store queried by another instance than the one that built it.
    Whatever the bloom parameters of the querying instance (with a positive
    bit count), [postings_for] returns, and returns only blocks the key is
    indexed under; when the bloom parameters are those of the build, it
    returns all of them, whatever the shard size of the querying instance. *)
Theorem postings_for_other_instance `{DigestLength} (self query : EnhancedIndexer.t)
    (chain : list block) (st : Store) (key : string) :
  0 < query.(bloom_m) →
  build_index self chain = Ret st →
  ∃ l, postings_for query st key = Ret l
       ∧ (∀ b, b ∈ l → b ∈ blocks_with chain key)
       ∧ (query.(bloom_m) = self.(bloom_m) → query.(bloom_k) = self.(bloom_k) →
          l = sorted (elements (set_of (blocks_with chain key)))).
Proof.
  intros Hm Hbuilt. eexists. split_and!.
  - by apply (postings_for_built self query chain st).
  - intros b Hb. apply (sorted_elem_of (fetched query st key) b) in Hb.
    by apply (fetched_elem_of self query chain st Hbuilt) in Hb as [? _].
  - intros Hm' Hk'.
    assert (Ret (sorted (fetched query st key))
            = Ret (sorted (elements (set_of (blocks_with chain key))))) as Heq;
      [|by injection Heq].
    rewrite <- (postings_for_built self query chain st Hm Hbuilt).
    rewrite (postings_for_same_bloom self query) by done.
    apply (postings_for_spec self chain); [lia|done].
Qed.

Lemma postings_for_other_instance_witness :
  ∃ st,
    build_index (H:=example_digest) example_indexer example_chain = Ret st
    ∧ ∃ l, postings_for (H:=example_digest) defaults st "A" = Ret l
           ∧ ∀ b, b ∈ l → b ∈ blocks_with example_chain "A".
Proof.
  destruct (build_index (H:=example_digest) example_indexer example_chain)
    as [st| |] eqn:Hbuilt; [|vm_compute in Hbuilt; discriminate..].
  exists st. split; [reflexivity|].
  destruct (postings_for_other_instance (H0:=example_digest_length)
              example_indexer defaults example_chain st "A") as (l & Hl & Hsound & _);
    [reflexivity|exact Hbuilt|].
  exists l. split; [exact Hl|exact Hsound].
Defined.

(** X20: what [boolean_query] returns on a built index: the sorted set of
    the block numbers indexed under every key of [must_have] and, unless
    no key of [any_of] is indexed at all, under some key of [any_of]; with
    no key in [must_have], those indexed under some key of [any_of]. *)
Theorem boolean_query_selects `{DigestLength} (self : EnhancedIndexer.t)
    (chain : list block) (st : Store) (must_have any_of : list string) :
  0 < self.(bloom_m) →
  build_index self chain = Ret st →
  boolean_query self st must_have any_of
  = Ret (sorted (elements (set_of (query_blocks chain must_have any_of))))
  ∧ ∀ b, b ∈ query_blocks chain must_have any_of
         ↔ (must_have = [] ∧ Exists (λ k, b ∈ blocks_with chain k) any_of)
           ∨ (must_have ≠ [] ∧ Forall (λ k, b ∈ blocks_with chain k) must_have
              ∧ (optional_blocks chain any_of = []
                 ∨ Exists (λ k, b ∈ blocks_with chain k) any_of)).
Proof.
  intros Hm Hbuilt. split; [by apply boolean_query_built|].
  intros b. rewrite elem_of_query_blocks, elem_of_required_blocks, elem_of_optional_blocks.
  assert ((∀ z, z ∉ optional_blocks chain any_of) ↔ optional_blocks chain any_of = [])
    as ->; [|tauto].
  split; [|intros ->; apply not_elem_of_nil].
  destruct (optional_blocks chain any_of) as [|z l]; [done|].
  intros Hno. destruct (Hno z). by left.
Qed.

Lemma boolean_query_selects_witness :
  ∃ st,
    build_index (H:=example_digest) example_indexer example_chain = Ret st
    ∧ boolean_query (H:=example_digest) example_indexer st ["A"] ["topic:5"] = Ret [2].
Proof.
  destruct (build_index (H:=example_digest) example_indexer example_chain)
    as [st| |] eqn:Hbuilt; [|vm_compute in Hbuilt; discriminate..].
  exists st. split; [reflexivity|].
  destruct (boolean_query_selects (H0:=example_digest_length) example_indexer
              example_chain st ["A"] ["topic:5"]) as [Hq _];
    [reflexivity|exact Hbuilt|].
  exact Hq.
Defined.

(** X21: the answer depends on the key lists and on the batch only
    through their elements: the order of the keys, repeated keys, the
    order of the blocks in the batch and repeated blocks do not change
    it. *)
Theorem boolean_query_order_irrelevant `{DigestLength} (self : EnhancedIndexer.t)
    (chain chain' : list block) (st st' : Store)
    (must_have must_have' any_of any_of' : list string) :
  0 < self.(bloom_m) →
  build_index self chain = Ret st → build_index self chain' = Ret st' →
  (∀ blk, blk ∈ chain ↔ blk ∈ chain') →
  (∀ key, key ∈ must_have ↔ key ∈ must_have') →
  (∀ key, key ∈ any_of ↔ key ∈ any_of') →
  boolean_query self st must_have any_of = boolean_query self st' must_have' any_of'.
Proof.
  intros Hm Hbuilt Hbuilt' Hchain Hmust Hany.
  rewrite (boolean_query_built self chain st Hm Hbuilt).
  rewrite (boolean_query_built self chain' st' Hm Hbuilt').
  by rewrite (query_blocks_ext chain chain' must_have must_have' any_of any_of').
Qed.

Lemma boolean_query_order_irrelevant_witness :
  ∃ st,
    build_index (H:=example_digest) example_indexer example_chain = Ret st
    ∧ boolean_query (H:=example_digest) example_indexer st ["A"; "C"] ["topic:5"; "B"]
      = boolean_query (H:=example_digest) example_indexer st ["C"; "A"; "C"] ["B"; "topic:5"].
Proof.
  destruct (build_index (H:=example_digest) example_indexer example_chain)
    as [st| |] eqn:Hbuilt; [|vm_compute in Hbuilt; discriminate..].
  exists st. split; [reflexivity|].
  apply (boolean_query_order_irrelevant (H0:=example_digest_length) example_indexer
           example_chain example_chain st st); [reflexivity|exact Hbuilt|exact Hbuilt| | |].
  - intros blk. reflexivity.
  - intros key. rewrite !elem_of_cons, elem_of_nil. tauto.
  - intros key. rewrite !elem_of_cons, elem_of_nil. tauto.
Defined.

(** X22: [boolean_query] against the scan [naive_boolean] of the demo, on
    a batch whose block numbers are distinct: outside the one case in which
    both key lists have keys and no key of [any_of] is indexed, the index
    returns the blocks the scan keeps, sorted; when the batch is in
    ascending order of block number, these are the same list. *)
Theorem boolean_query_equals_naive `{DigestLength} (self : EnhancedIndexer.t)
    (chain : list block) (st : Store) (must_have any_of : list string) :
  0 < self.(bloom_m) →
  build_index self chain = Ret st →
  NoDup (block_number <$> chain) →
  must_have = [] ∨ any_of = [] ∨ optional_blocks chain any_of ≠ [] →
  boolean_query self st must_have any_of
  = Ret (sorted (naive_boolean chain must_have any_of))
  ∧ (Sorted Z.le (block_number <$> chain) →
     boolean_query self st must_have any_of = Ret (naive_boolean chain must_have any_of)).
Proof.
  intros Hm Hbuilt Hnd Hcase.
  pose proof (boolean_query_naive_agrees self chain st Hm Hbuilt must_have any_of
                Hnd Hcase) as Hq.
  split; [done|]. intros Hsorted. rewrite Hq. f_equal. apply sorted_id.
  assert (StronglySorted Z.lt (block_number <$> chain)) as Hs
    by (by apply StronglySorted_lt_le_NoDup).
  apply (naive_boolean_StronglySorted _ must_have any_of) in Hs.
  by apply StronglySorted_lt_le_NoDup in Hs as [? _].
Qed.

Lemma boolean_query_equals_naive_witness :
  ∃ st,
    build_index (H:=example_digest) example_indexer example_chain = Ret st
    ∧ boolean_query (H:=example_digest) example_indexer st ["A"] ["topic:5"]
      = Ret (naive_boolean example_chain ["A"] ["topic:5"]).
Proof.
  destruct (build_index (H:=example_digest) example_indexer example_chain)
    as [st| |] eqn:Hbuilt; [|vm_compute in Hbuilt; discriminate..].
  exists st. split; [reflexivity|].
  destruct (boolean_query_equals_naive (H0:=example_digest_length) example_indexer
              example_chain st ["A"] ["topic:5"]) as [_ Hq];
    [reflexivity|exact Hbuilt|by_compute| |].
  - right. right. vm_compute. discriminate.
  - apply Hq. repeat constructor; vm_compute; discriminate.
Defined.

(** X23: the two list loops on lists that need not be sorted:
    [intersect_sorted] returns a subsequence of each of its arguments;
    [merge_sorted] returns the elements of both and never the same
    element twice in a row. *)
Theorem two_pointer_loops_any_lists (a b : list Z) :
  intersect_sorted a b `sublist_of` a
  ∧ intersect_sorted a b `sublist_of` b
  ∧ (∀ z, z ∈ merge_sorted a b ↔ z ∈ a ∨ z ∈ b)
  ∧ ∀ i x y, merge_sorted a b !! i = Some x → merge_sorted a b !! S i = Some y → x ≠ y.
Proof.
  destruct (intersect_sorted_sublist a b). split_and!; [done..| |].
  - apply merge_sorted_elem_of.
  - apply drop_repeats_adjacent.
Qed.

(** X24: the [/query] endpoint over a store built with the bloom
    parameters of its [INDEX]: the handler returns (it never raises the
    HTTP 500), [count] is the number of selected blocks and [blocks] the
    first 200 of them in ascending order. *)
Theorem query_endpoint `{DigestLength} (builder : EnhancedIndexer.t) (chain : list block)
    (db : Store) (req : FastapiServer.QueryRequest) :
  builder.(bloom_m) = 8192 → builder.(bloom_k) = 6 →
  build_index builder chain = Ret db →
  ∃ res,
    FastapiServer.query db req
    = FastapiServer.Body {| FastapiServer.count := Z.of_nat (length res);
                            FastapiServer.blocks := take 200 res |}
    ∧ res = sorted (elements (set_of
              (query_blocks chain req.(FastapiServer.must_have)
                 req.(FastapiServer.any_of))))
    ∧ StronglySorted Z.lt (take 200 res).
Proof.
  intros Hm Hk Hbuilt. eexists. split_and!; [|reflexivity|].
  - rewrite (query_built builder chain db req Hm Hk Hbuilt).
    by rewrite sorted_elements_length.
  - apply StronglySorted_take, sorted_elements_StronglySorted.
Qed.

Lemma query_endpoint_witness :
  ∃ db,
    build_index (H:=example_digest) defaults example_chain = Ret db
    ∧ ∃ res,
        FastapiServer.query (H:=example_digest) db
          {| FastapiServer.must_have := ["A"%string]; FastapiServer.any_of := [] |}
        = FastapiServer.Body {| FastapiServer.count := Z.of_nat (length res);
                                FastapiServer.blocks := take 200 res |}
        ∧ res = [0; 2].
Proof.
  destruct (build_index_returns (H0:=example_digest_length) defaults example_chain)
    as [db Hbuilt]; [reflexivity|by vm_compute|by_compute|].
  exists db. split; [exact Hbuilt|].
  destruct (query_endpoint (H0:=example_digest_length) defaults example_chain db
              {| FastapiServer.must_have := ["A"%string]; FastapiServer.any_of := [] |})
    as (res & Hq & Hres & _); [reflexivity|reflexivity|exact Hbuilt|].
  exists res. split; [exact Hq|]. rewrite Hres. vm_compute. reflexivity.
Defined.
